(** * Testcase bundle ingestion and versioning (jjudge-oj/apiserver)

    A shallow embedding of [internal/services] (the archive ingestion of
    [GetTestcaseBundleFromArchive] / [readTestcaseFromTarGz], the filename
    helpers [validateBundleFilename] / [parseTestcaseFilename], and the
    version reconciliation of [UpdateTestcaseBundle]) together with the
    part of [internal/store] that the reconciliation talks to.

    Conventions.
    - A Go [string] is a sequence of bytes: [list ascii].
    - A Go [int] is the 64-bit signed integer of the amd64 port, held in
      [Z]; arithmetic that may overflow goes through [wrap_int].
    - Functions of the Go standard library that the code calls are either
      written out from their documentation ([path.Clean], [strconv.Atoi],
      ...) or, where they depend on Unicode tables, compression or the
      operating system, taken from a [Platform] record. *)

From Stdlib Require Import ZArith Ascii String List Permutation Sorted Lia.
From Stdlib.Strings Require Import Byte.
From stdpp Require Import base option list gmap fin_maps sorting.

Local Open Scope Z_scope.
Local Open Scope list_scope.

(** ** Go strings *)

Abbreviation gostring := (list ascii).

(** Literals: [str "0_0.in"] is the byte sequence of the literal. *)
Definition str (s : string) : gostring := list_ascii_of_string s.

Fixpoint gostring_eqb (a b : gostring) : bool :=
  match a, b with
  | [], [] => true
  | x :: a', y :: b' => Ascii.eqb x y && gostring_eqb a' b'
  | _, _ => false
  end.

Module strings.

(** [strings.HasPrefix(s, prefix)] *)
Fixpoint HasPrefix (s prefix : gostring) {struct prefix} : bool :=
  match prefix, s with
  | [], _ => true
  | p :: prefix', c :: s' => Ascii.eqb c p && HasPrefix s' prefix'
  | _ :: _, [] => false
  end.

(** [strings.HasSuffix(s, suffix)] *)
Definition HasSuffix (s suffix : gostring) : bool :=
  HasPrefix (rev s) (rev suffix).

(** [strings.TrimPrefix(s, prefix)]: [s] without the leading [prefix],
    [s] itself when it does not start with [prefix]. *)
Definition TrimPrefix (s prefix : gostring) : gostring :=
  if HasPrefix s prefix then drop (length prefix) s else s.

(** [strings.TrimSuffix(s, suffix)] *)
Definition TrimSuffix (s suffix : gostring) : gostring :=
  if HasSuffix s suffix then take (length s - length suffix)%nat s else s.

(** [strings.Split(s, sep)] for a one-byte separator (the code only
    splits on ["_"]): the pieces between the separators, [n+1] pieces
    for [n] separators, a single empty piece for the empty string. *)
Fixpoint Split (s : gostring) (sep : ascii) : list gostring :=
  match s with
  | [] => [[]]
  | c :: s' =>
      if Ascii.eqb c sep then [] :: Split s' sep
      else match Split s' sep with
           | piece :: pieces => (c :: piece) :: pieces
           | [] => [[c]]
           end
  end.

(** [strings.Contains(s, substr)] for a one-byte [substr]. *)
Definition Contains (s : gostring) (c : ascii) : bool :=
  existsb (Ascii.eqb c) s.

End strings.

(** ** package path *)

Module path.

Definition slash : ascii := "/"%char.
Definition dot : ascii := "."%char.

(** The slash-separated elements of a path, empty elements included. *)
Definition elements (p : gostring) : list gostring := strings.Split p slash.

Fixpoint join (els : list gostring) : gostring :=
  match els with
  | [] => []
  | [e] => e
  | e :: els' => e ++ slash :: join els'
  end.

(** One step of [Clean]'s scan.  [out] holds the elements written so far,
    last element first.  An empty element and a [.] element are dropped;
    a [..] element removes the last real element, is dropped at the root
    of a rooted path, and is kept otherwise. *)
Definition clean_step (rooted : bool) (out : list gostring) (el : gostring)
  : list gostring :=
  if gostring_eqb el [] then out
  else if gostring_eqb el [dot] then out
  else if gostring_eqb el [dot; dot] then
    match out with
    | top :: out' =>
        if gostring_eqb top [dot; dot] then el :: out else out'
    | [] => if rooted then out else [el]
    end
  else el :: out.

(** [path.Clean(p)]: the shortest path name equivalent to [p] by purely
    lexical processing. *)
Definition Clean (p : gostring) : gostring :=
  match p with
  | [] => [dot]
  | c :: _ =>
      let rooted := Ascii.eqb c slash in
      let out := rev (fold_left (clean_step rooted) (elements p) []) in
      let body := join out in
      if rooted then slash :: body
      else match body with [] => [dot] | _ => body end
  end.

(** Removes the trailing slashes of a reversed path. *)
Fixpoint strip_slashes (r : gostring) : gostring :=
  match r with
  | c :: r' => if Ascii.eqb c slash then strip_slashes r' else r
  | [] => []
  end.

(** The bytes of a reversed path up to its first slash. *)
Fixpoint until_slash (r : gostring) : gostring :=
  match r with
  | c :: r' => if Ascii.eqb c slash then [] else c :: until_slash r'
  | [] => []
  end.

(** [path.Base(p)]: the last element of [p]; trailing slashes are removed
    first; ["."] for the empty path, ["/"] for a path of slashes only. *)
Definition Base (p : gostring) : gostring :=
  match p with
  | [] => [dot]
  | _ =>
      match strip_slashes (rev p) with
      | [] => [slash]
      | r => rev (until_slash r)
      end
  end.

(** [Ext]'s backwards scan over the reversed path [r]; [acc] holds the
    bytes already passed. *)
Fixpoint ext_scan (r acc : gostring) : gostring :=
  match r with
  | [] => []
  | c :: r' =>
      if Ascii.eqb c slash then []
      else if Ascii.eqb c dot then c :: acc
      else ext_scan r' (c :: acc)
  end.

(** [path.Ext(p)]: the suffix beginning at the final dot of the final
    element of [p]; empty if there is no dot. *)
Definition Ext (p : gostring) : gostring := ext_scan (rev p) [].

End path.

(** ** package strconv *)

Definition max_int : Z := 2 ^ 63 - 1.
Definition min_int : Z := - 2 ^ 63.

(** Two's complement wrap-around of a 64-bit [int]. *)
Definition wrap_int (z : Z) : Z := (z + 2 ^ 63) mod 2 ^ 64 - 2 ^ 63.

Module strconv.

Definition is_digit (c : ascii) : bool :=
  (48 <=? Z.of_nat (nat_of_ascii c)) && (Z.of_nat (nat_of_ascii c) <=? 57).

Definition digit_val (c : ascii) : Z := Z.of_nat (nat_of_ascii c) - 48.

(** Base-10 accumulation; [None] on a byte that is not a digit. *)
Fixpoint parse_digits (acc : Z) (s : gostring) : option Z :=
  match s with
  | [] => Some acc
  | c :: s' =>
      if is_digit c then parse_digits (acc * 10 + digit_val c) s' else None
  end.

(** [strconv.Atoi(s)]: an optional sign, then one or more decimal digits;
    fails (syntax error) on anything else and (range error) on a value
    outside the [int] range. *)
Definition Atoi (s : gostring) : option Z :=
  let '(neg, digits) :=
    match s with
    | c :: s' =>
        if Ascii.eqb c "-"%char then (true, s')
        else if Ascii.eqb c "+"%char then (false, s')
        else (false, s)
    | [] => (false, s)
    end in
  match digits with
  | [] => None
  | _ =>
      match parse_digits 0 digits with
      | None => None
      | Some n =>
          let v := if neg : bool then - n else n in
          if (min_int <=? v) && (v <=? max_int) then Some v else None
      end
  end.

(** The digits of [n], least significant first; [fuel] bounds the number
    of digits. *)
Fixpoint rev_digits (fuel : nat) (n : Z) : gostring :=
  match fuel with
  | O => []
  | S fuel' =>
      let d := ascii_of_nat (Z.to_nat (48 + n mod 10)) in
      if n <? 10 then [d] else d :: rev_digits fuel' (n / 10)
  end.

(** [strconv.Itoa(n)] (also [fmt]'s [%d]) for a non-negative [n]. *)
Definition Itoa (n : Z) : gostring :=
  rev (rev_digits (S (Z.to_nat (Z.log2 n))) n).

End strconv.

(** ** The filename grammar *)

(** Regular expressions, as far as the pattern of the source needs them:
    no match, the empty string, a literal byte, [\d] (an ASCII digit in
    Go's syntax), concatenation, alternation and repetition. *)
Module regexp.

Inductive Regexp :=
| NoMatch
| EmptyMatch
| Lit (c : ascii)
| Digit
| Cat (r1 r2 : Regexp)
| Alt (r1 r2 : Regexp)
| Star (r : Regexp).

(** [r+] *)
Definition Plus (r : Regexp) : Regexp := Cat r (Star r).

(** A literal string. *)
Fixpoint Str (s : gostring) : Regexp :=
  match s with
  | [] => EmptyMatch
  | c :: s' => Cat (Lit c) (Str s')
  end.

(** [r] matches the empty string. *)
Fixpoint nullable (r : Regexp) : bool :=
  match r with
  | NoMatch | Lit _ | Digit => false
  | EmptyMatch | Star _ => true
  | Cat r1 r2 => nullable r1 && nullable r2
  | Alt r1 r2 => nullable r1 || nullable r2
  end.

(** What [r] matches after the byte [c]. *)
Fixpoint deriv (c : ascii) (r : Regexp) : Regexp :=
  match r with
  | NoMatch | EmptyMatch => NoMatch
  | Lit d => if Ascii.eqb c d then EmptyMatch else NoMatch
  | Digit => if strconv.is_digit c then EmptyMatch else NoMatch
  | Cat r1 r2 =>
      if nullable r1 then Alt (Cat (deriv c r1) r2) (deriv c r2)
      else Cat (deriv c r1) r2
  | Alt r1 r2 => Alt (deriv c r1) (deriv c r2)
  | Star r1 => Cat (deriv c r1) (Star r1)
  end.

(** [r] matches the whole of [s]. *)
Fixpoint full_match (r : Regexp) (s : gostring) : bool :=
  match s with
  | [] => nullable r
  | c :: s' => full_match (deriv c r) s'
  end.

End regexp.

(** [regexp.MustCompile(`^\d+_\d+\.(in|out)$`)].  The pattern is anchored at
    both ends and, without the [m] flag, [$] matches at the end of the text
    only: it matches a string when its body matches the whole string. *)
Definition testcaseFilenamePattern : regexp.Regexp :=
  regexp.Cat (regexp.Plus regexp.Digit)
    (regexp.Cat (regexp.Lit "_")
       (regexp.Cat (regexp.Plus regexp.Digit)
          (regexp.Cat (regexp.Lit ".")
             (regexp.Alt (regexp.Str (str "in")) (regexp.Str (str "out")))))).

(** [testcaseFilenamePattern.MatchString(s)] *)
Definition testcaseFilenamePattern_MatchString (s : gostring) : bool :=
  regexp.full_match testcaseFilenamePattern s.

(** ** package encoding/hex *)

Module hex.

Definition hextable : gostring := str "0123456789abcdef".

Definition digit (n : N) : ascii := nth (N.to_nat n) hextable "0"%char.

(** [hex.EncodeToString(src)]: two characters of [hextable] per byte, the
    high nibble first. *)
Definition EncodeToString (src : list byte) : gostring :=
  flat_map (fun b => [digit (N.shiftr (Byte.to_N b) 4);
                      digit (N.land (Byte.to_N b) 15)]) src.

End hex.

(** ** package types *)

Record Testcase := {
  tc_ID : Z;
  tc_OrderID : Z;
  tc_TestcaseGroupID : Z;
  tc_Input : gostring;
  tc_Output : gostring;
  tc_IsHidden : bool
}.

Record TestcaseGroup := {
  tg_ID : Z;
  tg_OrderID : Z;
  tg_ProblemID : Z;
  tg_Name : gostring;
  Testcases : list Testcase;
  tg_Points : Z
}.

Record TestcaseBundle := {
  ObjectKey : gostring;
  SHA256 : gostring;
  TestcaseGroups : list TestcaseGroup;
  Version : Z
}.

(** [types.Testcase{OrderID: order}] *)
Definition Testcase_with_OrderID (order : Z) : Testcase :=
  {| tc_ID := 0; tc_OrderID := order; tc_TestcaseGroupID := 0;
     tc_Input := []; tc_Output := []; tc_IsHidden := false |}.

(** [g.Testcases = append(g.Testcases, tcs...)] *)
Definition append_Testcases (g : TestcaseGroup) (tcs : list Testcase)
  : TestcaseGroup :=
  {| tg_ID := tg_ID g; tg_OrderID := tg_OrderID g; tg_ProblemID := tg_ProblemID g;
     tg_Name := tg_Name g; Testcases := Testcases g ++ tcs;
     tg_Points := tg_Points g |}.

(** [types.TestcaseBundle{}] *)
Definition empty_bundle : TestcaseBundle :=
  {| ObjectKey := []; SHA256 := []; TestcaseGroups := []; Version := 0 |}.

(** ** Errors *)

(** The errors the ingestion returns, one constructor per message of the
    source; [PanicIndex] stands for the run-time panic of an index out of
    range. *)
Inductive error :=
| ErrEmptyBundleData
| ErrZipNotSupported
| ErrInvalidTarGz
| ErrUnsupportedFormat
| ErrCreateExtractDir
| ErrUnsupportedEntries
| ErrInvalidFilenameBare
| ErrContainsDirectories
| ErrInvalidFilename (base : gostring)
| ErrGroupNotExist (groupOrder : Z)
| ErrDuplicateInput (groupOrder testcaseOrder : Z)
| ErrDuplicateOutput (groupOrder testcaseOrder : Z)
| ErrExtract
| ErrNoTestcases
| ErrIncompletePair (groupOrder order : Z)
| ErrNotConsecutive (groupOrder : Z)
| PanicIndex.

(** [%d] of a Go [int]. *)
Definition fmt_d (n : Z) : gostring :=
  if n <? 0 then "-"%char :: strconv.Itoa (- n) else strconv.Itoa n.

(** [err.Error()]: the message of each error.  The operating system's
    messages wrapped by [%w] are left out. *)
Definition Error (e : error) : gostring :=
  match e with
  | ErrEmptyBundleData => str "empty bundle data"
  | ErrZipNotSupported => str "zip bundles are not supported"
  | ErrInvalidTarGz => str "invalid tar.gz bundle"
  | ErrUnsupportedFormat => str "unsupported bundle format"
  | ErrCreateExtractDir => str "failed to create bundle extract directory: "
  | ErrUnsupportedEntries => str "bundle contains unsupported entries"
  | ErrInvalidFilenameBare => str "invalid testcase filename"
  | ErrContainsDirectories => str "bundle must not contain directories"
  | ErrInvalidFilename base => str "invalid testcase filename: " ++ base
  | ErrGroupNotExist g =>
      str "testcase group " ++ fmt_d g ++ str " does not exist"
  | ErrDuplicateInput g t =>
      str "duplicate testcase input: " ++ fmt_d g ++ str "_" ++ fmt_d t ++ str ".in"
  | ErrDuplicateOutput g t =>
      str "duplicate testcase output: " ++ fmt_d g ++ str "_" ++ fmt_d t ++ str ".out"
  | ErrExtract => str "failed to extract testcase: "
  | ErrNoTestcases => str "bundle has no testcases"
  | ErrIncompletePair g t =>
      str "testcase " ++ fmt_d g ++ str "_" ++ fmt_d t
        ++ str " must have both .in and .out files"
  | ErrNotConsecutive g =>
      str "testcase order must be consecutive in group " ++ fmt_d g
  | PanicIndex => str "runtime error: index out of range"
  end.

(** The error kinds of the specification's taxonomy, and the kind each
    message of the source falls under.  The two scratch-area failures have
    no kind of their own in the taxonomy. *)
Inductive ErrorKind :=
| EmptyBundle | UnsupportedFormat | MalformedArchive | UnsupportedEntry
| InvalidFilename | UnknownGroup | DuplicateTestcaseFile
| IncompleteTestcasePair | NonContiguousOrdering | ScratchFailure | RuntimePanic.

Definition kind_of (e : error) : ErrorKind :=
  match e with
  | ErrEmptyBundleData | ErrNoTestcases => EmptyBundle
  | ErrZipNotSupported | ErrUnsupportedFormat => UnsupportedFormat
  | ErrInvalidTarGz => MalformedArchive
  | ErrUnsupportedEntries | ErrContainsDirectories => UnsupportedEntry
  | ErrInvalidFilenameBare | ErrInvalidFilename _ => InvalidFilename
  | ErrGroupNotExist _ => UnknownGroup
  | ErrDuplicateInput _ _ | ErrDuplicateOutput _ _ => DuplicateTestcaseFile
  | ErrIncompletePair _ _ => IncompleteTestcasePair
  | ErrNotConsecutive _ => NonContiguousOrdering
  | ErrCreateExtractDir | ErrExtract => ScratchFailure
  | PanicIndex => RuntimePanic
  end.

Inductive Result (A : Type) :=
| Ok (a : A)
| Err (e : error).
Arguments Ok {A} a.
Arguments Err {A} e.

(** ** Filename validation and parsing *)

(** [parseTestcaseFilename(base)] *)
Definition parseTestcaseFilename (base : gostring) : Result (Z * Z * gostring) :=
  let ext := strings.TrimPrefix (path.Ext base) (str ".") in
  let name := strings.TrimSuffix base (str "." ++ ext) in
  let parts := strings.Split name "_"%char in
  if gostring_eqb ext [] || negb (length parts =? 2)%nat then
    Err (ErrInvalidFilename base)
  else
    match strconv.Atoi (nth 0 parts []) with
    | None => Err (ErrInvalidFilename base)
    | Some groupOrder =>
        match strconv.Atoi (nth 1 parts []) with
        | None => Err (ErrInvalidFilename base)
        | Some testcaseOrder =>
            if (groupOrder <? 0) || (testcaseOrder <? 0) then
              Err (ErrInvalidFilename base)
            else Ok (groupOrder, testcaseOrder, ext)
        end
    end.

(** [validateBundleFilename(name)]; [None] is the [nil] error. *)
Definition validateBundleFilename (name : gostring) : option error :=
  let clean := path.Clean name in
  if gostring_eqb clean (str ".") then Some ErrInvalidFilenameBare
  else
    let base := path.Base clean in
    if negb (gostring_eqb base clean) then Some ErrContainsDirectories
    else if strings.Contains base "\"%char then Some ErrInvalidFilenameBare
    else if negb (testcaseFilenamePattern_MatchString base) then
      Some (ErrInvalidFilename base)
    else None.

(** ** The archive, the scratch area and the platform *)

(** What [header.FileInfo()] says of an entry: a directory, a regular file,
    or something else (symbolic link, device, ...). *)
Inductive EntryType := TypeDir | TypeReg | TypeOther.

Record TarEntry := {
  Name : gostring;
  Typeflag : EntryType;
  Body : list byte
}.

(** How the sequence of [tr.Next()] ends: [io.EOF], or another error. *)
Inductive TarEnd := TarEOF | TarCorrupt.

(** A [*tar.Reader]: the entries it yields, then how it ends. *)
Record TarReader := {
  tr_entries : list TarEntry;
  tr_end : TarEnd
}.

(** The filesystem as far as the ingestion touches it: the directories, by
    path, each with its files by base name. *)
Abbreviation Dir := (gmap gostring (list byte)).
Abbreviation FS := (gmap gostring Dir).

(** Where the extraction of one file may fail: [os.OpenFile], [io.Copy]
    after [written] bytes, or [Close]. *)
Inductive IOFault := FaultOpen | FaultCopy (written : nat) | FaultClose.

(** [pair] of [readTestcaseFromTarGz]: which of the two files of a testcase
    have been seen. *)
Record iopair := { has_in : bool; has_out : bool }.

Abbreviation Orders := (gmap Z iopair).

(** What the code takes from the Go library and the operating system.
    - [strings_ToLower], [strings_TrimSpace]: Unicode aware in Go.
    - [gzip_NewReader data]: [gzip.NewReader] over [data] followed by
      [tar.NewReader]; [None] when the gzip header is rejected.
    - [MkdirTemp_pick]: the name [os.MkdirTemp] settles on, [None] when it
      gives up.
    - [io_fault n base]: the fault, if any, of extracting the file [base]
      after [n] files have been extracted.
    - [map_range]: the order in which [range] visits the entries of a map,
      which Go leaves unspecified. *)
Record Platform := {
  strings_ToLower : gostring -> gostring;
  strings_TrimSpace : gostring -> gostring;
  gzip_NewReader : list byte -> option TarReader;
  os_Getenv : gostring -> gostring;
  MkdirTemp_pick : FS -> gostring -> gostring -> option gostring;
  io_fault : Z -> gostring -> option IOFault;
  map_range : list (Z * iopair) -> list (Z * iopair);
  map_range_perm : forall l, map_range l ≡ₚ l
}.

Module os.

(** [os.MkdirTemp(dir, pattern)]: creates a new directory; the directory
    did not exist before. *)
Definition MkdirTemp (P : Platform) (dir pattern : gostring) (fs : FS)
  : FS * option gostring :=
  match MkdirTemp_pick P fs dir pattern with
  | Some d =>
      match fs !! d with
      | None => (<[d := ∅]> fs, Some d)
      | Some _ => (fs, None)
      end
  | None => (fs, None)
  end.

(** [os.RemoveAll(path)]: removes [path] and any children it contains. *)
Definition RemoveAll (d : gostring) (fs : FS) : FS := delete d fs.

(** Writing [content] to the file [base] of directory [d], created or
    truncated. *)
Definition put (d base : gostring) (content : list byte) (fs : FS) : FS :=
  match fs !! d with
  | Some files => <[d := <[base := content]> files]> fs
  | None => fs
  end.

End os.

Definition testcaseExtractDirEnv : gostring := str "JJUDGE_TESTCASE_EXTRACT_DIR".

(** The extraction of one entry: [os.OpenFile(filepath.Join(tempDir, base),
    O_CREATE|O_WRONLY|O_TRUNC)], [io.Copy], [Close].  [base] is a flat name,
    so the joined path is the file [base] of [tempDir]. *)
Definition extract (P : Platform) (tempDir base : gostring) (body : list byte)
    (count : Z) (fs : FS) : FS * option error :=
  match fs !! tempDir, io_fault P count base with
  | None, _ => (fs, Some ErrExtract)
  | Some _, Some FaultOpen => (fs, Some ErrExtract)
  | Some _, Some (FaultCopy written) =>
      (os.put tempDir base (take written body) fs, Some ErrExtract)
  | Some _, Some FaultClose => (os.put tempDir base body fs, Some ErrExtract)
  | Some _, None => (os.put tempDir base body fs, None)
  end.

(** ** The decode pass *)

Definition empty_pair : iopair := {| has_in := false; has_out := false |}.

(** The [switch ext] of the decode pass on the pair [p] of the entry. *)
Definition mark (groupOrder testcaseOrder : Z) (base ext : gostring) (p : iopair)
  : Result iopair :=
  if gostring_eqb ext (str "in") then
    if has_in p then Err (ErrDuplicateInput groupOrder testcaseOrder)
    else Ok {| has_in := true; has_out := has_out p |}
  else if gostring_eqb ext (str "out") then
    if has_out p then Err (ErrDuplicateOutput groupOrder testcaseOrder)
    else Ok {| has_in := has_in p; has_out := true |}
  else Err (ErrInvalidFilename base).

(** One turn of the [for] loop over [tr.Next()], for the entry [header]:
    the state is [groupOrders], [count] and the filesystem.  A directory
    leaves the state as it is ([continue]). *)
Definition decode_entry (P : Platform) (tempDir : gostring)
    (tcGroups : list TestcaseGroup) (header : TarEntry)
    (groupOrders : list Orders) (count : Z) (fs : FS)
  : FS * Result (list Orders * Z) :=
  match Typeflag header with
  | TypeDir => (fs, Ok (groupOrders, count))
  | TypeOther => (fs, Err ErrUnsupportedEntries)
  | TypeReg =>
      match validateBundleFilename (Name header) with
      | Some err => (fs, Err err)
      | None =>
          let base := path.Base (path.Clean (Name header)) in
          match parseTestcaseFilename base with
          | Err err => (fs, Err err)
          | Ok (groupOrder, testcaseOrder, ext) =>
              if (groupOrder <? 0) || (groupOrder >=? Z.of_nat (length tcGroups))
              then (fs, Err (ErrGroupNotExist groupOrder))
              else
                match groupOrders !! Z.to_nat groupOrder with
                | None => (fs, Err PanicIndex)
                | Some orders =>
                    let p := default empty_pair (orders !! testcaseOrder) in
                    match mark groupOrder testcaseOrder base ext p with
                    | Err err => (fs, Err err)
                    | Ok p' =>
                        let groupOrders' :=
                          <[Z.to_nat groupOrder := <[testcaseOrder := p']> orders]>
                            groupOrders in
                        match extract P tempDir base (Body header) count fs with
                        | (fs', Some err) => (fs', Err err)
                        | (fs', None) => (fs', Ok (groupOrders', count + 1))
                        end
                    end
                end
          end
      end
  end.

(** The [for] loop: the entries in turn, until [tr.Next()] returns [io.EOF]
    or an error, or an entry is refused. *)
Fixpoint decode (P : Platform) (tempDir : gostring) (tcGroups : list TestcaseGroup)
    (entries : list TarEntry) (ending : TarEnd)
    (groupOrders : list Orders) (count : Z) (fs : FS)
  : FS * Result (list Orders * Z) :=
  match entries with
  | [] =>
      match ending with
      | TarEOF => (fs, Ok (groupOrders, count))
      | TarCorrupt => (fs, Err ErrInvalidTarGz)
      end
  | header :: entries' =>
      match decode_entry P tempDir tcGroups header groupOrders count fs with
      | (fs', Err err) => (fs', Err err)
      | (fs', Ok (groupOrders', count')) =>
          decode P tempDir tcGroups entries' ending groupOrders' count' fs'
      end
  end.

(** ** The final validation *)

(** The inner [range orders] loop: the orders in the order visited, or the
    first order met whose pair is not complete. *)
Fixpoint collect_orders (visited : list (Z * iopair)) : Z + list Z :=
  match visited with
  | [] => inr []
  | (order, p) :: visited' =>
      if negb (has_in p) || negb (has_out p) then inl order
      else match collect_orders visited' with
           | inl bad => inl bad
           | inr testcaseOrders => inr (order :: testcaseOrders)
           end
  end.

Module sort.
(** [sort.Ints(x)]: [x] in increasing order. *)
Definition Ints (x : list Z) : list Z := merge_sort Z.le x.
End sort.

(** [for expected, order := range testcaseOrders { if order != expected ... }] *)
Fixpoint consecutive_from (expected : Z) (testcaseOrders : list Z) : bool :=
  match testcaseOrders with
  | [] => true
  | order :: rest =>
      if order =? expected then consecutive_from (expected + 1) rest else false
  end.

(** One turn of the loop over [groupOrders], for the group [groupOrder] and
    its [orders].  [tcGroups] is the caller's slice: the turn writes to its
    element [groupOrder].  The testcases are appended one by one in the
    source, all at once here. *)
Definition reconcile_group (P : Platform) (groupOrder : nat) (orders : Orders)
    (tcGroups : list TestcaseGroup) : list TestcaseGroup * option error :=
  if (size orders =? 0)%nat then (tcGroups, None)
  else
    match collect_orders (map_range P (map_to_list orders)) with
    | inl order =>
        (tcGroups, Some (ErrIncompletePair (Z.of_nat groupOrder) order))
    | inr testcaseOrders =>
        let testcaseOrders := sort.Ints testcaseOrders in
        if consecutive_from 0 testcaseOrders then
          match tcGroups !! groupOrder with
          | None => (tcGroups, Some PanicIndex)
          | Some g =>
              (<[groupOrder :=
                   append_Testcases g (map Testcase_with_OrderID testcaseOrders)]>
                 tcGroups, None)
          end
        else (tcGroups, Some (ErrNotConsecutive (Z.of_nat groupOrder)))
    end.

(** The loop over [groupOrders] from index [groupOrder] on.  The caller's
    slice is returned as it stands when the loop stops, with or without an
    error. *)
Fixpoint reconcile (P : Platform) (groupOrder : nat) (groupOrders : list Orders)
    (tcGroups : list TestcaseGroup) : list TestcaseGroup * option error :=
  match groupOrders with
  | [] => (tcGroups, None)
  | orders :: groupOrders' =>
      match reconcile_group P groupOrder orders tcGroups with
      | (tcGroups', Some err) => (tcGroups', Some err)
      | (tcGroups', None) => reconcile P (S groupOrder) groupOrders' tcGroups'
      end
  end.

(** ** Ingestion *)

(** The body of [readTestcaseFromTarGz] between the creation of the scratch
    directory and its deferred removal. *)
Definition readTestcase_body (P : Platform) (tempDir : gostring) (tr : TarReader)
    (tcGroups : list TestcaseGroup) (fs : FS)
  : FS * list TestcaseGroup * Result (list TestcaseGroup) :=
  let groupOrders := map (fun _ => (∅ : Orders)) tcGroups in
  match decode P tempDir tcGroups (tr_entries tr) (tr_end tr) groupOrders 0 fs with
  | (fs', Err err) => (fs', tcGroups, Err err)
  | (fs', Ok (groupOrders', count)) =>
      if count =? 0 then (fs', tcGroups, Err ErrNoTestcases)
      else
        match reconcile P 0 groupOrders' tcGroups with
        | (tcGroups', Some err) => (fs', tcGroups', Err err)
        | (tcGroups', None) => (fs', tcGroups', Ok tcGroups')
        end
  end.

(** The directory under which the scratch directory is created. *)
Definition extractBase (P : Platform) : gostring :=
  let extractBase := strings_TrimSpace P (os_Getenv P testcaseExtractDirEnv) in
  if gostring_eqb extractBase [] then str "." else extractBase.

(** [readTestcaseFromTarGz(tr, tcGroups)].  The result is the filesystem
    after the call, the caller's [tcGroups] slice after the call, and the
    returned value. *)
Definition readTestcaseFromTarGz (P : Platform) (tr : TarReader)
    (tcGroups : list TestcaseGroup) (fs : FS)
  : FS * list TestcaseGroup * Result (list TestcaseGroup) :=
  match os.MkdirTemp P (extractBase P) (str "testcase-bundle-") fs with
  | (fs0, None) => (fs0, tcGroups, Err ErrCreateExtractDir)
  | (fs0, Some tempDir) =>
      let '(fs1, tcGroups', r) := readTestcase_body P tempDir tr tcGroups fs0 in
      (os.RemoveAll tempDir fs1, tcGroups', r)
  end.

(** ** package crypto/sha256 (FIPS 180-4) *)

Module sha256.

Definition w32 (z : Z) : Z := z mod 2 ^ 32.
Definition add32 (a b : Z) : Z := w32 (a + b).
Definition rotr (n x : Z) : Z := Z.lor (Z.shiftr x n) (w32 (Z.shiftl x (32 - n))).
Definition not32 (x : Z) : Z := Z.lxor x (2 ^ 32 - 1).

Definition Ch (x y z : Z) : Z := Z.lxor (Z.land x y) (Z.land (not32 x) z).
Definition Maj (x y z : Z) : Z :=
  Z.lxor (Z.lxor (Z.land x y) (Z.land x z)) (Z.land y z).
Definition Sigma0 (x : Z) : Z := Z.lxor (Z.lxor (rotr 2 x) (rotr 13 x)) (rotr 22 x).
Definition Sigma1 (x : Z) : Z := Z.lxor (Z.lxor (rotr 6 x) (rotr 11 x)) (rotr 25 x).
Definition sigma0 (x : Z) : Z := Z.lxor (Z.lxor (rotr 7 x) (rotr 18 x)) (Z.shiftr x 3).
Definition sigma1 (x : Z) : Z := Z.lxor (Z.lxor (rotr 17 x) (rotr 19 x)) (Z.shiftr x 10).

(** The first 64 primes. *)
Definition is_prime (n : Z) : bool :=
  (1 <? n) && forallb (fun m => negb (n mod m =? 0)) (seqZ 2 (n - 2)).
Definition primes : list Z := List.filter is_prime (seqZ 2 310).

(** The integer part of the cube root of [n], for [n] below [2^120]. *)
Definition cube_root (n : Z) : Z :=
  fold_left (fun r b => if (r + 2 ^ b) ^ 3 <=? n then r + 2 ^ b else r)
            (rev (seqZ 0 40)) 0.

(** The round constants: the first 32 bits of the fractional parts of the
    cube roots of the first 64 primes. *)
Definition K : list Z := map (fun p => w32 (cube_root (p * 2 ^ 96))) primes.

(** The first 32 bits of the fractional part of the square root of the
    [i]-th prime. *)
Definition sqrt_frac (i : nat) : Z := w32 (Z.sqrt (nth i primes 0 * 2 ^ 64)).

(** The hash value: eight 32-bit words. *)
Record digest := {
  h0 : Z; h1 : Z; h2 : Z; h3 : Z; h4 : Z; h5 : Z; h6 : Z; h7 : Z
}.

Definition init : digest :=
  {| h0 := sqrt_frac 0; h1 := sqrt_frac 1; h2 := sqrt_frac 2; h3 := sqrt_frac 3;
     h4 := sqrt_frac 4; h5 := sqrt_frac 5; h6 := sqrt_frac 6; h7 := sqrt_frac 7 |}.

Definition byte_val (b : byte) : Z := Z.of_N (Byte.to_N b).

Definition byte_of (z : Z) : byte :=
  match Byte.of_N (Z.to_N (z mod 256)) with
  | Some b => b
  | None => x00
  end.

(** The padded message: the data, the byte [0x80], zero bytes up to 56
    modulo 64, and the length of the data in bits as 8 big-endian bytes. *)
Definition pad (data : list byte) : list Z :=
  let len := Z.of_nat (length data) in
  let zeros := Z.to_nat ((55 - len) mod 64) in
  let bits := 8 * len in
  map byte_val data ++ 0x80 :: repeat 0 zeros
    ++ map (fun i => Z.shiftr bits (8 * i) mod 256) [7; 6; 5; 4; 3; 2; 1; 0].

(** Big-endian 32-bit words of a byte sequence. *)
Fixpoint words (bytes : list Z) : list Z :=
  match bytes with
  | a :: b :: c :: d :: rest =>
      (Z.shiftl a 24 + Z.shiftl b 16 + Z.shiftl c 8 + d) :: words rest
  | _ => []
  end.

(** The message schedule, latest word first: [n] more words after [w]. *)
Fixpoint schedule (n : nat) (w : list Z) : list Z :=
  match n with
  | O => w
  | S n' =>
      let wt := add32 (add32 (sigma1 (nth 1 w 0)) (nth 6 w 0))
                      (add32 (sigma0 (nth 14 w 0)) (nth 15 w 0)) in
      schedule n' (wt :: w)
  end.

Definition round (s : digest) (kw : Z * Z) : digest :=
  let t1 := add32 (add32 (add32 (h7 s) (Sigma1 (h4 s)))
                         (add32 (Ch (h4 s) (h5 s) (h6 s)) (fst kw))) (snd kw) in
  let t2 := add32 (Sigma0 (h0 s)) (Maj (h0 s) (h1 s) (h2 s)) in
  {| h0 := add32 t1 t2; h1 := h0 s; h2 := h1 s; h3 := h2 s;
     h4 := add32 (h3 s) t1; h5 := h4 s; h6 := h5 s; h7 := h6 s |}.

Definition block (h : digest) (m : list Z) : digest :=
  let w := rev (schedule 48 (rev m)) in
  let s := fold_left round (combine K w) h in
  {| h0 := add32 (h0 h) (h0 s); h1 := add32 (h1 h) (h1 s);
     h2 := add32 (h2 h) (h2 s); h3 := add32 (h3 h) (h3 s);
     h4 := add32 (h4 h) (h4 s); h5 := add32 (h5 h) (h5 s);
     h6 := add32 (h6 h) (h6 s); h7 := add32 (h7 h) (h7 s) |}.

(** The blocks of 16 words of [ws]; [fuel] bounds their number. *)
Fixpoint blocks (fuel : nat) (h : digest) (ws : list Z) : digest :=
  match fuel, ws with
  | S fuel', _ :: _ => blocks fuel' (block h (take 16 ws)) (drop 16 ws)
  | _, _ => h
  end.

Definition be32 (w : Z) : list byte :=
  [byte_of (Z.shiftr w 24); byte_of (Z.shiftr w 16); byte_of (Z.shiftr w 8);
   byte_of w].

(** [sha256.Sum256(data)], as the 32 bytes of the checksum. *)
Definition Sum256 (data : list byte) : list byte :=
  let ws := words (pad data) in
  let h := blocks (length ws) init ws in
  be32 (h0 h) ++ be32 (h1 h) ++ be32 (h2 h) ++ be32 (h3 h)
    ++ be32 (h4 h) ++ be32 (h5 h) ++ be32 (h6 h) ++ be32 (h7 h).

End sha256.

(** The bytes of a literal. *)
Definition bytes_of (s : string) : list byte := list_byte_of_string s.

(** [GetTestcaseBundleFromArchive(filename, data, tcGroups)].  The result is
    the filesystem and the caller's [tcGroups] slice after the call, and the
    returned value. *)
Definition GetTestcaseBundleFromArchive (P : Platform) (filename : gostring)
    (data : list byte) (tcGroups : list TestcaseGroup) (fs : FS)
  : FS * list TestcaseGroup * Result TestcaseBundle :=
  if (length data =? 0)%nat then (fs, tcGroups, Err ErrEmptyBundleData)
  else
    let hash := sha256.Sum256 data in
    let actual := hex.EncodeToString hash in
    let lower := strings_ToLower P (strings_TrimSpace P filename) in
    if strings.HasSuffix lower (str ".zip") then
      (fs, tcGroups, Err ErrZipNotSupported)
    else if strings.HasSuffix lower (str ".tar.gz")
            || strings.HasSuffix lower (str ".tgz") then
      match gzip_NewReader P data with
      | None => (fs, tcGroups, Err ErrInvalidTarGz)
      | Some tr =>
          match readTestcaseFromTarGz P tr tcGroups fs with
          | (fs', tcGroups', Err err) => (fs', tcGroups', Err err)
          | (fs', tcGroups', Ok updatedGroups) =>
              (fs', tcGroups',
               Ok {| ObjectKey := filename; SHA256 := actual;
                     TestcaseGroups := updatedGroups; Version := 0 |})
          end
      end
    else (fs, tcGroups, Err ErrUnsupportedFormat).

(** ** Persistence and version reconciliation *)

Record Problem := {
  p_ID : Z;
  p_Title : gostring;
  p_Description : gostring;
  p_Difficulty : Z;
  p_TimeLimit : Z;
  p_MemoryLimit : Z;
  p_TestcaseBundle : TestcaseBundle;
  p_Tags : list gostring
}.

(** The errors of the persistence layer: [store.ErrNotFound], or any other
    error (of the driver, of the context, ...). *)
Inductive repo_error := ErrNotFound | ErrOther (code : Z).

(** [errors.Is(err, store.ErrNotFound)] *)
Definition is_ErrNotFound (err : repo_error) : bool :=
  match err with ErrNotFound => true | ErrOther _ => false end.

(** The [ProblemRepository] interface of the services, as far as the
    services modelled here call it.  [R] is the state of the repository;
    the two reads leave it as it is. *)
Class ProblemRepository (R : Type) := {
  Get : R -> Z -> repo_error + Problem;
  Create : R -> Problem -> R * (repo_error + Problem);
  GetLatestTestcaseBundle : R -> Z -> repo_error + TestcaseBundle;
  AddTestcaseBundleVersion : R -> Z -> TestcaseBundle -> R * option repo_error
}.

Definition with_Version (bundle : TestcaseBundle) (v : Z) : TestcaseBundle :=
  {| ObjectKey := ObjectKey bundle; SHA256 := SHA256 bundle;
     TestcaseGroups := TestcaseGroups bundle; Version := v |}.

Definition with_TestcaseBundle (p : Problem) (b : TestcaseBundle) : Problem :=
  {| p_ID := p_ID p; p_Title := p_Title p; p_Description := p_Description p;
     p_Difficulty := p_Difficulty p; p_TimeLimit := p_TimeLimit p;
     p_MemoryLimit := p_MemoryLimit p; p_TestcaseBundle := b; p_Tags := p_Tags p |}.

Definition with_ID (p : Problem) (id : Z) : Problem :=
  {| p_ID := id; p_Title := p_Title p; p_Description := p_Description p;
     p_Difficulty := p_Difficulty p; p_TimeLimit := p_TimeLimit p;
     p_MemoryLimit := p_MemoryLimit p; p_TestcaseBundle := p_TestcaseBundle p;
     p_Tags := p_Tags p |}.

Section ProblemService.
Context {R : Type} `{ProblemRepository R}.

(** [ProblemService.Create] *)
Definition ProblemService_Create (repo : R) (problem : Problem)
  : R * (repo_error + Problem) :=
  let problem :=
    if Version (p_TestcaseBundle problem) =? 0
    then with_TestcaseBundle problem (with_Version (p_TestcaseBundle problem) 1)
    else problem in
  Create repo problem.

(** The part of [UpdateTestcaseBundle] after [current] is known;
    [err_nil] tells whether [GetLatestTestcaseBundle] returned no error. *)
Definition reconcile_version (repo : R) (problemID : Z) (bundle : TestcaseBundle)
    (current : TestcaseBundle) (err_nil : bool) : R * option repo_error :=
  if err_nil && negb (gostring_eqb (SHA256 current) [])
     && gostring_eqb (SHA256 current) (SHA256 bundle)
  then (repo, None)
  else
    let bundle :=
      if Version current =? 0 then with_Version bundle 1
      else with_Version bundle (wrap_int (Version current + 1)) in
    AddTestcaseBundleVersion repo problemID bundle.

(** [ProblemService.UpdateTestcaseBundle]; [None] is the [nil] error. *)
Definition UpdateTestcaseBundle (repo : R) (problemID : Z) (bundle : TestcaseBundle)
  : R * option repo_error :=
  match GetLatestTestcaseBundle repo problemID with
  | inl err =>
      if negb (is_ErrNotFound err) then (repo, Some err)
      else
        match Get repo problemID with
        | inl fetchErr => (repo, Some fetchErr)
        | inr problem =>
            reconcile_version repo problemID bundle (p_TestcaseBundle problem) false
        end
  | inr current => reconcile_version repo problemID bundle current true
  end.

End ProblemService.

(** ** The relational store ([internal/store]) *)

(** A row of the table [testcase_bundles]. *)
Record BundleRow := {
  row_problem_id : Z;
  row_object_key : gostring;
  row_sha256 : gostring;
  row_version : Z
}.

(** The database: the table [problems] by id (the bundle of a problem here
    is its column [testcase_bundle]), the table [testcase_bundles], and the
    next value of the sequence of [problems.id].

    Of the schema the model keeps the primary key of [problems], the unique
    index [testcase_bundles_problem_id_idx] on [testcase_bundles(problem_id)]
    and the foreign key of [testcase_bundles.problem_id] with its
    [ON DELETE CASCADE]: a statement fails when it violates one of them.
    The connection is not lost, and the integer columns are taken wide
    enough for every value written. *)
Record DB := {
  problems : gmap Z Problem;
  testcase_bundles : list BundleRow;
  next_id : Z
}.

(** The errors of the driver for a violated unique index or primary key
    and for a violated foreign key (their SQLSTATE codes). *)
Definition unique_violation : repo_error := ErrOther 23505.
Definition foreign_key_violation : repo_error := ErrOther 23503.

Module store.

(** [ORDER BY version DESC LIMIT 1] over the rows kept so far: the row of
    the greatest version. *)
Fixpoint latest_row (rows : list BundleRow) (best : option BundleRow)
  : option BundleRow :=
  match rows with
  | [] => best
  | row :: rows' =>
      match best with
      | Some b =>
          if row_version b <? row_version row
          then latest_row rows' (Some row) else latest_row rows' best
      | None => latest_row rows' (Some row)
      end
  end.

(** The rows of [testcase_bundles] of a problem. *)
Definition rows_of (db : DB) (problemID : Z) : list BundleRow :=
  filter (fun row => row_problem_id row = problemID) (testcase_bundles db).

(** What [Scan] and the lines after it make of a row of [problems] joined
    with [LEFT JOIN LATERAL] to its row of [testcase_bundles] of the
    greatest version: the bundle is the one of that row (without groups)
    when there is one, and the bundle of the column [testcase_bundle]
    otherwise. *)
Definition scan (db : DB) (row : Z * Problem) : Problem :=
  let problem := with_ID row.2 row.1 in
  match latest_row (rows_of db row.1) None with
  | Some r =>
      with_TestcaseBundle problem
        {| ObjectKey := row_object_key r; SHA256 := row_sha256 r;
           TestcaseGroups := []; Version := row_version r |}
  | None => problem
  end.

(** [ProblemRepository.Get] *)
Definition Get (db : DB) (id : Z) : repo_error + Problem :=
  match problems db !! id with
  | Some problem => inr (scan db (id, problem))
  | None => inl ErrNotFound
  end.

(** [ProblemRepository.Create]: in one transaction, the [INSERT] into
    [problems], which leaves the column [testcase_bundle] at its default
    (the empty bundle) and returns the next value of the sequence as id,
    and the [INSERT] of the bundle into [testcase_bundles].  When one of
    them fails the transaction is rolled back; the sequence has advanced
    all the same.  The problem returned is the one supplied, with its id. *)
Definition Create (db : DB) (problem : Problem) : DB * (repo_error + Problem) :=
  let id := next_id db in
  let rolled_back :=
    {| problems := problems db; testcase_bundles := testcase_bundles db;
       next_id := id + 1 |} in
  match problems db !! id with
  | Some _ => (rolled_back, inl unique_violation)
  | None =>
      match rows_of db id with
      | _ :: _ => (rolled_back, inl unique_violation)
      | [] =>
          let bundle := p_TestcaseBundle problem in
          ({| problems :=
                <[id := with_TestcaseBundle (with_ID problem id) empty_bundle]>
                  (problems db);
              testcase_bundles :=
                testcase_bundles db ++
                  [{| row_problem_id := id; row_object_key := ObjectKey bundle;
                      row_sha256 := SHA256 bundle; row_version := Version bundle |}];
              next_id := id + 1 |},
           inr (with_ID problem id))
      end
  end.

(** [ProblemRepository.GetLatestTestcaseBundle] *)
Definition GetLatestTestcaseBundle (db : DB) (problemID : Z)
  : repo_error + TestcaseBundle :=
  match latest_row (rows_of db problemID) None with
  | Some row =>
      inr {| ObjectKey := row_object_key row; SHA256 := row_sha256 row;
             TestcaseGroups := []; Version := row_version row |}
  | None => inl ErrNotFound
  end.

(** [ProblemRepository.AddTestcaseBundleVersion]: in one transaction, the
    [INSERT] into [testcase_bundles], which fails when the problem has a
    row already (the unique index) or does not exist (the foreign key),
    and the [UPDATE] of the column [testcase_bundle] of the problem; when
    the [UPDATE] affects no row the error is [ErrNotFound].  On an error
    the transaction is rolled back. *)
Definition AddTestcaseBundleVersion (db : DB) (problemID : Z)
    (bundle : TestcaseBundle) : DB * option repo_error :=
  match rows_of db problemID with
  | _ :: _ => (db, Some unique_violation)
  | [] =>
      match problems db !! problemID with
      | None => (db, Some foreign_key_violation)
      | Some problem =>
          let inserted :=
            testcase_bundles db ++
              [{| row_problem_id := problemID; row_object_key := ObjectKey bundle;
                  row_sha256 := SHA256 bundle; row_version := Version bundle |}] in
          match problems db !! problemID with
          | None => (db, Some ErrNotFound)
          | Some _ =>
              ({| problems :=
                    <[problemID := with_TestcaseBundle problem bundle]> (problems db);
                  testcase_bundles := inserted;
                  next_id := next_id db |},
               None)
          end
      end
  end.

End store.

#[export] Instance store_ProblemRepository : ProblemRepository DB := {|
  Get := store.Get;
  Create := store.Create;
  GetLatestTestcaseBundle := store.GetLatestTestcaseBundle;
  AddTestcaseBundleVersion := store.AddTestcaseBundleVersion
|}.

(** ** A platform to run the model on

    For file names and environment values of ASCII bytes only, on which
    [strings.ToLower] and [strings.TrimSpace] act as below. *)

Definition ascii_ToLower (s : gostring) : gostring :=
  map (fun c =>
         let n := nat_of_ascii c in
         if ((65 <=? n) && (n <=? 90))%nat then ascii_of_nat (n + 32) else c) s.

Definition is_space (c : ascii) : bool :=
  let n := nat_of_ascii c in
  ((9 <=? n) && (n <=? 13) || (n =? 32))%nat.

Fixpoint trim_left (s : gostring) : gostring :=
  match s with
  | c :: s' => if is_space c then trim_left s' else s
  | [] => []
  end.

Definition ascii_TrimSpace (s : gostring) : gostring :=
  rev (trim_left (rev (trim_left s))).

(** The platform with the gzip reader [open] and the extraction faults
    [fault]: the environment variable is unset, [os.MkdirTemp] settles on
    the first name, and [range] visits a map by increasing key. *)
Definition platform_of (open : list byte -> option TarReader)
    (fault : Z -> gostring -> option IOFault) : Platform :=
  {| strings_ToLower := ascii_ToLower;
     strings_TrimSpace := ascii_TrimSpace;
     gzip_NewReader := open;
     os_Getenv := fun _ => [];
     MkdirTemp_pick := fun _ dir pattern => Some (dir ++ str "/" ++ pattern ++ str "1");
     io_fault := fault;
     map_range := fun l => l;
     map_range_perm := fun l => reflexivity l |}.

(** The same, with a [range] that visits a map in the opposite order. *)
Definition platform_rev (open : list byte -> option TarReader)
    (fault : Z -> gostring -> option IOFault) : Platform :=
  {| strings_ToLower := ascii_ToLower;
     strings_TrimSpace := ascii_TrimSpace;
     gzip_NewReader := open;
     os_Getenv := fun _ => [];
     MkdirTemp_pick := fun _ dir pattern => Some (dir ++ str "/" ++ pattern ++ str "1");
     io_fault := fault;
     map_range := @rev _;
     map_range_perm := fun l => symmetry (Permutation_rev l) |}.

Definition no_fault : Z -> gostring -> option IOFault := fun _ _ => None.

(** A regular file, a directory and a symbolic link of an archive. *)
Definition file (name : string) : TarEntry :=
  {| Name := str name; Typeflag := TypeReg; Body := bytes_of "1 2" |}.
Definition directory (name : string) : TarEntry :=
  {| Name := str name; Typeflag := TypeDir; Body := [] |}.
Definition symlink (name : string) : TarEntry :=
  {| Name := str name; Typeflag := TypeOther; Body := [] |}.

Definition archive (entries : list TarEntry) : TarReader :=
  {| tr_entries := entries; tr_end := TarEOF |}.

(** A declared group, without and with testcases. *)
Definition group (order : Z) (name : string) : TestcaseGroup :=
  {| tg_ID := 0; tg_OrderID := order; tg_ProblemID := 0; tg_Name := str name;
     Testcases := []; tg_Points := 10 |}.
Definition group_with (order : Z) (name : string) (orders : list Z) : TestcaseGroup :=
  {| tg_ID := 0; tg_OrderID := order; tg_ProblemID := 0; tg_Name := str name;
     Testcases := map Testcase_with_OrderID orders; tg_Points := 10 |}.

(** The check of [gzip.NewReader] on the first bytes of the buffer: the two
    magic bytes [1f 8b] and the compression method [08]. *)
Definition gzip_magic (data : list byte) : bool :=
  match data with
  | x1f :: x8b :: x08 :: _ => true
  | _ => false
  end.

(** A gzip reader that refuses a buffer without the gzip magic, and reads
    the archive [tr] from any other. *)
Definition gzip_by_magic (tr : TarReader) (data : list byte) : option TarReader :=
  if gzip_magic data then Some tr else None.

(** A buffer that starts with the signature of a zip file ([PK\003\004]),
    and one that starts with the gzip magic. *)
Definition zip_bytes : list byte := [x50; x4b; x03; x04; x14; x00; x00; x00].
Definition gzip_bytes : list byte := [x1f; x8b; x08; x00; x00; x00; x00; x00].

(** The database before any problem is created. *)
Definition empty_db : DB := {| problems := ∅; testcase_bundles := []; next_id := 1 |}.

(** A database whose only problem is [problem], stored under [id] with its
    bundle in the column [testcase_bundle] and no row in
    [testcase_bundles]. *)
Definition db_with (id : Z) (problem : Problem) : DB :=
  {| problems := {[id := problem]}; testcase_bundles := []; next_id := id + 1 |}.

(** A bundle as the ingestion returns it, of digest [sha]. *)
Definition bundle_of (sha : string) : TestcaseBundle :=
  {| ObjectKey := str "testcases.tar.gz"; SHA256 := str sha;
     TestcaseGroups := [group 0 "samples"]; Version := 0 |}.

(** A problem as [CreateProblem] hands it to the service. *)
Definition problem_of (bundle : TestcaseBundle) : Problem :=
  {| p_ID := 0; p_Title := str "A+B"; p_Description := str "Add two numbers.";
     p_Difficulty := 800; p_TimeLimit := 1000; p_MemoryLimit := 268435456;
     p_TestcaseBundle := bundle; p_Tags := [] |}.

(** ** What a regular expression matches *)

Inductive matches : regexp.Regexp -> gostring -> Prop :=
| matches_EmptyMatch : matches regexp.EmptyMatch []
| matches_Lit c : matches (regexp.Lit c) [c]
| matches_Digit c : strconv.is_digit c = true -> matches regexp.Digit [c]
| matches_Cat r1 r2 s1 s2 :
    matches r1 s1 -> matches r2 s2 -> matches (regexp.Cat r1 r2) (s1 ++ s2)
| matches_Alt_l r1 r2 s : matches r1 s -> matches (regexp.Alt r1 r2) s
| matches_Alt_r r1 r2 s : matches r2 s -> matches (regexp.Alt r1 r2) s
| matches_Star_nil r : matches (regexp.Star r) []
| matches_Star_cons r s1 s2 :
    matches r s1 -> matches (regexp.Star r) s2 -> matches (regexp.Star r) (s1 ++ s2).

(** ** The filename grammar, as the specification words it *)

Definition all_digits (s : gostring) : Prop :=
  Forall (fun c => strconv.is_digit c = true) s.

(** The number a sequence of decimal digits denotes. *)
Definition decimal_value (s : gostring) : Z :=
  fold_left (fun acc c => acc * 10 + strconv.digit_val c) s 0.

(** [base] is [<group>_<testcase>.<ext>]: two non-empty sequences of decimal
    digits and the extension [in] or [out]. *)
Definition in_grammar (base group testcase ext : gostring) : Prop :=
  base = group ++ str "_" ++ testcase ++ str "." ++ ext
  /\ group <> [] /\ testcase <> []
  /\ all_digits group /\ all_digits testcase
  /\ (ext = str "in" \/ ext = str "out").

(** ** The state of the reconciler, as the specification words it *)

(** Both files of the testcase have been seen. *)
Definition complete (p : iopair) : bool := has_in p && has_out p.

(** Every referenced order of the group has both its files. *)
Definition all_complete (orders : Orders) : Prop :=
  forall t p, orders !! t = Some p -> complete p = true.

(** The referenced orders of the group are exactly [0 .. n-1], [n] their
    number. *)
Definition contiguous (orders : Orders) : Prop :=
  forall t, is_Some (orders !! t) <-> 0 <= t < Z.of_nat (size orders).

(** The pair of testcase [t] of group [g], never seen when absent. *)
Definition pair_at (groupOrders : list Orders) (g : nat) (t : Z) : iopair :=
  match groupOrders !! g with
  | Some orders => default empty_pair (orders !! t)
  | None => empty_pair
  end.

(** The flag of the pair [p] that a file of extension [ext] sets. *)
Definition flag (ext : gostring) (p : iopair) : bool :=
  if gostring_eqb ext (str "in") then has_in p
  else if gostring_eqb ext (str "out") then has_out p
  else false.

(** The (group order, testcase order, kind) that a regular file of the
    archive resolves to, when its name passes the validator and parser. *)
Definition resolves (header : TarEntry) : option (Z * Z * gostring) :=
  match Typeflag header with
  | TypeReg =>
      match validateBundleFilename (Name header) with
      | Some _ => None
      | None =>
          match parseTestcaseFilename (path.Base (path.Clean (Name header))) with
          | Ok triple => Some triple
          | Err _ => None
          end
      end
  | _ => None
  end.

(** The testcases of orders [0 .. n-1]. *)
Definition testcases_upto (n : Z) : list Testcase :=
  map Testcase_with_OrderID (seqZ 0 n).

(** The referenced orders of a group, sorted. *)
Definition sorted_orders (orders : Orders) : list Z :=
  sort.Ints (map fst (map_to_list orders)).

(** A group passes the final validation: each referenced order has both
    files and the referenced orders are [0 .. n-1].  A group no testcase
    refers to passes. *)
Definition group_ok (orders : Orders) : Prop :=
  all_complete orders /\ contiguous orders.

(** The caller's groups after a successful final validation: group [i] has
    received the testcases [0 .. n-1] of its [n] referenced orders. *)
Definition populated (tcGroups : list TestcaseGroup) (groupOrders : list Orders)
  : list TestcaseGroup :=
  zip_with (fun g orders => append_Testcases g (testcases_upto (Z.of_nat (size orders))))
           tcGroups groupOrders.

(** The pair [p] once a file of extension [ext] has been seen. *)
Definition set_flag (ext : gostring) (p : iopair) : iopair :=
  if gostring_eqb ext (str "in") then {| has_in := true; has_out := has_out p |}
  else {| has_in := has_in p; has_out := true |}.

(** The triples a decode pass can accept under the declared groups:
    a declared group, a non-negative order, the kind [in] or [out]. *)
Definition valid_triple (tcGroups : list TestcaseGroup) (x : Z * Z * gostring) : Prop :=
  0 <= x.1.1 < Z.of_nat (length tcGroups) /\ 0 <= x.1.2
  /\ (x.2 = str "in" \/ x.2 = str "out").

(** Every pair kept in [groupOrders] has one of its flags set. *)
Definition stored_nonempty (groupOrders : list Orders) : Prop :=
  forall g orders t p,
    groupOrders !! g = Some orders -> orders !! t = Some p ->
    has_in p || has_out p = true.

(** The duplicate error of the kind [ext]. *)
Definition ErrDuplicate (ext : gostring) (g t : Z) : error :=
  if gostring_eqb ext (str "in") then ErrDuplicateInput g t else ErrDuplicateOutput g t.

(** The state of the decode pass before the first entry. *)
Definition no_orders (tcGroups : list TestcaseGroup) : list Orders :=
  map (fun _ => (∅ : Orders)) tcGroups.

(** The archive has a file of kind [ext] for testcase [t] of group [i]. *)
Definition has_file (entries : list TarEntry) (i : nat) (t : Z) (ext : gostring) : Prop :=
  (Z.of_nat i, t, ext) ∈ omap resolves entries.

(** Some file of the archive refers to testcase [t] of group [i]. *)
Definition referenced (entries : list TarEntry) (i : nat) (t : Z) : Prop :=
  has_file entries i t (str "in") \/ has_file entries i t (str "out").

(** The errors raised before any decoding. *)
Definition early_error (e : error) : bool :=
  match e with
  | ErrEmptyBundleData | ErrZipNotSupported | ErrUnsupportedFormat => true
  | _ => false
  end.

(** The format the ingestion detects, which it reads off the file name:
    the name is trimmed and lower-cased, and its suffix decides. *)
Inductive Format := FormatZip | FormatTarGz | FormatOther.

Definition detected_format (P : Platform) (filename : gostring) : Format :=
  let lower := strings_ToLower P (strings_TrimSpace P filename) in
  if strings.HasSuffix lower (str ".zip") then FormatZip
  else if strings.HasSuffix lower (str ".tar.gz") then FormatTarGz
  else if strings.HasSuffix lower (str ".tgz") then FormatTarGz
  else FormatOther.

(** A lower-case hexadecimal digit. *)
Definition lower_hex (c : ascii) : Prop := c ∈ str "0123456789abcdef".

(** The state a decode pass ends in, when it goes through. *)
Definition decoded (r : FS * Result (list Orders * Z)) : list Orders * Z :=
  match r.2 with
  | Ok state => state
  | Err _ => ([], 0)
  end.

(** The bundle an ingestion returns, when it succeeds. *)
Definition ingested (r : FS * list TestcaseGroup * Result TestcaseBundle) : TestcaseBundle :=
  match r.2 with
  | Ok bundle => bundle
  | Err _ => empty_bundle
  end.

(** The two conditions of the final validation, as checks. *)
Definition all_completeb (orders : Orders) : bool :=
  forallb (fun x => complete x.2) (map_to_list orders).
Definition contiguousb (orders : Orders) : bool :=
  consecutive_from 0 (sorted_orders orders).
Definition group_okb (orders : Orders) : bool :=
  all_completeb orders && contiguousb orders.

(** ** Valid archives, as the specification words them *)

(** The name [<group>_<testcase>.<kind>] of a file, its numbers in decimal
    without leading zeros. *)
Definition testcase_filename (x : Z * Z * gostring) : gostring :=
  strconv.Itoa x.1.1 ++ str "_" ++ strconv.Itoa x.1.2 ++ str "." ++ x.2.

(** The groups by index, each with its number of testcases. *)
Definition indexed (ks : list Z) : list (nat * Z) := imap (fun i k => (i, k)) ks.

(** The files of group [i] with testcases [0 .. k-1]: an input and an
    output for each. *)
Definition group_triples (ik : nat * Z) : list (Z * Z * gostring) :=
  seqZ 0 ik.2 ≫= (fun t => [(Z.of_nat ik.1, t, str "in"); (Z.of_nat ik.1, t, str "out")]).

(** The files of a bundle whose group [i] has [ks !! i] testcases. *)
Definition bundle_triples (ks : list Z) : list (Z * Z * gostring) :=
  indexed ks ≫= group_triples.

Definition bundle_files (ks : list Z) : list gostring :=
  testcase_filename <$> bundle_triples ks.

Definition is_regular (e : TarEntry) : bool :=
  match Typeflag e with TypeReg => true | _ => false end.

(** The names of the regular files of an archive. *)
Definition regular_names (entries : list TarEntry) : list gostring :=
  Name <$> List.filter is_regular entries.

(** A valid archive for the testcase counts [ks]: it ends well, its entries
    are directories and regular files, and its regular files are, in any
    order, exactly the files of the bundle. *)
Definition valid_archive (tr : TarReader) (ks : list Z) : Prop :=
  tr_end tr = TarEOF
  /\ Forall (fun e => Typeflag e <> TypeOther) (tr_entries tr)
  /\ regular_names (tr_entries tr) ≡ₚ bundle_files ks.

(** The triple that a regular file of name [name] resolves to. *)
Definition resolves_name (name : gostring) : option (Z * Z * gostring) :=
  resolves {| Name := name; Typeflag := TypeReg; Body := [] |}.

(** The groups with the testcases [0 .. k-1] appended, [k] the count of the
    group. *)
Definition with_testcases (tcGroups : list TestcaseGroup) (ks : list Z)
  : list TestcaseGroup :=
  zip_with (fun g k => append_Testcases g (testcases_upto k)) tcGroups ks.

(** * The rest of the service, the listing of the store, and the handlers *)

(** ** The rest of the repository interface *)

(** The methods of the [ProblemRepository] interface that
    [ProblemRepository] above leaves out: [List], which returns the page
    and the total number of problems, and the two methods that change a
    problem. *)
Class ProblemCatalog (R : Type) := {
  List : R -> Z -> Z -> repo_error + (list Problem * Z)
}.

Class ProblemEditor (R : Type) := {
  Update : R -> Problem -> R * (repo_error + Problem);
  Delete : R -> Z -> R * option repo_error
}.

Section ProblemService_rest.
Context {R : Type} `{ProblemRepository R} `{ProblemCatalog R} `{ProblemEditor R}.

(** [ProblemService.List] *)
Definition ProblemService_List (repo : R) (offset limit : Z)
  : repo_error + (list Problem * Z) :=
  let limit := if limit <=? 0 then 10 else limit in
  let limit := if 100 <? limit then 100 else limit in
  List repo offset limit.

(** [ProblemService.Get], [ProblemService.Update], [ProblemService.Delete] *)
Definition ProblemService_Get (repo : R) (id : Z) : repo_error + Problem :=
  Get repo id.

Definition ProblemService_Update (repo : R) (problem : Problem)
  : R * (repo_error + Problem) :=
  Update repo problem.

Definition ProblemService_Delete (repo : R) (id : Z) : R * option repo_error :=
  Delete repo id.

End ProblemService_rest.

(** ** The store: listing, update and removal *)

(** A call returns, or it panics. *)
Inductive Outcome (A : Type) :=
| Returned (a : A)
| Panicked.
Arguments Returned {A} a.
Arguments Panicked {A}.

(** What a call of [List] meets besides the tables: the error, if any, of
    the driver at each of the four places where the method checks one (the
    count, the query, [rows.Scan] of the row number [n], and [rows.Err]
    when [rows.Next] stops before the row number [n]), and the greatest
    capacity with which [make] returns a slice of problems; beyond it
    [make] panics or the runtime gives up. *)
Record Session := {
  count_error : option repo_error;
  query_error : option repo_error;
  scan_error : nat -> option repo_error;
  rows_error : nat -> option repo_error;
  make_max : Z
}.

Module pgstore.

(** [ORDER BY p.id]: the rows of [problems] by increasing id. *)
Definition by_id (x y : Z * Problem) : Prop := x.1 <= y.1.

#[export] Instance by_id_dec (x y : Z * Problem) : Decision (by_id x y) :=
  Z_le_dec x.1 y.1.

Definition ordered (db : DB) : list (Z * Problem) :=
  merge_sort by_id (map_to_list (problems db)).

(** [ProblemRepository.List]: [SELECT COUNT(1)], then the page
    [OFFSET $1 LIMIT $2] of the problems by id, read row by row into a
    slice made with the capacity [limit].  The rows left to read, their
    number so far, and the slice so far: *)
Fixpoint scan_rows (s : Session) (db : DB) (rows : list (Z * Problem)) (n : nat)
    (problems : list Problem) : repo_error + list Problem :=
  match rows_error s n with
  | Some err => inl err
  | None =>
      match rows with
      | [] => inr problems
      | row :: rest =>
          match scan_error s n with
          | Some err => inl err
          | None => scan_rows s db rest (S n) (problems ++ [store.scan db row])
          end
      end
  end.

Definition List (s : Session) (db : DB) (offset limit : Z)
  : Outcome (repo_error + (list Problem * Z)) :=
  let offset := if offset <? 0 then 0 else offset in
  let limit := if limit <? 1 then 20 else limit in
  match count_error s with
  | Some err => Returned (inl err)
  | None =>
      let total := Z.of_nat (size (problems db)) in
      match query_error s with
      | Some err => Returned (inl err)
      | None =>
          let rows := take (Z.to_nat limit) (drop (Z.to_nat offset) (ordered db)) in
          if make_max s <? limit then Panicked
          else
            match scan_rows s db rows 0 [] with
            | inl err => Returned (inl err)
            | inr problems => Returned (inr (problems, total))
            end
      end
  end.

(** [ProblemRepository.Update]: the [UPDATE] sets every column but the id,
    the bundle and the creation time; no row affected is [ErrNotFound]. *)
Definition Update (db : DB) (problem : Problem) : DB * (repo_error + Problem) :=
  match problems db !! p_ID problem with
  | None => (db, inl ErrNotFound)
  | Some old =>
      ({| problems :=
            <[p_ID problem := with_TestcaseBundle problem (p_TestcaseBundle old)]>
              (problems db);
          testcase_bundles := testcase_bundles db;
          next_id := next_id db |},
       inr problem)
  end.

(** [ProblemRepository.Delete]: the [DELETE] of the problem, which by
    [ON DELETE CASCADE] takes its rows of [testcase_bundles] with it; no
    row affected is [ErrNotFound]. *)
Definition Delete (db : DB) (id : Z) : DB * option repo_error :=
  match problems db !! id with
  | None => (db, Some ErrNotFound)
  | Some _ =>
      ({| problems := delete id (problems db);
          testcase_bundles :=
            filter (fun r => row_problem_id r <> id) (testcase_bundles db);
          next_id := next_id db |},
       None)
  end.

End pgstore.

#[export] Instance store_ProblemEditor : ProblemEditor DB := {|
  Update := pgstore.Update;
  Delete := pgstore.Delete
|}.

(** ** package io *)

(** How a stream ends: with [io.EOF], with an error returned by the [Read]
    after the last bytes, or with an error returned together with the last
    bytes. *)
Inductive ReadEnd := EOF | ErrAfterData | ErrWithData.

(** An [io.Reader]: the bytes it delivers, and how it ends. *)
Record Reader := {
  r_bytes : list byte;
  r_end : ReadEnd
}.

Module io.

(** [io.LimitReader(r, n)]: stops with [io.EOF] after [n] bytes, without
    reading further. *)
Definition LimitReader (r : Reader) (n : Z) : Reader :=
  if n <=? 0 then {| r_bytes := []; r_end := EOF |}
  else if Z.of_nat (length (r_bytes r)) <? n then r
  else if Z.of_nat (length (r_bytes r)) =? n then
    {| r_bytes := r_bytes r;
       r_end := match r_end r with ErrWithData => ErrWithData | _ => EOF end |}
  else {| r_bytes := take (Z.to_nat n) (r_bytes r); r_end := EOF |}.

(** [io.ReadAll(r)]: the bytes read, and whether an error other than
    [io.EOF] ended the reading. *)
Definition ReadAll (r : Reader) : list byte * bool :=
  (r_bytes r, match r_end r with EOF => false | _ => true end).

End io.

(** ** The handlers' constants *)

Module http.
Definition StatusOK : Z := 200.
Definition StatusCreated : Z := 201.
Definition StatusNoContent : Z := 204.
Definition StatusBadRequest : Z := 400.
Definition StatusNotFound : Z := 404.
Definition StatusInternalServerError : Z := 500.
End http.

Definition defaultPage : Z := 1.
Definition defaultLimit : Z := 20.
Definition maxLimit : Z := 100.
Definition maxBundleBytes : Z := Z.shiftl 256 20.
Definition formFieldBundle : gostring := str "bundle".
Definition formFieldGroups : gostring := str "testcase_groups".
Definition formFieldTitle : gostring := str "title".
Definition formFieldDesc : gostring := str "description".
Definition formFieldDifficulty : gostring := str "difficulty".
Definition formFieldTimeLimit : gostring := str "time_limit".
Definition formFieldMemLimit : gostring := str "memory_limit".
Definition formFieldTags : gostring := str "tags".

(** ** Requests and responses *)

(** A [multipart.FileHeader]: the name of the uploaded file and what
    [Open] returns, the file or the message of the error. *)
Record FileHeader := {
  fh_Filename : gostring;
  fh_Open : gostring + Reader
}.

(** A [multipart.Form], as far as the handlers read it: [form.File[name]]. *)
Record Form := {
  File : gostring -> list FileHeader
}.

(** What the handlers use of an [http.Request]: [chi.URLParam(r, name)],
    [r.URL.Query().Get(name)], [r.ParseMultipartForm(maxMultipartMemory)],
    [r.FormValue(name)] and [r.MultipartForm] ([None] is [nil]).

    [ParseMultipartForm] keeps [maxMultipartMemory] bytes of the uploads in
    memory and writes the rest to temporary files, which it does not
    remove: the field gives the filesystem it leaves, and whether it
    returned no error. *)
Record Request := {
  URLParam : gostring -> gostring;
  Query_Get : gostring -> gostring;
  ParseMultipartForm : FS -> FS * bool;
  FormValue : gostring -> gostring;
  MultipartForm : option Form
}.

(** [BundleFile]; a [Data] of [None] is the [nil] slice. *)
Record BundleFile := {
  bf_Filename : gostring;
  bf_Data : option (list byte)
}.

Record ProblemUpsertRequest := {
  req_Title : gostring;
  req_Description : gostring;
  req_Difficulty : Z;
  req_TimeLimit : Z;
  req_MemoryLimit : Z;
  req_Tags : list gostring;
  req_TestcaseGroups : list TestcaseGroup;
  req_Bundle : BundleFile
}.

(** What a handler writes: the error payload with a message of the
    handlers ([ErrorResponse]) or with the message of an error of the
    ingestion ([ErrorOf err], for [err.Error()]), a problem, a page of
    problems, or nothing. *)
Inductive Payload :=
| ErrorResponse (message : gostring)
| ErrorOf (err : error)
| ProblemJSON (problem : Problem)
| ProblemListResponse (Items : list Problem) (Page Limit Total : Z)
| NoBody.

Record Response := {
  resp_Status : Z;
  resp_Body : Payload
}.

Definition writeJSON (status : Z) (value : Payload) : Response :=
  {| resp_Status := status; resp_Body := value |}.

Definition writeError (status : Z) (message : gostring) : Response :=
  writeJSON status (ErrorResponse message).

(** ** Reading an upload *)

(** [readFileLimited(reader, limit)]; [limit + 1] is an [int64] sum. *)
Definition readFileLimited (reader : Reader) (limit : Z) : gostring + list byte :=
  let limited := io.LimitReader reader (wrap_int (limit + 1)) in
  let '(data, err) := io.ReadAll limited in
  if err : bool then inl (str "failed to read upload")
  else if limit <? Z.of_nat (length data) then inl (str "uploaded file too large")
  else inr data.

(** [parseBundleFile(form)]; [io.ReadAll] returns a slice that is not
    [nil], also for an empty file. *)
Definition parseBundleFile (form : option Form) : gostring + BundleFile :=
  match form with
  | None => inl (str "missing form data")
  | Some form =>
      match File form formFieldBundle with
      | [] => inl (str "bundle file is required")
      | [fileHeader] =>
          match fh_Open fileHeader with
          | inl message => inl (str "failed to read bundle file: " ++ message)
          | inr file =>
              match readFileLimited file maxBundleBytes with
              | inl message => inl message
              | inr data =>
                  inr {| bf_Filename := fh_Filename fileHeader;
                         bf_Data := Some data |}
              end
          end
      | _ :: _ :: _ => inl (str "only one bundle file is allowed")
      end
  end.

Section Handlers.
Variable P : Platform.

(** [json.Unmarshal([]byte(rawGroups), &tcGroups)]: the groups decoded, or
    [None] for an error. *)
Variable json_Unmarshal : gostring -> option (list TestcaseGroup).

(** ** Parsing a request *)

(** A page or limit parameter: [strconv.Atoi(raw)], refused when the
    number is below one. *)
Definition positive_int (raw : gostring) : option Z :=
  match strconv.Atoi raw with
  | Some n => if n <? 1 then None else Some n
  | None => None
  end.

(** [parsePagination(r)]: the page, the limit and the offset. *)
Definition parsePagination (r : Request) : gostring + (Z * Z * Z) :=
  let raw := strings_TrimSpace P (Query_Get r (str "page")) in
  match (if gostring_eqb raw [] then Some defaultPage else positive_int raw) with
  | None => inl (str "invalid page")
  | Some page =>
      let rawLimit := strings_TrimSpace P (Query_Get r (str "limit")) in
      let rawLimit :=
        if gostring_eqb rawLimit []
        then strings_TrimSpace P (Query_Get r (str "per_page")) else rawLimit in
      match (if gostring_eqb rawLimit [] then Some defaultLimit
             else positive_int rawLimit) with
      | None => inl (str "invalid limit")
      | Some limit =>
          let limit := if maxLimit <? limit then maxLimit else limit in
          inr (page, limit, wrap_int ((page - 1) * limit))
      end
  end.

(** [parseProblemID(r)] *)
Definition parseProblemID (r : Request) : gostring + Z :=
  match positive_int (URLParam r (str "problemID")) with
  | Some id => inr id
  | None => inl (str "invalid problem id")
  end.

(** [parseOptionalInt(value)]; [None] is an error. *)
Definition parseOptionalInt (value : gostring) : option Z :=
  let value := strings_TrimSpace P value in
  if gostring_eqb value [] then Some 0 else strconv.Atoi value.

(** [parseOptionalInt64(value)]: [strconv.ParseInt(value, 10, 64)] reads
    what [strconv.Atoi] reads where an [int] has 64 bits. *)
Definition parseOptionalInt64 (value : gostring) : option Z :=
  let value := strings_TrimSpace P value in
  if gostring_eqb value [] then Some 0 else strconv.Atoi value.

(** [parseTags(raw)]; the [nil] slice and the empty slice are both the
    empty list. *)
Definition parseTags (raw : gostring) : list gostring :=
  let raw := strings_TrimSpace P raw in
  if gostring_eqb raw [] then []
  else
    fold_left
      (fun tags part =>
         let tag := strings_TrimSpace P part in
         if gostring_eqb tag [] then tags else tags ++ [tag])
      (strings.Split raw ","%char) [].

(** [parseProblemForm(r)]: the filesystem that [r.ParseMultipartForm]
    leaves, and the message of the error or the parsed form. *)
Definition parseProblemForm (r : Request) (fs : FS)
  : FS * (gostring + ProblemUpsertRequest) :=
  let '(fs, ok) := ParseMultipartForm r fs in
  (fs,
   if negb ok then inl (str "invalid multipart form")
   else
    let title := strings_TrimSpace P (FormValue r formFieldTitle) in
    if gostring_eqb title [] then inl (str "title is required")
    else
      let description := strings_TrimSpace P (FormValue r formFieldDesc) in
      if gostring_eqb description [] then inl (str "description is required")
      else
        match parseOptionalInt (FormValue r formFieldDifficulty) with
        | None => inl (str "invalid difficulty")
        | Some difficulty =>
        match parseOptionalInt64 (FormValue r formFieldTimeLimit) with
        | None => inl (str "invalid time limit")
        | Some timeLimit =>
        match parseOptionalInt64 (FormValue r formFieldMemLimit) with
        | None => inl (str "invalid memory limit")
        | Some memoryLimit =>
            let tags := parseTags (FormValue r formFieldTags) in
            let rawGroups := strings_TrimSpace P (FormValue r formFieldGroups) in
            match (if gostring_eqb rawGroups [] then Some []
                   else json_Unmarshal rawGroups) with
            | None => inl (str "invalid testcase groups")
            | Some tcGroups =>
                match parseBundleFile (MultipartForm r) with
                | inl message => inl message
                | inr bundle =>
                    inr {| req_Title := title; req_Description := description;
                           req_Difficulty := difficulty; req_TimeLimit := timeLimit;
                           req_MemoryLimit := memoryLimit; req_Tags := tags;
                           req_TestcaseGroups := tcGroups; req_Bundle := bundle |}
                end
            end
        end end end).

(** ** The handlers *)

Context {R : Type} `{ProblemRepository R} `{ProblemCatalog R} `{ProblemEditor R}.

(** [ProblemHandler.ListProblems] *)
Definition ListProblems (r : Request) (repo : R) : Response :=
  match parsePagination r with
  | inl message => writeError http.StatusBadRequest message
  | inr (page, limit, offset) =>
      match ProblemService_List repo offset limit with
      | inl _ =>
          writeError http.StatusInternalServerError (str "failed to list problems")
      | inr (items, total) =>
          writeJSON http.StatusOK (ProblemListResponse items page limit total)
      end
  end.

(** [ProblemHandler.GetProblem] *)
Definition GetProblem (r : Request) (repo : R) : Response :=
  match parseProblemID r with
  | inl message => writeError http.StatusBadRequest message
  | inr id =>
      match ProblemService_Get repo id with
      | inl err =>
          if is_ErrNotFound err
          then writeError http.StatusNotFound (str "problem not found")
          else writeError http.StatusInternalServerError
                 (str "failed to fetch problem")
      | inr problem => writeJSON http.StatusOK (ProblemJSON problem)
      end
  end.

(** The problem a handler builds from the parsed form. *)
Definition problem_of_request (id : Z) (req : ProblemUpsertRequest)
    (bundle : TestcaseBundle) : Problem :=
  {| p_ID := id; p_Title := req_Title req; p_Description := req_Description req;
     p_Difficulty := req_Difficulty req; p_TimeLimit := req_TimeLimit req;
     p_MemoryLimit := req_MemoryLimit req; p_TestcaseBundle := bundle;
     p_Tags := req_Tags req |}.

(** [s.GetTestcaseBundleFromArchive(req.Bundle.Filename, req.Bundle.Data,
    req.TestcaseGroups)] *)
Definition ingest_request (req : ProblemUpsertRequest) (fs : FS)
  : FS * list TestcaseGroup * Result TestcaseBundle :=
  GetTestcaseBundleFromArchive P (bf_Filename (req_Bundle req))
    (default [] (bf_Data (req_Bundle req))) (req_TestcaseGroups req) fs.

(** [ProblemHandler.CreateProblem]: the repository and the filesystem after
    the call, and the response. *)
Definition CreateProblem (r : Request) (repo : R) (fs : FS) : R * FS * Response :=
  match parseProblemForm r fs with
  | (fs, inl message) => (repo, fs, writeError http.StatusBadRequest message)
  | (fs, inr req) =>
      match ingest_request req fs with
      | (fs', _, Err err) => (repo, fs', writeJSON http.StatusBadRequest (ErrorOf err))
      | (fs', _, Ok tcBundle) =>
          match ProblemService_Create repo (problem_of_request 0 req tcBundle) with
          | (repo', inl _) =>
              (repo', fs',
               writeError http.StatusInternalServerError
                 (str "failed to create problem"))
          | (repo', inr created) =>
              (repo', fs', writeJSON http.StatusCreated (ProblemJSON created))
          end
      end
  end.

(** The first half of [UpdateProblem], "update testcase bundle if
    provided": the response, if the handler returns here. *)
Definition update_bundle (id : Z) (req : ProblemUpsertRequest) (repo : R) (fs : FS)
  : R * FS * option Response :=
  match bf_Data (req_Bundle req) with
  | None => (repo, fs, None)
  | Some _ =>
      match ingest_request req fs with
      | (fs', _, Err err) =>
          (repo, fs', Some (writeJSON http.StatusBadRequest (ErrorOf err)))
      | (fs', _, Ok tcBundle) =>
          match UpdateTestcaseBundle repo id tcBundle with
          | (repo', Some _) =>
              (repo', fs',
               Some (writeError http.StatusInternalServerError
                       (str "failed to update testcase bundle")))
          | (repo', None) => (repo', fs', None)
          end
      end
  end.

(** [ProblemHandler.UpdateProblem] *)
Definition UpdateProblem (r : Request) (repo : R) (fs : FS) : R * FS * Response :=
  match parseProblemID r with
  | inl message => (repo, fs, writeError http.StatusBadRequest message)
  | inr id =>
      match parseProblemForm r fs with
      | (fs, inl message) => (repo, fs, writeError http.StatusBadRequest message)
      | (fs, inr req) =>
          match update_bundle id req repo fs with
          | (repo1, fs1, Some response) => (repo1, fs1, response)
          | (repo1, fs1, None) =>
              match ProblemService_Update repo1
                      (problem_of_request id req empty_bundle) with
              | (repo2, inl err) =>
                  (repo2, fs1,
                   if is_ErrNotFound err
                   then writeError http.StatusNotFound (str "problem not found")
                   else writeError http.StatusInternalServerError
                          (str "failed to update problem"))
              | (repo2, inr updated) =>
                  (repo2, fs1, writeJSON http.StatusOK (ProblemJSON updated))
              end
          end
      end
  end.

(** [ProblemHandler.DeleteProblem] *)
Definition DeleteProblem (r : Request) (repo : R) : R * Response :=
  match parseProblemID r with
  | inl message => (repo, writeError http.StatusBadRequest message)
  | inr id =>
      match ProblemService_Delete repo id with
      | (repo', Some err) =>
          (repo',
           if is_ErrNotFound err
           then writeError http.StatusNotFound (str "problem not found")
           else writeError http.StatusInternalServerError
                  (str "failed to delete problem"))
      | (repo', None) => (repo', writeJSON http.StatusNoContent NoBody)
      end
  end.

End Handlers.

(** ** Requests to run the model on *)

(** A parameter of a query or a value of a form, by name. *)
Definition field (name value : string) : string * string := (name, value).

Fixpoint lookup_field (fields : list (string * string)) (name : gostring) : gostring :=
  match fields with
  | [] => []
  | (k, v) :: rest =>
      if gostring_eqb (str k) name then str v else lookup_field rest name
  end.

(** A request with the query parameters [query], and no form. *)
Definition query_request (query : list (string * string)) : Request :=
  {| URLParam := fun _ => [];
     Query_Get := lookup_field query;
     ParseMultipartForm := fun fs => (fs, false);
     FormValue := fun _ => [];
     MultipartForm := None |}.

(** A request for the problem [problemID] with the form values [fields]
    and the uploads [files] of the form field [bundle], of which
    [ParseMultipartForm] writes [spilled] to the file [multipart-1] of the
    directory [/tmp]. *)
Definition spilling_request (problemID : string) (fields : list (string * string))
    (files : list FileHeader) (spilled : list byte) : Request :=
  {| URLParam := fun name =>
       if gostring_eqb name (str "problemID") then str problemID else [];
     Query_Get := fun _ => [];
     ParseMultipartForm := fun fs =>
       (os.put (str "/tmp") (str "multipart-1") spilled fs, true);
     FormValue := lookup_field fields;
     MultipartForm :=
       Some {| File := fun name =>
                 if gostring_eqb name formFieldBundle then files else [] |} |}.

(** The same, with uploads small enough to be kept in memory. *)
Definition form_request (problemID : string) (fields : list (string * string))
    (files : list FileHeader) : Request :=
  {| URLParam := fun name =>
       if gostring_eqb name (str "problemID") then str problemID else [];
     Query_Get := fun _ => [];
     ParseMultipartForm := fun fs => (fs, true);
     FormValue := lookup_field fields;
     MultipartForm :=
       Some {| File := fun name =>
                 if gostring_eqb name formFieldBundle then files else [] |} |}.

(** A repository given by what its [List] answers. *)
#[export] Instance answers_ProblemCatalog
  : ProblemCatalog (Z -> Z -> repo_error + (list Problem * Z)) := {|
  List answers := answers
|}.

(** An uploaded file that reads without error. *)
Definition upload (name : string) (content : list byte) : FileHeader :=
  {| fh_Filename := str name;
     fh_Open := inr {| r_bytes := content; r_end := EOF |} |}.

(** ** Notions used to state further properties *)

(** The entry is a directory. *)
Definition is_dir (header : TarEntry) : bool :=
  match Typeflag header with TypeDir => true | _ => false end.

(** The archive without its directory entries. *)
Definition without_directories (tr : TarReader) : TarReader :=
  {| tr_entries := List.filter (fun header => negb (is_dir header)) (tr_entries tr);
     tr_end := tr_end tr |}.

(** The error is one of the two errors of the final validation. *)
Definition final_validation_error (err : error) : bool :=
  match err with
  | ErrIncompletePair _ _ | ErrNotConsecutive _ => true
  | _ => false
  end.

(** A session in which the driver reports no error and [make] returns a
    slice of every capacity up to [capacity]. *)
Definition sound_session (s : Session) (capacity : Z) : Prop :=
  count_error s = None /\ query_error s = None
  /\ (forall n, scan_error s n = None) /\ (forall n, rows_error s n = None)
  /\ capacity <= make_max s.

(** The session in which the driver reports no error and [make] grants
    every capacity up to [capacity]. *)
Definition quiet_session (capacity : Z) : Session :=
  {| count_error := None; query_error := None;
     scan_error := fun _ => None; rows_error := fun _ => None;
     make_max := capacity |}.

(** The problems of a page returned by [List]. *)
Definition page_items (r : Outcome (repo_error + (list Problem * Z))) : list Problem :=
  match r with
  | Returned (inr (items, _)) => items
  | _ => []
  end.

(** The pages [0 .. n-1] of [limit] problems, one after the other. *)
Definition first_pages (s : Session) (db : DB) (limit : Z) (n : nat) : list Problem :=
  flat_map (fun k => page_items (pgstore.List s db (Z.of_nat k * limit) limit))
    (seq 0 n).

(** The tags [tags] written as one form value, separated by commas. *)
Fixpoint comma_separated (tags : list gostring) : gostring :=
  match tags with
  | [] => []
  | [tag] => tag
  | tag :: rest => tag ++ ","%char :: comma_separated rest
  end.

(** The value of a result of the handlers' parsers, when there is one. *)
Definition parsed {A : Type} (dflt : A) (r : gostring + A) : A :=
  match r with
  | inr a => a
  | inl _ => dflt
  end.

(** The entries a decode pass lets through under the declared groups:
    directories, and regular files that resolve to a testcase of a
    declared group. *)
Definition accepted (tcGroups : list TestcaseGroup) (header : TarEntry) : Prop :=
  Typeflag header = TypeDir
  \/ exists g t ext,
       resolves header = Some (g, t, ext) /\ 0 <= g < Z.of_nat (length tcGroups).
(** * Checks of the library models on known values *)

Example Clean_examples :
  map path.Clean [str "a//b/./c/.."; str "./0_0.in"; str "../x"; str "/../x";
                  str "a/../.."; str ""; str "x/"; str "/"; str "a/b/../../c"]
  = [str "a/b"; str "0_0.in"; str "../x"; str "/x"; str ".."; str ".";
     str "x"; str "/"; str "c"].
Proof. reflexivity. Qed.

Example Base_Ext_examples :
  (path.Base (str "a/b.c/"), path.Base (str "///"), path.Base (str "x.in"),
   path.Ext (str "a.b/c"), path.Ext (str "0_0.in"), path.Ext (str "a.tar.gz"))
  = (str "b.c", str "/", str "x.in", str "", str ".in", str ".gz").
Proof. reflexivity. Qed.

Example Atoi_examples :
  map strconv.Atoi [str "0"; str "007"; str "-5"; str "+5"; str ""; str "1_0";
                    str "9223372036854775807"; str "9223372036854775808"]
  = [Some 0; Some 7; Some (-5); Some 5; None; None;
     Some 9223372036854775807; None].
Proof. reflexivity. Qed.

Example Itoa_examples :
  map strconv.Itoa [0; 7; 10; 1234; 9223372036854775807]
  = [str "0"; str "7"; str "10"; str "1234"; str "9223372036854775807"].
Proof. vm_compute. reflexivity. Qed.

Example MatchString_examples :
  map testcaseFilenamePattern_MatchString
      [str "0_0.in"; str "12_345.out"; str "0_0.txt"; str "_0.in"; str "0_.in";
       str "0_0.in "; str "a0_0.in"; str "0_0.inn"; str "0_0_0.in"; str "foo.txt"]
  = [true; true; false; false; false; false; false; false; false; false].
Proof. reflexivity. Qed.

Example Sum256_abc :
  hex.EncodeToString (sha256.Sum256 (bytes_of "abc"))
  = str "ba7816bf8f01cfea414140de5dae2223b00361a396177a9cb410ff61f20015ad".
Proof. vm_compute. reflexivity. Qed.

Example Sum256_empty :
  hex.EncodeToString (sha256.Sum256 [])
  = str "e3b0c44298fc1c149afbf4c8996fb92427ae41e4649b934ca495991b7852b855".
Proof. vm_compute. reflexivity. Qed.

Example Sum256_two_blocks :
  hex.EncodeToString
    (sha256.Sum256 (bytes_of "abcdbcdecdefdefgefghfghighijhijkijkljklmklmnlmnomnopnopq"))
  = str "248d6a61d20638b8e5c026930c3e6039a33ce45964ff2167f6ecedd419db06c1".
Proof. vm_compute. reflexivity. Qed.

Example Sum256_full_block :
  hex.EncodeToString (sha256.Sum256 (repeat "a"%byte 64))
  = str "ffe054fe7ae0cb6dc65c3af9b61d5209f439851db43d0ba5997337df154668eb".
Proof. vm_compute. reflexivity. Qed.

(** * Properties of the string functions *)

Lemma gostring_eqb_eq (a b : gostring) : gostring_eqb a b = true <-> a = b.
Proof.
  revert b; induction a as [|x a IH]; intros [|y b]; simpl; try (split; congruence).
  rewrite andb_true_iff, Ascii.eqb_eq, IH. split.
  - intros [-> ->]; reflexivity.
  - intros [= -> ->]; auto.
Qed.

Lemma gostring_eqb_refl (a : gostring) : gostring_eqb a a = true.
Proof. apply gostring_eqb_eq; reflexivity. Qed.

Lemma gostring_eqb_neq (a b : gostring) : gostring_eqb a b = false <-> a <> b.
Proof.
  rewrite <- gostring_eqb_eq. destruct (gostring_eqb a b); split; congruence.
Qed.

Lemma HasPrefix_app (p s : gostring) : strings.HasPrefix (p ++ s) p = true.
Proof.
  induction p as [|c p IH]; simpl; [reflexivity|].
  rewrite Ascii.eqb_refl; exact IH.
Qed.

Lemma HasPrefix_spec (s p : gostring) :
  strings.HasPrefix s p = true <-> exists r, s = p ++ r.
Proof.
  revert s; induction p as [|c p IH]; intros s; simpl.
  - split; eauto.
  - destruct s as [|d s].
    + split; [discriminate | intros [r Hr]; discriminate].
    + rewrite andb_true_iff, Ascii.eqb_eq, IH. split.
      * intros [-> [r ->]]; eauto.
      * intros [r [= -> ->]]; eauto.
Qed.

Lemma HasSuffix_spec (s x : gostring) :
  strings.HasSuffix s x = true <-> exists r, s = r ++ x.
Proof.
  unfold strings.HasSuffix. rewrite HasPrefix_spec. split.
  - intros [r Hr]. exists (rev r).
    rewrite <- (rev_involutive s), Hr, rev_app_distr, rev_involutive; reflexivity.
  - intros [r ->]. exists (rev r). apply rev_app_distr.
Qed.

Lemma TrimSuffix_app (r x : gostring) : strings.TrimSuffix (r ++ x) x = r.
Proof.
  unfold strings.TrimSuffix.
  assert (strings.HasSuffix (r ++ x) x = true) as -> by (apply HasSuffix_spec; eauto).
  rewrite length_app, Nat.add_sub. apply take_app_length.
Qed.

(** ** [strings.Split] *)

Lemma Split_nonempty (s : gostring) (sep : ascii) : strings.Split s sep <> [].
Proof.
  induction s as [|c s IH]; simpl; [discriminate|].
  destruct (Ascii.eqb c sep); [discriminate|].
  destruct (strings.Split s sep); [contradiction | discriminate].
Qed.

Lemma Split_free (s : gostring) (sep : ascii) :
  sep ∉ s -> strings.Split s sep = [s].
Proof.
  induction s as [|c s IH]; simpl; intros Hs; [reflexivity|].
  apply not_elem_of_cons in Hs as [Hc Hs].
  destruct (Ascii.eqb_spec c sep) as [->|_]; [contradiction|].
  rewrite (IH Hs); reflexivity.
Qed.

Lemma Split_app (a b : gostring) (sep : ascii) :
  sep ∉ a -> strings.Split (a ++ sep :: b) sep = a :: strings.Split b sep.
Proof.
  induction a as [|c a IH]; simpl; intros Ha.
  - rewrite Ascii.eqb_refl; reflexivity.
  - apply not_elem_of_cons in Ha as [Hc Ha].
    destruct (Ascii.eqb_spec c sep) as [->|_]; [contradiction|].
    rewrite (IH Ha); reflexivity.
Qed.

(** The pieces of a split joined by the separator give the string back. *)
Lemma Split_join (s : gostring) :
  path.join (strings.Split s path.slash) = s.
Proof.
  induction s as [|c s IH]; [reflexivity|]. simpl.
  destruct (Ascii.eqb_spec c path.slash) as [->|Hc].
  - pose proof (Split_nonempty s path.slash).
    destruct (strings.Split s path.slash) as [|p ps] eqn:E; [contradiction|].
    simpl in *. rewrite IH; reflexivity.
  - pose proof (Split_nonempty s path.slash).
    destruct (strings.Split s path.slash) as [|p ps] eqn:E; [contradiction|].
    simpl in *. destruct ps; simpl in *; rewrite <- IH; reflexivity.
Qed.

(** ** Decimal digits *)

Lemma is_digit_range (c : ascii) :
  strconv.is_digit c = true -> 0 <= strconv.digit_val c <= 9.
Proof. unfold strconv.is_digit, strconv.digit_val. lia. Qed.

Lemma all_digits_free (s : gostring) (c : ascii) :
  all_digits s -> strconv.is_digit c = false -> c ∉ s.
Proof.
  intros Hs Hc Hin. unfold all_digits in Hs. rewrite Forall_forall in Hs.
  apply Hs in Hin. congruence.
Qed.

Lemma parse_digits_all (s : gostring) (acc : Z) :
  all_digits s ->
  strconv.parse_digits acc s
  = Some (fold_left (fun acc c => acc * 10 + strconv.digit_val c) s acc).
Proof.
  intros Hs. revert acc. induction Hs as [|c s Hc _ IH]; intros acc; simpl.
  - reflexivity.
  - rewrite Hc. apply IH.
Qed.

Lemma parse_digits_Some (s : gostring) (acc v : Z) :
  strconv.parse_digits acc s = Some v -> all_digits s.
Proof.
  revert acc. induction s as [|c s IH]; intros acc; simpl.
  - constructor.
  - destruct (strconv.is_digit c) eqn:Hc; [|discriminate].
    intros H. constructor; [exact Hc | exact (IH _ H)].
Qed.

Lemma fold_digits_nonneg (s : gostring) (acc : Z) :
  all_digits s -> 0 <= acc ->
  0 <= fold_left (fun acc c => acc * 10 + strconv.digit_val c) s acc.
Proof.
  intros Hs. revert acc. induction Hs as [|c s Hc _ IH]; intros acc Hacc; simpl.
  - exact Hacc.
  - apply IH. apply is_digit_range in Hc. lia.
Qed.

Lemma decimal_value_nonneg (s : gostring) : all_digits s -> 0 <= decimal_value s.
Proof. intros Hs. apply fold_digits_nonneg; [exact Hs | lia]. Qed.

(** [Atoi] on a non-empty sequence of digits: its value, when that fits an
    [int]; an error otherwise. *)
Lemma Atoi_digits (s : gostring) :
  s <> [] -> all_digits s ->
  strconv.Atoi s
  = if decimal_value s <=? max_int then Some (decimal_value s) else None.
Proof.
  intros Hne Hs. unfold strconv.Atoi.
  destruct s as [|c s]; [contradiction|].
  pose proof (Forall_inv Hs) as Hc; simpl in Hc.
  assert (Ascii.eqb c "-" = false) as ->.
  { apply Ascii.eqb_neq. intros ->. discriminate Hc. }
  assert (Ascii.eqb c "+" = false) as ->.
  { apply Ascii.eqb_neq. intros ->. discriminate Hc. }
  rewrite (parse_digits_all _ _ Hs). fold (decimal_value (c :: s)).
  pose proof (decimal_value_nonneg _ Hs) as Hv.
  assert ((min_int <=? decimal_value (c :: s)) = true) as ->.
  { apply Z.leb_le. unfold min_int. lia. }
  reflexivity.
Qed.

(** ** [strconv.Itoa] *)

Lemma digit_of_nat (k : Z) :
  0 <= k <= 9 ->
  strconv.is_digit (ascii_of_nat (Z.to_nat (48 + k))) = true
  /\ strconv.digit_val (ascii_of_nat (Z.to_nat (48 + k))) = k.
Proof.
  intros Hk. unfold strconv.is_digit, strconv.digit_val.
  rewrite nat_ascii_embedding by lia. rewrite Z2Nat.id by lia.
  split; lia.
Qed.

Lemma decimal_value_snoc (s : gostring) (c : ascii) :
  decimal_value (s ++ [c]) = decimal_value s * 10 + strconv.digit_val c.
Proof. unfold decimal_value. rewrite fold_left_app. reflexivity. Qed.

Lemma rev_digits_spec (fuel : nat) (n : Z) :
  0 <= n < 2 ^ Z.of_nat fuel -> (0 < fuel)%nat ->
  all_digits (rev (strconv.rev_digits fuel n))
  /\ strconv.rev_digits fuel n <> []
  /\ decimal_value (rev (strconv.rev_digits fuel n)) = n.
Proof.
  revert n. induction fuel as [|fuel IH]; intros n Hn Hf; [lia|].
  simpl strconv.rev_digits.
  assert (0 <= n mod 10 <= 9) as Hd by (pose proof (Z.mod_pos_bound n 10); lia).
  destruct (digit_of_nat _ Hd) as [Hdig Hval].
  destruct (Z.ltb_spec n 10) as [Hlt|Hge].
  - simpl. split; [|split].
    + repeat constructor. exact Hdig.
    + discriminate.
    + unfold decimal_value; simpl. rewrite Hval. rewrite Z.mod_small by lia. lia.
  - assert (0 <= n / 10 < 2 ^ Z.of_nat fuel) as Hq.
    { split; [apply Z.div_pos; lia|].
      rewrite Nat2Z.inj_succ, Z.pow_succ_r in Hn by lia.
      apply Z.div_lt_upper_bound; lia. }
    assert (0 < fuel)%nat as Hf'.
    { destruct fuel; [simpl in Hq; lia | lia]. }
    destruct (IH _ Hq Hf') as (Hall & Hne & Hv).
    simpl rev. split; [|split].
    + apply Forall_app; split; [exact Hall | repeat constructor; exact Hdig].
    + discriminate.
    + rewrite decimal_value_snoc, Hv, Hval.
      pose proof (Z.div_mod n 10). lia.
Qed.

Lemma Itoa_spec (n : Z) :
  0 <= n ->
  all_digits (strconv.Itoa n) /\ strconv.Itoa n <> []
  /\ decimal_value (strconv.Itoa n) = n.
Proof.
  intros Hn. unfold strconv.Itoa.
  assert (0 <= n < 2 ^ Z.of_nat (S (Z.to_nat (Z.log2 n)))) as Hb.
  { split; [exact Hn|]. rewrite Nat2Z.inj_succ, Z2Nat.id by apply Z.log2_nonneg.
    destruct (Z.eq_dec n 0) as [->|Hz]; [reflexivity|].
    apply Z.log2_spec; lia. }
  destruct (rev_digits_spec _ _ Hb) as (Hall & Hne & Hv); [lia|].
  split; [exact Hall | split; [|exact Hv]].
  intros Hrev. apply Hne. apply (f_equal (@rev _)) in Hrev.
  rewrite rev_involutive in Hrev. exact Hrev.
Qed.

Lemma Atoi_Itoa (n : Z) : 0 <= n <= max_int -> strconv.Atoi (strconv.Itoa n) = Some n.
Proof.
  intros Hn. destruct (Itoa_spec n) as (Hall & Hne & Hv); [lia|].
  rewrite Atoi_digits, Hv by assumption.
  destruct (Z.leb_spec n max_int); [reflexivity | lia].
Qed.

(** ** Regular expressions and the pattern *)

Lemma matches_NoMatch_inv (s : gostring) : matches regexp.NoMatch s <-> False.
Proof. split; [inversion 1 | contradiction]. Qed.

Lemma matches_EmptyMatch_inv (s : gostring) : matches regexp.EmptyMatch s <-> s = [].
Proof. split; [inversion 1; reflexivity | intros ->; constructor]. Qed.

Lemma matches_Lit_inv (c : ascii) (s : gostring) :
  matches (regexp.Lit c) s <-> s = [c].
Proof. split; [inversion 1; reflexivity | intros ->; constructor]. Qed.

Lemma matches_Digit_inv (s : gostring) :
  matches regexp.Digit s <-> exists c, s = [c] /\ strconv.is_digit c = true.
Proof.
  split; [inversion 1; eauto | intros (c & -> & Hc); constructor; exact Hc].
Qed.

Lemma matches_Cat_inv (r1 r2 : regexp.Regexp) (s : gostring) :
  matches (regexp.Cat r1 r2) s
  <-> exists s1 s2, s = s1 ++ s2 /\ matches r1 s1 /\ matches r2 s2.
Proof.
  split; [inversion 1; eauto | intros (s1 & s2 & -> & H1 & H2); constructor; assumption].
Qed.

Lemma matches_Alt_inv (r1 r2 : regexp.Regexp) (s : gostring) :
  matches (regexp.Alt r1 r2) s <-> matches r1 s \/ matches r2 s.
Proof.
  split; [inversion 1; auto|].
  intros [H|H]; [apply matches_Alt_l | apply matches_Alt_r]; exact H.
Qed.

Lemma nullable_spec (r : regexp.Regexp) :
  regexp.nullable r = true <-> matches r [].
Proof.
  induction r as [| | c | | r1 IH1 r2 IH2 | r1 IH1 r2 IH2 | r IH]; simpl.
  - rewrite matches_NoMatch_inv. split; [discriminate | contradiction].
  - rewrite matches_EmptyMatch_inv. tauto.
  - rewrite matches_Lit_inv. split; discriminate.
  - rewrite matches_Digit_inv. split; [discriminate | intros (c & [=] & _)].
  - rewrite andb_true_iff, IH1, IH2, matches_Cat_inv. split.
    + intros [H1 H2]. exists [], []. auto.
    + intros (s1 & s2 & Heq & H1 & H2). symmetry in Heq.
      apply app_eq_nil in Heq as [-> ->]. auto.
  - rewrite orb_true_iff, IH1, IH2, matches_Alt_inv. reflexivity.
  - split; [constructor | reflexivity].
Qed.

Lemma matches_Star_inv (r : regexp.Regexp) (c : ascii) (s : gostring) :
  matches (regexp.Star r) (c :: s) ->
  exists s1 s2, s = s1 ++ s2 /\ matches r (c :: s1) /\ matches (regexp.Star r) s2.
Proof.
  intros H. remember (regexp.Star r) as r' eqn:Hr. remember (c :: s) as s' eqn:Hs.
  revert Hr s Hs.
  induction H as [| | | | | | |r0 s1 s2 H1 _ H2 IH2]; intros Hr tl Hs; try discriminate.
  injection Hr as ->. destruct s1 as [|c' s1].
  - simpl in Hs. apply IH2; [reflexivity | exact Hs].
  - simpl in Hs. injection Hs as -> <-. exists s1, s2. auto.
Qed.

(** A concatenation on a non-empty string: the first byte belongs to the
    left part, or the left part is empty. *)
Lemma matches_Cat_cons (r1 r2 : regexp.Regexp) (c : ascii) (s : gostring) :
  matches (regexp.Cat r1 r2) (c :: s)
  <-> (exists s1 s2, s = s1 ++ s2 /\ matches r1 (c :: s1) /\ matches r2 s2)
      \/ (matches r1 [] /\ matches r2 (c :: s)).
Proof.
  rewrite matches_Cat_inv. split.
  - intros (s1 & s2 & Heq & H1 & H2). destruct s1 as [|c' s1]; simpl in Heq.
    + right. subst s2. auto.
    + left. injection Heq as <- ->. eauto.
  - intros [(s1 & s2 & -> & H1 & H2) | [H1 H2]].
    + exists (c :: s1), s2. auto.
    + exists [], (c :: s). auto.
Qed.

Lemma deriv_spec (r : regexp.Regexp) (c : ascii) (s : gostring) :
  matches (regexp.deriv c r) s <-> matches r (c :: s).
Proof.
  revert s.
  induction r as [| | d | | r1 IH1 r2 IH2 | r1 IH1 r2 IH2 | r IH]; intros s; simpl.
  - rewrite !matches_NoMatch_inv. reflexivity.
  - rewrite matches_NoMatch_inv, matches_EmptyMatch_inv. split; [contradiction | discriminate].
  - rewrite matches_Lit_inv. destruct (Ascii.eqb_spec c d) as [->|Hne].
    + rewrite matches_EmptyMatch_inv. split; [intros ->; reflexivity | intros [= ->]; reflexivity].
    + rewrite matches_NoMatch_inv. split; [contradiction | intros [= -> _]; contradiction].
  - rewrite matches_Digit_inv. destruct (strconv.is_digit c) eqn:Hc.
    + rewrite matches_EmptyMatch_inv. split.
      * intros ->. eauto.
      * intros (c' & [= -> ->] & _). reflexivity.
    + rewrite matches_NoMatch_inv. split; [contradiction|].
      intros (c' & [= -> _] & Hc'). congruence.
  - assert (matches (regexp.Cat (regexp.deriv c r1) r2) s
            <-> exists s1 s2, s = s1 ++ s2 /\ matches r1 (c :: s1) /\ matches r2 s2) as Hcat.
    { rewrite matches_Cat_inv. split; intros (s1 & s2 & Heq & H1 & H2);
        exists s1, s2; (split; [exact Heq|]); (split; [apply IH1; exact H1 | exact H2]). }
    rewrite matches_Cat_cons. destruct (regexp.nullable r1) eqn:Hn.
    + apply nullable_spec in Hn. rewrite matches_Alt_inv, Hcat, IH2. tauto.
    + rewrite Hcat. split; [auto|]. intros [H|[H _]]; [exact H|].
      apply nullable_spec in H. congruence.
  - rewrite !matches_Alt_inv, IH1, IH2. reflexivity.
  - rewrite matches_Cat_inv. split.
    + intros (s1 & s2 & -> & H1 & H2).
      apply (matches_Star_cons _ (c :: s1) s2); [apply IH; exact H1 | exact H2].
    + intros H. apply matches_Star_inv in H as (s1 & s2 & -> & H1 & H2).
      exists s1, s2. split; [reflexivity|]. split; [apply IH; exact H1 | exact H2].
Qed.

(** The matcher decides [matches]. *)
Lemma full_match_spec (r : regexp.Regexp) (s : gostring) :
  regexp.full_match r s = true <-> matches r s.
Proof.
  revert r. induction s as [|c s IH]; intros r; simpl.
  - apply nullable_spec.
  - rewrite IH. apply deriv_spec.
Qed.

Lemma matches_Str (x s : gostring) : matches (regexp.Str x) s <-> s = x.
Proof.
  revert s. induction x as [|c x IH]; intros s; simpl.
  - apply matches_EmptyMatch_inv.
  - rewrite matches_Cat_inv. split.
    + intros (s1 & s2 & -> & H1 & H2).
      apply matches_Lit_inv in H1 as ->. apply IH in H2 as ->. reflexivity.
    + intros ->. exists [c], x. split; [reflexivity|].
      split; [constructor | apply IH; reflexivity].
Qed.

Lemma matches_Star_Digit (s : gostring) :
  matches (regexp.Star regexp.Digit) s <-> all_digits s.
Proof.
  split.
  - intros H. remember (regexp.Star regexp.Digit) as r eqn:Hr.
    induction H as [| | | | | | |r0 s1 s2 H1 _ H2 IH2]; try discriminate.
    + constructor.
    + injection Hr as ->. apply matches_Digit_inv in H1 as (c & -> & Hc). simpl.
      constructor; [exact Hc | apply IH2; reflexivity].
  - induction 1 as [|c s Hc _ IH]; [constructor|].
    apply (matches_Star_cons _ [c] s); [constructor; exact Hc | exact IH].
Qed.

Lemma matches_Plus_Digit (s : gostring) :
  matches (regexp.Plus regexp.Digit) s <-> s <> [] /\ all_digits s.
Proof.
  unfold regexp.Plus. rewrite matches_Cat_inv. split.
  - intros (s1 & s2 & -> & H1 & H2).
    apply matches_Digit_inv in H1 as (c & -> & Hc). simpl. split; [discriminate|].
    constructor; [exact Hc | apply matches_Star_Digit; exact H2].
  - intros [Hne Hall]. destruct s as [|c s]; [contradiction|].
    apply Forall_cons in Hall as [Hc Hall].
    exists [c], s. split; [reflexivity|].
    split; [constructor; exact Hc | apply matches_Star_Digit; exact Hall].
Qed.

(** The pattern accepts exactly the names of the grammar. *)
Lemma MatchString_spec (s : gostring) :
  testcaseFilenamePattern_MatchString s = true
  <-> exists group testcase ext, in_grammar s group testcase ext.
Proof.
  unfold testcaseFilenamePattern_MatchString, testcaseFilenamePattern, in_grammar.
  rewrite full_match_spec. split.
  - intros H.
    apply matches_Cat_inv in H as (g & s1 & -> & Hg & H).
    apply matches_Cat_inv in H as (u & s2 & -> & Hu & H).
    apply matches_Cat_inv in H as (t & s3 & -> & Ht & H).
    apply matches_Cat_inv in H as (d & ext & -> & Hd & Hext).
    apply matches_Lit_inv in Hu as ->, Hd as ->.
    apply matches_Plus_Digit in Hg as [Hgne Hgall], Ht as [Htne Htall].
    apply matches_Alt_inv in Hext. rewrite !matches_Str in Hext.
    exists g, t, ext. repeat split; assumption.
  - intros (g & t & ext & -> & Hg & Ht & Hallg & Hallt & Hext).
    apply matches_Cat_inv. exists g, (str "_" ++ t ++ str "." ++ ext).
    split; [reflexivity|]. split; [apply matches_Plus_Digit; auto|].
    apply matches_Cat_inv. exists (str "_"), (t ++ str "." ++ ext).
    split; [reflexivity|]. split; [constructor|].
    apply matches_Cat_inv. exists t, (str "." ++ ext).
    split; [reflexivity|]. split; [apply matches_Plus_Digit; auto|].
    apply matches_Cat_inv. exists (str "."), ext.
    split; [reflexivity|]. split; [constructor|].
    apply matches_Alt_inv. rewrite !matches_Str. exact Hext.
Qed.

(** ** [path.Ext], [path.Base] and [path.Clean] on flat names *)

Lemma ext_scan_app (x r acc : gostring) :
  path.slash ∉ x -> path.dot ∉ x ->
  path.ext_scan (x ++ path.dot :: r) acc = path.dot :: rev x ++ acc.
Proof.
  revert acc. induction x as [|c x IH]; intros acc Hs Hd; simpl.
  - reflexivity.
  - apply not_elem_of_cons in Hs as [Hs1 Hs]. apply not_elem_of_cons in Hd as [Hd1 Hd].
    destruct (Ascii.eqb_spec c path.slash); [congruence|].
    destruct (Ascii.eqb_spec c path.dot); [congruence|].
    rewrite IH by assumption. rewrite <- app_assoc. reflexivity.
Qed.

Lemma Ext_app (stem ext : gostring) :
  path.slash ∉ ext -> path.dot ∉ ext ->
  path.Ext (stem ++ path.dot :: ext) = path.dot :: ext.
Proof.
  intros Hs Hd. unfold path.Ext. rewrite rev_app_distr. simpl rev.
  rewrite <- app_assoc. simpl.
  rewrite ext_scan_app by (rewrite list_elem_of_In, <- in_rev, <- list_elem_of_In; assumption).
  rewrite rev_involutive, app_nil_r. reflexivity.
Qed.

Lemma strip_slashes_id (r : gostring) :
  match r with c :: _ => c <> path.slash | [] => True end ->
  path.strip_slashes r = r.
Proof.
  destruct r as [|c r]; simpl; [reflexivity|]. intros Hc.
  destruct (Ascii.eqb_spec c path.slash); [contradiction | reflexivity].
Qed.

Lemma until_slash_id (r : gostring) : path.slash ∉ r -> path.until_slash r = r.
Proof.
  induction r as [|c r IH]; simpl; intros Hr; [reflexivity|].
  apply not_elem_of_cons in Hr as [Hc Hr].
  destruct (Ascii.eqb_spec c path.slash); [congruence|].
  rewrite IH by assumption. reflexivity.
Qed.

Lemma Base_flat (s : gostring) : s <> [] -> path.slash ∉ s -> path.Base s = s.
Proof.
  intros Hne Hs. unfold path.Base. destruct s as [|c s]; [contradiction|].
  assert (path.slash ∉ rev (c :: s)) as Hr.
  { rewrite list_elem_of_In, <- in_rev, <- list_elem_of_In. exact Hs. }
  assert (rev (c :: s) <> []) as Hrne.
  { intros H. apply (f_equal (@length _)) in H. rewrite length_rev in H. discriminate. }
  rewrite strip_slashes_id.
  - destruct (rev (c :: s)) as [|d r] eqn:E; [contradiction|].
    rewrite until_slash_id by assumption. rewrite <- E. apply rev_involutive.
  - destruct (rev (c :: s)) as [|d r]; [exact I|].
    apply not_elem_of_cons in Hr as [Hd _]. congruence.
Qed.

Lemma Clean_flat (s : gostring) :
  s <> [] -> path.slash ∉ s -> s <> [path.dot] -> s <> [path.dot; path.dot] ->
  path.Clean s = s.
Proof.
  intros Hne Hs Hd Hdd. unfold path.Clean, path.elements.
  rewrite Split_free by assumption.
  destruct s as [|c r]; [contradiction|].
  assert (Ascii.eqb c path.slash = false) as ->.
  { apply Ascii.eqb_neq. intros ->. apply Hs. constructor. }
  set (s := c :: r) in *. cbn [fold_left]. unfold path.clean_step.
  apply gostring_eqb_neq in Hne, Hd, Hdd. rewrite Hne, Hd, Hdd.
  reflexivity.
Qed.

(** * The filename validator and parser on the grammar *)

Lemma grammar_bytes (base group testcase ext : gostring) (c : ascii) :
  in_grammar base group testcase ext ->
  c ∈ base -> strconv.is_digit c = true \/ c ∈ str "_.inout".
Proof.
  intros (-> & _ & _ & Hg & Ht & Hext) Hc.
  unfold all_digits in Hg, Ht. rewrite Forall_forall in Hg, Ht.
  assert (forall x, x ∈ str "_.inout" -> c = x -> c ∈ str "_.inout") as Hx
    by (intros x Hx ->; exact Hx).
  rewrite !elem_of_app in Hc. destruct Hc as [Hc | [Hc | [Hc | [Hc | Hc]]]].
  - left; auto.
  - right. destruct Hext as [-> | ->]; simpl in *;
      repeat (apply elem_of_cons in Hc as [-> | Hc]);
      try (rewrite !elem_of_cons; tauto); inversion Hc.
  - left; auto.
  - right. simpl in *;
      repeat (apply elem_of_cons in Hc as [-> | Hc]);
      try (rewrite !elem_of_cons; tauto); inversion Hc.
  - right. destruct Hext as [-> | ->]; simpl in *;
      repeat (apply elem_of_cons in Hc as [-> | Hc]);
      try (rewrite !elem_of_cons; tauto); inversion Hc.
Qed.

Lemma grammar_free (base group testcase ext : gostring) (c : ascii) :
  in_grammar base group testcase ext ->
  strconv.is_digit c = false -> c ∉ str "_.inout" -> c ∉ base.
Proof.
  intros Hb Hd Hc Hin. destruct (grammar_bytes _ _ _ _ _ Hb Hin); congruence.
Qed.

Lemma grammar_no_slash (base group testcase ext : gostring) :
  in_grammar base group testcase ext -> path.slash ∉ base.
Proof.
  intros Hb. apply (grammar_free _ _ _ _ _ Hb); [reflexivity|].
  simpl. rewrite !not_elem_of_cons. repeat split; try discriminate. apply not_elem_of_nil.
Qed.

Lemma grammar_no_backslash (base group testcase ext : gostring) :
  in_grammar base group testcase ext -> strings.Contains base "\"%char = false.
Proof.
  intros Hb. unfold strings.Contains.
  destruct (existsb _ base) eqn:E; [|reflexivity].
  apply existsb_exists in E as (c & Hin & Hc). apply Ascii.eqb_eq in Hc as <-.
  exfalso. apply list_elem_of_In in Hin. revert Hin.
  apply (grammar_free _ _ _ _ _ Hb); [reflexivity|].
  simpl. rewrite !not_elem_of_cons. repeat split; try discriminate. apply not_elem_of_nil.
Qed.

Lemma grammar_length (base group testcase ext : gostring) :
  in_grammar base group testcase ext -> (6 <= length base)%nat.
Proof.
  intros (-> & Hg & Ht & _ & _ & Hext).
  destruct group; [contradiction|]. destruct testcase; [contradiction|].
  rewrite !length_app. destruct Hext as [-> | ->]; simpl; lia.
Qed.

(** A name of the grammar is its own cleaned form and its own base. *)
Lemma grammar_Clean_Base (base group testcase ext : gostring) :
  in_grammar base group testcase ext ->
  path.Clean base = base /\ path.Base base = base.
Proof.
  intros Hb. pose proof (grammar_length _ _ _ _ Hb) as Hlen.
  pose proof (grammar_no_slash _ _ _ _ Hb) as Hs.
  split.
  - apply Clean_flat; try assumption; intros ->; simpl in Hlen; lia.
  - apply Base_flat; try assumption; intros ->; simpl in Hlen; lia.
Qed.

(** [validateBundleFilename] accepts a name exactly when its cleaned form
    is in the grammar. *)
Lemma validateBundleFilename_None (name : gostring) :
  validateBundleFilename name = None
  <-> exists group testcase ext, in_grammar (path.Clean name) group testcase ext.
Proof.
  unfold validateBundleFilename. split.
  - destruct (gostring_eqb (path.Clean name) (str ".")); [discriminate|].
    destruct (gostring_eqb (path.Base (path.Clean name)) (path.Clean name)) eqn:Eb;
      [|discriminate]. simpl.
    destruct (strings.Contains _ _); [discriminate|].
    destruct (testcaseFilenamePattern_MatchString _) eqn:Em; [|discriminate].
    intros _. apply gostring_eqb_eq in Eb. rewrite Eb in Em.
    apply MatchString_spec. exact Em.
  - intros (g & t & ext & Hb).
    destruct (grammar_Clean_Base _ _ _ _ Hb) as [_ HB].
    pose proof (grammar_length _ _ _ _ Hb) as Hlen.
    assert (gostring_eqb (path.Clean name) (str ".") = false) as ->.
    { apply gostring_eqb_neq. intros E. rewrite E in Hlen. simpl in Hlen. lia. }
    rewrite HB, gostring_eqb_refl. simpl.
    rewrite (grammar_no_backslash _ _ _ _ Hb).
    assert (testcaseFilenamePattern_MatchString (path.Clean name) = true) as ->
      by (apply MatchString_spec; eauto).
    reflexivity.
Qed.

(** The errors of [validateBundleFilename]. *)
Lemma validateBundleFilename_Some (name : gostring) (err : error) :
  validateBundleFilename name = Some err ->
  err = ErrInvalidFilenameBare \/ err = ErrContainsDirectories
  \/ err = ErrInvalidFilename (path.Base (path.Clean name)).
Proof.
  unfold validateBundleFilename.
  repeat match goal with
         | |- context [if ?b then _ else _] => destruct b
         end; intros [= <-]; auto.
Qed.

(** [parseTestcaseFilename] on a name of the grammar: the two values and
    the extension when both values fit an [int], an error otherwise. *)
Lemma parseTestcaseFilename_grammar (base group testcase ext : gostring) :
  in_grammar base group testcase ext ->
  parseTestcaseFilename base
  = if (decimal_value group <=? max_int) && (decimal_value testcase <=? max_int)
    then Ok (decimal_value group, decimal_value testcase, ext)
    else Err (ErrInvalidFilename base).
Proof.
  intros (Hbase & Hg & Ht & Hallg & Hallt & Hext).
  unfold parseTestcaseFilename.
  assert (path.Ext base = path.dot :: ext) as ->.
  { rewrite Hbase. simpl. rewrite app_comm_cons, app_assoc.
    apply Ext_app; destruct Hext as [-> | ->]; simpl;
      rewrite !not_elem_of_cons; repeat split; try discriminate; apply not_elem_of_nil. }
  assert (strings.TrimPrefix (path.dot :: ext) (str ".") = ext) as -> by reflexivity.
  assert (strings.TrimSuffix base (str "." ++ ext) = group ++ "_"%char :: testcase) as ->.
  { rewrite Hbase. simpl. rewrite app_comm_cons, app_assoc. apply TrimSuffix_app. }
  rewrite Split_app by (apply all_digits_free; [assumption | reflexivity]).
  rewrite Split_free by (apply all_digits_free; [assumption | reflexivity]).
  assert (gostring_eqb ext [] = false) as -> by (destruct Hext as [-> | ->]; reflexivity).
  simpl. rewrite !Atoi_digits by assumption.
  pose proof (decimal_value_nonneg _ Hallg). pose proof (decimal_value_nonneg _ Hallt).
  destruct (decimal_value group <=? max_int); [|reflexivity].
  destruct (decimal_value testcase <=? max_int); [|reflexivity].
  destruct (Z.ltb_spec (decimal_value group) 0); [lia|].
  destruct (Z.ltb_spec (decimal_value testcase) 0); [lia|].
  reflexivity.
Qed.

(** * The scratch directory *)

Lemma MkdirTemp_Some (P : Platform) (dir pattern d : gostring) (fs fs0 : FS) :
  os.MkdirTemp P dir pattern fs = (fs0, Some d) ->
  fs !! d = None /\ fs0 = <[d := ∅]> fs.
Proof.
  unfold os.MkdirTemp. destruct (MkdirTemp_pick P fs dir pattern) as [d'|]; [|discriminate].
  destruct (fs !! d') eqn:E; [discriminate|]. intros [= <- <-]. auto.
Qed.

Lemma MkdirTemp_None (P : Platform) (dir pattern : gostring) (fs fs0 : FS) :
  os.MkdirTemp P dir pattern fs = (fs0, None) -> fs0 = fs.
Proof.
  unfold os.MkdirTemp. destruct (MkdirTemp_pick P fs dir pattern) as [d'|].
  - destruct (fs !! d'); intros [= <-]; reflexivity.
  - intros [= <-]; reflexivity.
Qed.

(** Outside of the directory [d], a write into [d] changes nothing. *)
Lemma put_frame (d base : gostring) (content : list byte) (fs : FS) :
  delete d (os.put d base content fs) = delete d fs.
Proof.
  unfold os.put. destruct (fs !! d); [apply delete_insert_eq | reflexivity].
Qed.

Lemma extract_frame (P : Platform) (d base : gostring) (body : list byte)
    (count : Z) (fs : FS) :
  delete d (extract P d base body count fs).1 = delete d fs.
Proof.
  unfold extract. destruct (fs !! d); [|reflexivity].
  destruct (io_fault P count base) as [[]|]; simpl; try reflexivity; apply put_frame.
Qed.

Lemma decode_entry_frame (P : Platform) (d : gostring) (tcGroups : list TestcaseGroup)
    (header : TarEntry) (groupOrders : list Orders) (count : Z) (fs : FS) :
  delete d (decode_entry P d tcGroups header groupOrders count fs).1 = delete d fs.
Proof.
  unfold decode_entry.
  destruct (Typeflag header); try reflexivity.
  destruct (validateBundleFilename _); [reflexivity|].
  destruct (parseTestcaseFilename _) as [[[g t] ext]|]; [|reflexivity].
  destruct ((g <? 0) || _); [reflexivity|].
  destruct (groupOrders !! _); [|reflexivity].
  destruct (mark _ _ _ _ _); [|reflexivity].
  pose proof (extract_frame P d (path.Base (path.Clean (Name header)))
                (Body header) count fs) as Hx.
  destruct (extract _ _ _ _ _ _) as [fs' [err|]]; exact Hx.
Qed.

Lemma decode_frame (P : Platform) (d : gostring) (tcGroups : list TestcaseGroup)
    (entries : list TarEntry) (ending : TarEnd) (groupOrders : list Orders)
    (count : Z) (fs : FS) :
  delete d (decode P d tcGroups entries ending groupOrders count fs).1 = delete d fs.
Proof.
  revert groupOrders count fs.
  induction entries as [|header entries IH]; intros groupOrders count fs; simpl.
  - destruct ending; reflexivity.
  - pose proof (decode_entry_frame P d tcGroups header groupOrders count fs) as Hx.
    destruct (decode_entry _ _ _ _ _ _ _) as [fs' [[go' c']|err]]; simpl in *.
    + rewrite IH. exact Hx.
    + exact Hx.
Qed.

Lemma readTestcase_body_frame (P : Platform) (d : gostring) (tr : TarReader)
    (tcGroups : list TestcaseGroup) (fs : FS) :
  delete d (readTestcase_body P d tr tcGroups fs).1.1 = delete d fs.
Proof.
  unfold readTestcase_body.
  pose proof (decode_frame P d tcGroups (tr_entries tr) (tr_end tr)
                (map (fun _ => ∅) tcGroups) 0 fs) as Hx.
  destruct (decode _ _ _ _ _ _ _ _) as [fs' [[go' c']|err]]; simpl in *; [|exact Hx].
  destruct (c' =? 0); [exact Hx|].
  destruct (reconcile _ _ _ _) as [g' [err|]]; exact Hx.
Qed.

(** The loop over a prefix of the entries, then over the rest. *)
Lemma decode_app (P : Platform) (d : gostring) (tcGroups : list TestcaseGroup)
    (pre rest : list TarEntry) (ending : TarEnd) (groupOrders : list Orders)
    (count : Z) (fs : FS) :
  decode P d tcGroups (pre ++ rest) ending groupOrders count fs
  = match decode P d tcGroups pre TarEOF groupOrders count fs with
    | (fs', Ok (groupOrders', count')) =>
        decode P d tcGroups rest ending groupOrders' count' fs'
    | (fs', Err err) => (fs', Err err)
    end.
Proof.
  revert groupOrders count fs.
  induction pre as [|header pre IH]; intros groupOrders count fs; simpl.
  - reflexivity.
  - destruct (decode_entry _ _ _ _ _ _ _) as [fs' [[go' c']|err]]; [apply IH | reflexivity].
Qed.

(** What [readTestcaseFromTarGz] returns once the scratch directory [d] is
    there: the result of the body, on the filesystem as it was before. *)
Lemma readTestcaseFromTarGz_scratch (P : Platform) (tr : TarReader)
    (tcGroups : list TestcaseGroup) (fs fs0 : FS) (d : gostring) :
  os.MkdirTemp P (extractBase P) (str "testcase-bundle-") fs = (fs0, Some d) ->
  readTestcaseFromTarGz P tr tcGroups fs
  = (fs, (readTestcase_body P d tr tcGroups fs0).1.2,
         (readTestcase_body P d tr tcGroups fs0).2).
Proof.
  intros Hmk. unfold readTestcaseFromTarGz. rewrite Hmk.
  pose proof (readTestcase_body_frame P d tr tcGroups fs0) as Hx.
  destruct (readTestcase_body P d tr tcGroups fs0) as [[fs1 g'] r]. simpl in *.
  unfold os.RemoveAll. rewrite Hx.
  apply MkdirTemp_Some in Hmk as [Hnone ->].
  rewrite delete_insert_eq, delete_id by assumption. reflexivity.
Qed.

(** * The final validation *)

Lemma collect_orders_complete (l : list (Z * iopair)) :
  Forall (fun x => complete x.2 = true) l -> collect_orders l = inr (map fst l).
Proof.
  induction 1 as [|[o p] l Hp _ IH]; simpl; [reflexivity|].
  unfold complete in Hp; simpl in Hp. apply andb_true_iff in Hp as [-> ->].
  simpl. rewrite IH. reflexivity.
Qed.

Lemma collect_orders_incomplete (l : list (Z * iopair)) :
  ~ Forall (fun x => complete x.2 = true) l ->
  exists o p, collect_orders l = inl o /\ (o, p) ∈ l /\ complete p = false.
Proof.
  induction l as [|[o p] l IH]; intros Hn.
  - exfalso. apply Hn. constructor.
  - simpl. destruct (complete p) eqn:Hp.
    + unfold complete in Hp. apply andb_true_iff in Hp as [Hi Ho].
      rewrite Hi, Ho. simpl.
      destruct IH as (o' & p' & -> & Hin & Hc).
      { intros Hall. apply Hn. constructor; [|exact Hall].
        unfold complete; simpl. rewrite Hi, Ho. reflexivity. }
      exists o', p'. repeat split; [right; exact Hin | exact Hc].
    + exists o, p. unfold complete in Hp.
      assert (negb (has_in p) || negb (has_out p) = true) as ->
        by (destruct (has_in p), (has_out p); simpl in *; congruence).
      repeat split; [left | exact Hp].
Qed.

Lemma consecutive_from_spec (m : Z) (l : list Z) :
  consecutive_from m l = true <-> l = seqZ m (Z.of_nat (length l)).
Proof.
  revert m. induction l as [|x l IH]; intros m.
  - simpl. rewrite seqZ_nil by lia. tauto.
  - cbn [consecutive_from length]. rewrite seqZ_cons by lia.
    replace (Z.pred (Z.of_nat (S (length l)))) with (Z.of_nat (length l)) by lia.
    replace (Z.succ m) with (m + 1) by lia.
    destruct (Z.eqb_spec x m) as [->|Hne].
    + rewrite IH. split; [intros <-; reflexivity | intros [= <-]; reflexivity].
    + split; [discriminate | intros [= ? _]; contradiction].
Qed.

Lemma Sorted_seqZ (m n : Z) : Sorted Z.le (seqZ m n).
Proof.
  destruct (Z.le_gt_cases n 0) as [Hn|Hn]; [rewrite seqZ_nil by lia; constructor|].
  rewrite <- (Z2Nat.id n) by lia. generalize (Z.to_nat n) as k. clear.
  intros k. revert m. induction k as [|k IH]; intros m.
  - rewrite seqZ_nil by lia. constructor.
  - rewrite seqZ_cons by lia.
    replace (Z.pred (Z.of_nat (S k))) with (Z.of_nat k) by lia.
    constructor; [apply IH|].
    destruct k as [|k]; [rewrite seqZ_nil by lia; constructor|].
    rewrite seqZ_cons by lia. constructor. lia.
Qed.

Lemma sort_Ints_perm (l1 l2 : list Z) : l1 ≡ₚ l2 -> sort.Ints l1 = sort.Ints l2.
Proof.
  intros Hp. unfold sort.Ints.
  apply (Sorted_unique Z.le); try apply Sorted_merge_sort; try apply _.
  rewrite !merge_sort_Permutation. exact Hp.
Qed.

Lemma sort_Ints_sorted (l : list Z) : Sorted Z.le l -> sort.Ints l = l.
Proof.
  intros Hs. unfold sort.Ints.
  apply (Sorted_unique Z.le); try apply Sorted_merge_sort; try apply _; try assumption.
  apply merge_sort_Permutation.
Qed.

Lemma sorted_orders_length (orders : Orders) :
  length (sorted_orders orders) = size orders.
Proof.
  unfold sorted_orders, sort.Ints.
  rewrite merge_sort_Permutation, length_map. apply length_map_to_list.
Qed.

Lemma elem_of_sorted_orders (orders : Orders) (t : Z) :
  t ∈ sorted_orders orders <-> is_Some (orders !! t).
Proof.
  unfold sorted_orders, sort.Ints. rewrite merge_sort_Permutation.
  rewrite list_elem_of_In, in_map_iff. split.
  - intros ([t' p] & Ht & Hin). simpl in Ht; subst t'.
    apply list_elem_of_In, elem_of_map_to_list in Hin. eauto.
  - intros [p Hp]. exists (t, p). split; [reflexivity|].
    apply list_elem_of_In, elem_of_map_to_list. exact Hp.
Qed.

Lemma sorted_orders_contiguous (orders : Orders) :
  contiguous orders <-> sorted_orders orders = seqZ 0 (Z.of_nat (size orders)).
Proof.
  split.
  - intros Hc. unfold sorted_orders.
    rewrite <- (sort_Ints_sorted (seqZ 0 _)) by apply Sorted_seqZ.
    apply sort_Ints_perm. apply NoDup_Permutation.
    + apply NoDup_fst_map_to_list.
    + apply NoDup_seqZ.
    + intros t. rewrite elem_of_seqZ.
      rewrite <- (Hc t). rewrite list_elem_of_In, in_map_iff. split.
      * intros ([t' p] & Ht & Hin). simpl in Ht; subst t'.
        apply list_elem_of_In, elem_of_map_to_list in Hin. eauto.
      * intros [p Hp]. exists (t, p). split; [reflexivity|].
        apply list_elem_of_In, elem_of_map_to_list. exact Hp.
  - intros Hs t. rewrite <- elem_of_sorted_orders, Hs, elem_of_seqZ. lia.
Qed.

Lemma all_complete_Forall (orders : Orders) (l : list (Z * iopair)) :
  l ≡ₚ map_to_list orders ->
  all_complete orders <-> Forall (fun x => complete x.2 = true) l.
Proof.
  intros Hl. rewrite Forall_forall. unfold all_complete. split.
  - intros Hc [t p] Hin. rewrite Hl in Hin. apply elem_of_map_to_list in Hin.
    simpl. eauto.
  - intros Hall t p Hp. apply (Hall (t, p)). rewrite Hl.
    apply elem_of_map_to_list. exact Hp.
Qed.

(** The turn of a group no testcase refers to. *)
Lemma reconcile_group_empty (P : Platform) (i : nat) (orders : Orders)
    (tcGroups : list TestcaseGroup) :
  size orders = 0%nat -> reconcile_group P i orders tcGroups = (tcGroups, None).
Proof. intros Hs. unfold reconcile_group. rewrite Hs. reflexivity. Qed.

(** The turn of a group with an incomplete pair. *)
Lemma reconcile_group_incomplete (P : Platform) (i : nat) (orders : Orders)
    (tcGroups : list TestcaseGroup) :
  ~ all_complete orders ->
  exists o p, orders !! o = Some p /\ complete p = false
    /\ reconcile_group P i orders tcGroups
       = (tcGroups, Some (ErrIncompletePair (Z.of_nat i) o)).
Proof.
  intros Hn. unfold reconcile_group.
  destruct (Nat.eqb_spec (size orders) 0) as [Hz|Hz].
  { exfalso. apply Hn. apply map_size_empty_iff in Hz. subst orders.
    intros t p Hp. rewrite lookup_empty in Hp. discriminate. }
  pose proof (map_range_perm P (map_to_list orders)) as Hperm.
  rewrite (all_complete_Forall _ _ Hperm) in Hn.
  destruct (collect_orders_incomplete _ Hn) as (o & p & -> & Hin & Hc).
  exists o, p. rewrite Hperm in Hin. apply elem_of_map_to_list in Hin. auto.
Qed.

(** The turn of a group whose pairs are all complete. *)
Lemma reconcile_group_complete (P : Platform) (i : nat) (orders : Orders)
    (tcGroups : list TestcaseGroup) :
  size orders <> 0%nat -> all_complete orders ->
  reconcile_group P i orders tcGroups
  = if consecutive_from 0 (sorted_orders orders) then
      match tcGroups !! i with
      | None => (tcGroups, Some PanicIndex)
      | Some g =>
          (<[i := append_Testcases g
                    (map Testcase_with_OrderID (sorted_orders orders))]> tcGroups,
           None)
      end
    else (tcGroups, Some (ErrNotConsecutive (Z.of_nat i))).
Proof.
  intros Hz Hc. unfold reconcile_group.
  destruct (Nat.eqb_spec (size orders) 0) as [?|_]; [contradiction|].
  pose proof (map_range_perm P (map_to_list orders)) as Hperm.
  rewrite (all_complete_Forall _ _ Hperm) in Hc.
  rewrite (collect_orders_complete _ Hc).
  assert (sort.Ints (map fst (map_range P (map_to_list orders)))
          = sorted_orders orders) as ->.
  { apply sort_Ints_perm. rewrite Hperm. reflexivity. }
  reflexivity.
Qed.

Lemma consecutive_sorted_orders (orders : Orders) :
  consecutive_from 0 (sorted_orders orders) = true <-> contiguous orders.
Proof.
  rewrite consecutive_from_spec, sorted_orders_length. symmetry.
  apply sorted_orders_contiguous.
Qed.

Lemma append_Testcases_nil (g : TestcaseGroup) : append_Testcases g [] = g.
Proof. destruct g. unfold append_Testcases. simpl. rewrite app_nil_r. reflexivity. Qed.

Lemma all_complete_dec (orders : Orders) : all_complete orders \/ ~ all_complete orders.
Proof.
  rewrite (all_complete_Forall orders (map_to_list orders)) by reflexivity.
  destruct (decide (Forall (fun x : Z * iopair => complete x.2 = true) (map_to_list orders)));
    auto.
Qed.

Lemma contiguous_dec (orders : Orders) : contiguous orders \/ ~ contiguous orders.
Proof.
  rewrite <- consecutive_sorted_orders.
  destruct (consecutive_from 0 (sorted_orders orders)); auto.
Qed.

Lemma empty_group_ok (orders : Orders) : size orders = 0%nat -> group_ok orders.
Proof.
  intros Hz. apply map_size_empty_iff in Hz. subst orders. split.
  - intros t p Hp. rewrite lookup_empty in Hp. discriminate.
  - intros t. rewrite lookup_empty, map_size_empty. split; [intros [? [=]] | simpl; lia].
Qed.

(** The turn of a group that passes: its testcases [0 .. n-1] are appended. *)
Lemma reconcile_group_ok (P : Platform) (i : nat) (orders : Orders)
    (tcGroups : list TestcaseGroup) (g : TestcaseGroup) :
  group_ok orders -> tcGroups !! i = Some g ->
  reconcile_group P i orders tcGroups
  = (<[i := append_Testcases g (testcases_upto (Z.of_nat (size orders)))]> tcGroups, None).
Proof.
  intros [Hc Hk] Hg. destruct (Nat.eq_dec (size orders) 0%nat) as [Hz|Hz].
  - rewrite reconcile_group_empty by assumption. rewrite Hz.
    unfold testcases_upto. rewrite seqZ_nil by lia. simpl.
    rewrite append_Testcases_nil, list_insert_id by assumption. reflexivity.
  - rewrite reconcile_group_complete by assumption.
    pose proof (proj2 (consecutive_sorted_orders orders) Hk) as ->.
    rewrite Hg. apply sorted_orders_contiguous in Hk. rewrite Hk. reflexivity.
Qed.

(** The turn of a group that does not pass. *)
Lemma reconcile_group_not_ok (P : Platform) (i : nat) (orders : Orders)
    (tcGroups : list TestcaseGroup) :
  ~ group_ok orders ->
  exists err, reconcile_group P i orders tcGroups = (tcGroups, Some err).
Proof.
  intros Hn. destruct (all_complete_dec orders) as [Hc|Hc].
  - assert (~ contiguous orders) as Hk by (intros Hk; apply Hn; split; assumption).
    assert (size orders <> 0%nat) as Hz.
    { intros Hz. apply Hk. apply empty_group_ok. exact Hz. }
    rewrite reconcile_group_complete by assumption.
    rewrite <- consecutive_sorted_orders in Hk.
    destruct (consecutive_from 0 (sorted_orders orders)); [contradiction|]. eauto.
  - destruct (reconcile_group_incomplete P i orders tcGroups Hc) as (o & p & _ & _ & ->).
    eauto.
Qed.

Lemma group_ok_dec (orders : Orders) : group_ok orders \/ ~ group_ok orders.
Proof.
  unfold group_ok.
  destruct (all_complete_dec orders), (contiguous_dec orders); tauto.
Qed.

Lemma reconcile_app (P : Platform) (i : nat) (pre rest : list Orders)
    (tcGroups : list TestcaseGroup) :
  reconcile P i (pre ++ rest) tcGroups
  = match reconcile P i pre tcGroups with
    | (tcGroups', None) => reconcile P (i + length pre) rest tcGroups'
    | (tcGroups', Some err) => (tcGroups', Some err)
    end.
Proof.
  revert i tcGroups. induction pre as [|orders pre IH]; intros i tcGroups; simpl.
  - rewrite Nat.add_0_r. reflexivity.
  - destruct (reconcile_group P i orders tcGroups) as [tc' [err|]]; [reflexivity|].
    rewrite IH. rewrite Nat.add_succ_r. reflexivity.
Qed.

(** The loop over groups that all pass: no error, and the lookup of each
    element of the caller's slice afterwards. *)
Lemma reconcile_all_ok (P : Platform) (groupOrders : list Orders) :
  forall (i : nat) (tcGroups : list TestcaseGroup),
  Forall group_ok groupOrders ->
  (i + length groupOrders <= length tcGroups)%nat ->
  exists tcGroups',
    reconcile P i groupOrders tcGroups = (tcGroups', None)
    /\ length tcGroups' = length tcGroups
    /\ forall j,
        tcGroups' !! j
        = if (j <? i)%nat then tcGroups !! j
          else match groupOrders !! (j - i)%nat with
               | Some orders =>
                   (fun g => append_Testcases g (testcases_upto (Z.of_nat (size orders))))
                     <$> tcGroups !! j
               | None => tcGroups !! j
               end.
Proof.
  induction groupOrders as [|orders gos IH]; intros i tc Hok Hlen.
  - exists tc. repeat split. intros j. rewrite lookup_nil.
    destruct (j <? i)%nat; reflexivity.
  - apply Forall_cons in Hok as [Ho Hok]. simpl in Hlen.
    destruct (lookup_lt_is_Some_2 tc i) as [g Hg]; [lia|].
    simpl. rewrite (reconcile_group_ok P i orders tc g Ho Hg).
    set (tc1 := <[i := _]> tc).
    destruct (IH (S i) tc1 Hok) as (tc' & Hr & Hl & Hj).
    { unfold tc1. rewrite length_insert. lia. }
    exists tc'. split; [exact Hr|]. split.
    { rewrite Hl. unfold tc1. apply length_insert. }
    intros j. rewrite Hj. unfold tc1.
    destruct (Nat.ltb_spec j (S i)) as [Hlt|Hge].
    + destruct (Nat.ltb_spec j i) as [Hlt'|Hge'].
      * apply list_lookup_insert_ne. lia.
      * assert (j = i) as -> by lia. rewrite Nat.sub_diag. simpl.
        rewrite list_lookup_insert_eq by (apply lookup_lt_Some in Hg; exact Hg).
        rewrite Hg. reflexivity.
    + destruct (Nat.ltb_spec j i) as [Hlt'|Hge']; [lia|].
      replace (j - i)%nat with (S (j - S i)) by lia. simpl.
      rewrite list_lookup_insert_ne by lia. reflexivity.
Qed.

(** From the first group on, the loop over groups that all pass yields the
    populated groups. *)
Lemma reconcile_populated (P : Platform) (groupOrders : list Orders)
    (tcGroups : list TestcaseGroup) :
  Forall group_ok groupOrders -> length groupOrders = length tcGroups ->
  reconcile P 0 groupOrders tcGroups = (populated tcGroups groupOrders, None).
Proof.
  intros Hok Hlen.
  destruct (reconcile_all_ok P groupOrders 0 tcGroups Hok) as (tc' & -> & Hl & Hj); [lia|].
  f_equal. apply list_eq. intros j. rewrite Hj. unfold populated.
  rewrite lookup_zip_with. simpl. rewrite Nat.sub_0_r.
  destruct (tcGroups !! j) as [g|] eqn:Hg; simpl.
  - destruct (lookup_lt_is_Some_2 groupOrders j) as [o Ho];
      [apply lookup_lt_Some in Hg; lia|].
    rewrite Ho. reflexivity.
  - destruct (groupOrders !! j); reflexivity.
Qed.

(** A loop that ends without error has met only groups that pass. *)
Lemma reconcile_None_ok (P : Platform) (groupOrders : list Orders) :
  forall (i : nat) (tcGroups tcGroups' : list TestcaseGroup),
  reconcile P i groupOrders tcGroups = (tcGroups', None) ->
  Forall group_ok groupOrders.
Proof.
  induction groupOrders as [|orders gos IH]; intros i tc tc' Hr; [constructor|].
  simpl in Hr. destruct (group_ok_dec orders) as [Ho|Ho].
  - constructor; [exact Ho|].
    destruct (reconcile_group P i orders tc) as [tc1 [err|]]; [discriminate|].
    eapply IH. exact Hr.
  - destruct (reconcile_group_not_ok P i orders tc Ho) as [err He].
    rewrite He in Hr. discriminate.
Qed.

(** The loop stops at the first group that does not pass, with the error of
    that group's turn. *)
Lemma reconcile_first_failure (P : Platform) (pre rest : list Orders) (orders : Orders)
    (tcGroups : list TestcaseGroup) :
  Forall group_ok pre ->
  (length pre < length tcGroups)%nat ->
  exists tcGroups',
    reconcile P 0 pre tcGroups = (tcGroups', None)
    /\ length tcGroups' = length tcGroups
    /\ reconcile P 0 (pre ++ orders :: rest) tcGroups
       = match reconcile_group P (length pre) orders tcGroups' with
         | (tc2, Some err) => (tc2, Some err)
         | (tc2, None) => reconcile P (S (length pre)) rest tc2
         end.
Proof.
  intros Hok Hlen.
  destruct (reconcile_all_ok P pre 0 tcGroups Hok) as (tc' & Hr & Hl & _); [lia|].
  exists tc'. split; [exact Hr|]. split; [exact Hl|].
  rewrite reconcile_app, Hr. reflexivity.
Qed.

Lemma all_completeb_spec (orders : Orders) :
  all_completeb orders = true <-> all_complete orders.
Proof.
  unfold all_completeb.
  rewrite (all_complete_Forall orders (map_to_list orders)) by reflexivity.
  rewrite forallb_forall, Forall_forall. split; intros H x Hx; apply H.
  - apply list_elem_of_In. exact Hx.
  - apply list_elem_of_In. exact Hx.
Qed.

Lemma contiguousb_spec (orders : Orders) :
  contiguousb orders = true <-> contiguous orders.
Proof. apply consecutive_sorted_orders. Qed.

Lemma group_okb_spec (orders : Orders) : group_okb orders = true <-> group_ok orders.
Proof.
  unfold group_okb, group_ok.
  rewrite andb_true_iff, all_completeb_spec, contiguousb_spec. reflexivity.
Qed.

Lemma Forall_group_okb (go : list Orders) :
  forallb group_okb go = true -> Forall group_ok go.
Proof.
  rewrite forallb_forall, Forall_forall. intros H x Hx.
  apply group_okb_spec, H, list_elem_of_In, Hx.
Qed.

(** * The decode pass *)

Lemma parseTestcaseFilename_Ok (base : gostring) (g t : Z) (ext : gostring) :
  parseTestcaseFilename base = Ok (g, t, ext) -> 0 <= g /\ 0 <= t.
Proof.
  unfold parseTestcaseFilename.
  destruct (_ || _); [discriminate|].
  destruct (strconv.Atoi _) as [g'|]; [|discriminate].
  destruct (strconv.Atoi _) as [t'|]; [|discriminate].
  destruct (Z.ltb_spec g' 0); [discriminate|].
  destruct (Z.ltb_spec t' 0); [discriminate|].
  simpl. intros [= <- <- _]. lia.
Qed.

Lemma mark_Ok (g t : Z) (base ext : gostring) (p p' : iopair) :
  mark g t base ext p = Ok p'
  <-> (ext = str "in" \/ ext = str "out") /\ flag ext p = false /\ p' = set_flag ext p.
Proof.
  unfold mark, flag, set_flag.
  destruct (gostring_eqb ext (str "in")) eqn:Ei.
  - apply gostring_eqb_eq in Ei. subst ext.
    destruct (has_in p); split; try discriminate.
    + intros (_ & [=] & _).
    + intros [= <-]; auto.
    + intros (_ & _ & ->); reflexivity.
  - destruct (gostring_eqb ext (str "out")) eqn:Eo.
    + apply gostring_eqb_eq in Eo. subst ext.
      destruct (has_out p); split; try discriminate.
      * intros (_ & [=] & _).
      * intros [= <-]; auto.
      * intros (_ & _ & ->); reflexivity.
    + apply gostring_eqb_neq in Ei, Eo. split; [discriminate|].
      intros ([?|?] & _); contradiction.
Qed.

Lemma mark_duplicate (g t : Z) (base ext : gostring) (p : iopair) :
  ext = str "in" \/ ext = str "out" -> flag ext p = true ->
  mark g t base ext p = Err (ErrDuplicate ext g t).
Proof.
  unfold mark, flag, ErrDuplicate. intros [-> | ->]; simpl; intros ->; reflexivity.
Qed.

Lemma flag_set_flag (ext ext' : gostring) (p : iopair) :
  ext = str "in" \/ ext = str "out" -> ext' = str "in" \/ ext' = str "out" ->
  flag ext' (set_flag ext p) = true <-> flag ext' p = true \/ ext' = ext.
Proof.
  unfold flag, set_flag.
  intros [-> | ->] [-> | ->]; simpl; split; auto; intros [H|H]; auto; discriminate.
Qed.

Lemma set_flag_nonempty (ext : gostring) (p : iopair) :
  has_in (set_flag ext p) || has_out (set_flag ext p) = true.
Proof.
  unfold set_flag. destruct (gostring_eqb ext (str "in")); simpl;
    [reflexivity | apply orb_true_r].
Qed.

Lemma resolves_Some (header : TarEntry) (x : Z * Z * gostring) :
  resolves header = Some x
  <-> Typeflag header = TypeReg /\ validateBundleFilename (Name header) = None
      /\ parseTestcaseFilename (path.Base (path.Clean (Name header))) = Ok x.
Proof.
  unfold resolves. destruct (Typeflag header); try (split; [discriminate | intros [[=] _]]).
  destruct (validateBundleFilename _); [split; [discriminate | intros (_ & [=] & _)]|].
  destruct (parseTestcaseFilename _); split.
  - intros [= ->]; auto.
  - intros (_ & _ & [= ->]); reflexivity.
  - discriminate.
  - intros (_ & _ & [=]).
Qed.

(** The pair of a testcase after the turn of a file has been recorded. *)
Lemma pair_at_insert (groupOrders : list Orders) (G : nat) (orders : Orders)
    (t : Z) (p : iopair) (g' : nat) (t' : Z) :
  groupOrders !! G = Some orders ->
  pair_at (<[G := <[t := p]> orders]> groupOrders) g' t'
  = if decide (g' = G /\ t' = t) then p else pair_at groupOrders g' t'.
Proof.
  intros HG. unfold pair_at. pose proof (lookup_lt_Some _ _ _ HG) as Hlt.
  destruct (decide (g' = G /\ t' = t)) as [[-> ->]|Hne].
  - rewrite list_lookup_insert_eq by assumption. rewrite lookup_insert_eq. reflexivity.
  - destruct (decide (g' = G)) as [->|HgG].
    + rewrite list_lookup_insert_eq by assumption. rewrite HG.
      rewrite lookup_insert_ne by (intros ->; apply Hne; auto). reflexivity.
    + rewrite list_lookup_insert_ne by auto. reflexivity.
Qed.

(** A turn of the loop that does not stop it: a directory, or a regular file
    that resolves to a valid triple whose flag was not set, and sets it. *)
Lemma decode_entry_Ok (P : Platform) (d : gostring) (tcGroups : list TestcaseGroup)
    (header : TarEntry) (go go' : list Orders) (c c' : Z) (fs fs' : FS) :
  decode_entry P d tcGroups header go c fs = (fs', Ok (go', c')) ->
  (Typeflag header = TypeDir /\ resolves header = None
   /\ go' = go /\ c' = c /\ fs' = fs)
  \/ exists g t ext orders,
       resolves header = Some (g, t, ext)
       /\ valid_triple tcGroups (g, t, ext)
       /\ go !! Z.to_nat g = Some orders
       /\ flag ext (pair_at go (Z.to_nat g) t) = false
       /\ go' = <[Z.to_nat g := <[t := set_flag ext (pair_at go (Z.to_nat g) t)]> orders]> go
       /\ c' = c + 1.
Proof.
  unfold decode_entry. destruct (Typeflag header) eqn:Ety.
  - intros [= <- <- <-]. left. unfold resolves. rewrite Ety. auto.
  - destruct (validateBundleFilename (Name header)) eqn:Ev; [discriminate|].
    destruct (parseTestcaseFilename _) as [[[g t] ext]|] eqn:Ep; [|discriminate].
    destruct (orb _ _) eqn:Erange; [discriminate|].
    destruct (go !! Z.to_nat g) as [orders|] eqn:Eg; [|discriminate].
    destruct (mark _ _ _ _ _) as [p'|] eqn:Em; [|discriminate].
    destruct (extract _ _ _ _ _ _) as [fs1 [err|]]; [discriminate|].
    intros [= <- <- <-]. right. exists g, t, ext, orders.
    apply mark_Ok in Em as (Hext & Hflag & ->).
    apply orb_false_iff in Erange as [H1 H2].
    pose proof (parseTestcaseFilename_Ok _ _ _ _ Ep) as [Hg Ht].
    assert (pair_at go (Z.to_nat g) t = default empty_pair (orders !! t)) as Hp
      by (unfold pair_at; rewrite Eg; reflexivity).
    rewrite Z.geb_leb in H2. apply Z.leb_gt in H2.
    rewrite Hp. repeat split; simpl; try assumption; try lia.
    apply resolves_Some. auto.
  - discriminate.
Qed.

(** The turn of a regular file that resolves to a valid triple whose flag is
    not set, when the extraction does not fail. *)
Lemma decode_entry_fresh (P : Platform) (d : gostring) (tcGroups : list TestcaseGroup)
    (header : TarEntry) (go : list Orders) (c : Z) (fs : FS)
    (g t : Z) (ext : gostring) :
  resolves header = Some (g, t, ext) ->
  valid_triple tcGroups (g, t, ext) ->
  length go = length tcGroups ->
  flag ext (pair_at go (Z.to_nat g) t) = false ->
  is_Some (fs !! d) ->
  io_fault P c (path.Base (path.Clean (Name header))) = None ->
  exists orders fs',
    go !! Z.to_nat g = Some orders
    /\ is_Some (fs' !! d)
    /\ decode_entry P d tcGroups header go c fs
       = (fs', Ok (<[Z.to_nat g := <[t := set_flag ext (pair_at go (Z.to_nat g) t)]> orders]> go,
                   c + 1)).
Proof.
  intros Hres (Hg & Ht & Hext) Hlen Hflag [files Hd] Hio. simpl in Hg, Ht, Hext.
  apply resolves_Some in Hres as (Hty & Hv & Hp).
  destruct (lookup_lt_is_Some_2 go (Z.to_nat g)) as [orders Ho]; [lia|].
  unfold decode_entry. rewrite Hty, Hv, Hp.
  destruct (Z.ltb_spec g 0); [lia|]. destruct (Z.geb_spec g (Z.of_nat (length tcGroups))); [lia|].
  simpl. rewrite Ho.
  assert (pair_at go (Z.to_nat g) t = default empty_pair (orders !! t)) as Hpa
    by (unfold pair_at; rewrite Ho; reflexivity).
  rewrite Hpa in *.
  assert (mark g t (path.Base (path.Clean (Name header))) ext
               (default empty_pair (orders !! t))
          = Ok (set_flag ext (default empty_pair (orders !! t)))) as ->
    by (apply mark_Ok; auto).
  unfold extract. rewrite Hd, Hio.
  eexists orders, _. split; [reflexivity|]. split; [|reflexivity].
  unfold os.put. rewrite Hd. rewrite lookup_insert_eq. eauto.
Qed.

(** The turn of a regular file that resolves to a triple whose flag is set
    already: the duplicate error. *)
Lemma decode_entry_duplicate (P : Platform) (d : gostring) (tcGroups : list TestcaseGroup)
    (header : TarEntry) (go : list Orders) (c : Z) (fs : FS)
    (g t : Z) (ext : gostring) :
  resolves header = Some (g, t, ext) ->
  valid_triple tcGroups (g, t, ext) ->
  length go = length tcGroups ->
  flag ext (pair_at go (Z.to_nat g) t) = true ->
  decode_entry P d tcGroups header go c fs = (fs, Err (ErrDuplicate ext g t)).
Proof.
  intros Hres (Hg & Ht & Hext) Hlen Hflag. simpl in Hg, Ht, Hext.
  apply resolves_Some in Hres as (Hty & Hv & Hp).
  destruct (lookup_lt_is_Some_2 go (Z.to_nat g)) as [orders Ho]; [lia|].
  unfold decode_entry. rewrite Hty, Hv, Hp.
  destruct (Z.ltb_spec g 0); [lia|]. destruct (Z.geb_spec g (Z.of_nat (length tcGroups))); [lia|].
  simpl. rewrite Ho.
  assert (pair_at go (Z.to_nat g) t = default empty_pair (orders !! t)) as Hpa
    by (unfold pair_at; rewrite Ho; reflexivity).
  rewrite Hpa in Hflag. rewrite mark_duplicate by assumption. reflexivity.
Qed.

Lemma decode_entry_dir (P : Platform) (d : gostring) (tcGroups : list TestcaseGroup)
    (header : TarEntry) (go : list Orders) (c : Z) (fs : FS) :
  Typeflag header = TypeDir ->
  decode_entry P d tcGroups header go c fs = (fs, Ok (go, c))
  /\ resolves header = None.
Proof. intros Hty. unfold decode_entry, resolves. rewrite Hty. auto. Qed.

(** The flags after the turn of a file that resolves to [(g, t, ext)]. *)
Lemma flag_after_turn (go : list Orders) (orders : Orders) (g t : Z) (ext : gostring)
    (g' : nat) (t' : Z) (ext' : gostring) :
  0 <= g -> ext = str "in" \/ ext = str "out" -> ext' = str "in" \/ ext' = str "out" ->
  go !! Z.to_nat g = Some orders ->
  flag ext' (pair_at (<[Z.to_nat g := <[t := set_flag ext (pair_at go (Z.to_nat g) t)]> orders]> go)
                     g' t') = true
  <-> flag ext' (pair_at go g' t') = true \/ (Z.of_nat g', t', ext') = (g, t, ext).
Proof.
  intros Hg Hext Hext' Ho. rewrite (pair_at_insert _ _ _ _ _ _ _ Ho).
  destruct (decide (g' = Z.to_nat g /\ t' = t)) as [[-> ->]|Hne].
  - rewrite flag_set_flag by assumption. rewrite Z2Nat.id by lia.
    split; (intros [H|H]; [left; exact H | right]); congruence.
  - split; [auto|]. intros [Hfl|Heq]; [exact Hfl|].
    exfalso. apply Hne. injection Heq as E1 E2 E3. split; [lia | assumption].
Qed.

Lemma omap_resolves_Some (header : TarEntry) (entries : list TarEntry)
    (x : Z * Z * gostring) :
  resolves header = Some x ->
  omap resolves (header :: entries) = x :: omap resolves entries.
Proof. intros H. simpl. rewrite H. reflexivity. Qed.

Lemma omap_resolves_None (header : TarEntry) (entries : list TarEntry) :
  resolves header = None ->
  omap resolves (header :: entries) = omap resolves entries.
Proof. intros H. simpl. rewrite H. reflexivity. Qed.

(** The state after a decode pass that went through: every entry was a
    directory or resolved to a valid triple, no triple came twice, and a
    flag is set afterwards exactly when it was set before or a file
    resolved to it. *)
Lemma decode_Ok_state (P : Platform) (d : gostring) (tcGroups : list TestcaseGroup)
    (ending : TarEnd) (entries : list TarEntry) :
  forall (go go' : list Orders) (c c' : Z) (fs fs' : FS),
  decode P d tcGroups entries ending go c fs = (fs', Ok (go', c')) ->
  ending = TarEOF
  /\ length go' = length go
  /\ c' = c + Z.of_nat (length (omap resolves entries))
  /\ Forall (valid_triple tcGroups) (omap resolves entries)
  /\ Forall (fun e => Typeflag e = TypeDir \/ is_Some (resolves e)) entries
  /\ NoDup (omap resolves entries)
  /\ (forall x, x ∈ omap resolves entries ->
        flag x.2 (pair_at go (Z.to_nat x.1.1) x.1.2) = false)
  /\ (forall g t ext, ext = str "in" \/ ext = str "out" ->
        flag ext (pair_at go' g t) = true
        <-> flag ext (pair_at go g t) = true \/ (Z.of_nat g, t, ext) ∈ omap resolves entries)
  /\ (stored_nonempty go -> stored_nonempty go').
Proof.
  induction entries as [|header entries IH]; intros go go' c c' fs fs' Hdec.
  - simpl in Hdec. destruct ending; [|discriminate]. injection Hdec as <- <- <-.
    simpl. split; [reflexivity|]. split; [reflexivity|]. split; [lia|].
    split; [constructor|]. split; [constructor|]. split; [constructor|].
    split; [intros x Hx; inversion Hx|].
    split; [|auto].
    intros g t ext _. split; [auto|]. intros [Hf|Hin]; [exact Hf | inversion Hin].
  - simpl in Hdec.
    destruct (decode_entry P d tcGroups header go c fs) as [fs1 [[go1 c1]|err]] eqn:He;
      [|discriminate].
    destruct (IH _ _ _ _ _ _ Hdec)
      as (Hend & Hlen & Hc & Hvalid & Hall & Hnd & Hfresh & Hflags & Hne).
    apply decode_entry_Ok in He
      as [(Hty & Hres & -> & -> & ->) | (g & t & ext & orders & Hres & Hv & Ho & Hf & -> & ->)].
    + rewrite (omap_resolves_None _ _ Hres).
      split; [exact Hend|]. split; [exact Hlen|]. split; [exact Hc|].
      split; [exact Hvalid|].
      split; [constructor; [left; exact Hty | exact Hall]|].
      split; [exact Hnd|]. split; [exact Hfresh|]. split; [exact Hflags | exact Hne].
    + pose proof Hv as (Hg & Ht & Hext). simpl in Hg, Ht, Hext.
      pose proof (fun g' t' ext' H => flag_after_turn go orders g t ext g' t' ext'
                     (proj1 Hg) Hext H Ho) as Hturn.
      rewrite (omap_resolves_Some _ _ _ Hres).
      assert ((g, t, ext) ∉ omap resolves entries) as Hnotin.
      { intros Hin. specialize (Hfresh _ Hin). simpl in Hfresh.
        assert (flag ext (pair_at (<[Z.to_nat g :=
                  <[t := set_flag ext (pair_at go (Z.to_nat g) t)]> orders]> go)
                  (Z.to_nat g) t) = true) as Htrue.
        { apply Hturn; [exact Hext|]. right. rewrite Z2Nat.id by lia. reflexivity. }
        congruence. }
      split; [exact Hend|]. split; [rewrite Hlen; apply length_insert|].
      split; [rewrite Hc; cbn [length]; lia|].
      split; [constructor; assumption|].
      split; [constructor; [right; rewrite Hres; eauto | exact Hall]|].
      split; [constructor; assumption|].
      split; [|split].
      * intros x Hx. apply elem_of_cons in Hx as [->|Hx]; [exact Hf|].
        pose proof (Hfresh _ Hx) as Hfx.
        rewrite Forall_forall in Hvalid. destruct (Hvalid _ Hx) as (_ & _ & Hxext).
        destruct (flag x.2 (pair_at go (Z.to_nat x.1.1) x.1.2)) eqn:E; [|reflexivity].
        assert (flag x.2 (pair_at (<[Z.to_nat g :=
                  <[t := set_flag ext (pair_at go (Z.to_nat g) t)]> orders]> go)
                  (Z.to_nat x.1.1) x.1.2) = true) as Htrue
          by (apply Hturn; [exact Hxext | left; exact E]).
        congruence.
      * intros g' t' ext' Hext'. rewrite Hflags by assumption.
        rewrite Hturn by assumption. rewrite elem_of_cons. tauto.
      * intros Hstored. apply Hne. intros g' orders' t' p' Hg' Hp'.
        destruct (decide (g' = Z.to_nat g)) as [->|Hgne].
        -- rewrite list_lookup_insert_eq in Hg' by (apply lookup_lt_Some in Ho; exact Ho).
           injection Hg' as <-.
           destruct (decide (t' = t)) as [->|Htne].
           ++ rewrite lookup_insert_eq in Hp'. injection Hp' as <-.
              apply set_flag_nonempty.
           ++ rewrite lookup_insert_ne in Hp' by auto. eapply Hstored; eassumption.
        -- rewrite list_lookup_insert_ne in Hg' by auto. eapply Hstored; eassumption.
Qed.

(** A decode pass goes through when every entry is a directory or a regular
    file resolving to a valid triple, no triple comes twice, and no
    extraction fails. *)
Lemma decode_all_fresh (P : Platform) (d : gostring) (tcGroups : list TestcaseGroup)
    (entries : list TarEntry) :
  forall (go : list Orders) (c : Z) (fs : FS),
  (forall n base, io_fault P n base = None) ->
  length go = length tcGroups ->
  is_Some (fs !! d) ->
  Forall (fun e => Typeflag e = TypeDir \/ is_Some (resolves e)) entries ->
  Forall (valid_triple tcGroups) (omap resolves entries) ->
  NoDup (omap resolves entries) ->
  (forall x, x ∈ omap resolves entries ->
     flag x.2 (pair_at go (Z.to_nat x.1.1) x.1.2) = false) ->
  exists fs' go' c',
    decode P d tcGroups entries TarEOF go c fs = (fs', Ok (go', c')).
Proof.
  induction entries as [|header entries IH];
    intros go c fs Hio Hlen Hd Hall Hvalid Hnd Hfresh; simpl.
  - eauto.
  - apply Forall_cons in Hall as [Hh Hall].
    destruct Hh as [Hty | [[[g t] ext] Hres]].
    + destruct (decode_entry_dir P d tcGroups header go c fs Hty) as [-> Hres].
      rewrite (omap_resolves_None _ _ Hres) in Hvalid, Hnd, Hfresh.
      apply IH; assumption.
    + rewrite (omap_resolves_Some _ _ _ Hres) in Hvalid, Hnd, Hfresh.
      apply Forall_cons in Hvalid as [Hv Hvalid].
      apply NoDup_cons in Hnd as [Hnotin Hnd].
      pose proof (Hfresh _ (list_elem_of_here _ _)) as Hf. simpl in Hf.
      destruct (decode_entry_fresh P d tcGroups header go c fs g t ext
                  Hres Hv Hlen Hf Hd (Hio _ _)) as (orders & fs1 & Ho & Hd1 & ->).
      pose proof Hv as (Hg & Ht & Hext). simpl in Hg, Ht, Hext.
      apply IH; try assumption.
      * rewrite length_insert. exact Hlen.
      * intros x Hx.
        rewrite Forall_forall in Hvalid. destruct (Hvalid _ Hx) as (Hxg & _ & Hxext).
        match goal with |- ?b = false => destruct b eqn:E; [|reflexivity] end.
        pose proof (Hfresh _ (list_elem_of_further _ _ _ Hx)) as Hfx.
        apply (flag_after_turn go orders g t ext) in E; try assumption; [|lia].
        destruct E as [E | E]; [congruence|].
        exfalso. apply Hnotin. rewrite Z2Nat.id in E by lia.
        destruct x as [[xg xt] xext]. simpl in E. rewrite <- E. exact Hx.
Qed.

(** * Ingestion as a whole *)

Lemma pair_at_no_orders (tcGroups : list TestcaseGroup) (g : nat) (t : Z) :
  pair_at (no_orders tcGroups) g t = empty_pair.
Proof.
  unfold pair_at, no_orders. rewrite list_lookup_fmap.
  destruct (tcGroups !! g); simpl; [rewrite lookup_empty|]; reflexivity.
Qed.

Lemma stored_nonempty_no_orders (tcGroups : list TestcaseGroup) :
  stored_nonempty (no_orders tcGroups).
Proof.
  intros g orders t p Hg Hp. unfold no_orders in Hg. rewrite list_lookup_fmap in Hg.
  destruct (tcGroups !! g); simpl in Hg; [|discriminate].
  injection Hg as <-. rewrite lookup_empty in Hp. discriminate.
Qed.

(** After a decode pass of the whole archive that went through, the orders
    kept for a group are those the files of the archive refer to, and the
    flags of an order tell which of its two files the archive has. *)
Lemma decode_referenced (P : Platform) (d : gostring) (tcGroups : list TestcaseGroup)
    (entries : list TarEntry) (ending : TarEnd) (fs fs' : FS)
    (go : list Orders) (count : Z) :
  decode P d tcGroups entries ending (no_orders tcGroups) 0 fs = (fs', Ok (go, count)) ->
  length go = length tcGroups
  /\ count = Z.of_nat (length (omap resolves entries))
  /\ forall i orders, go !! i = Some orders ->
       forall t,
         (is_Some (orders !! t) <-> referenced entries i t)
         /\ (forall p, orders !! t = Some p ->
               (has_in p = true <-> has_file entries i t (str "in"))
               /\ (has_out p = true <-> has_file entries i t (str "out"))).
Proof.
  intros Hdec.
  destruct (decode_Ok_state _ _ _ _ _ _ _ _ _ _ _ Hdec)
    as (_ & Hlen & Hc & _ & _ & _ & _ & Hflags & Hne).
  specialize (Hne (stored_nonempty_no_orders tcGroups)).
  split; [rewrite Hlen; unfold no_orders; apply length_map|].
  split; [lia|].
  intros i orders Hi t.
  assert (forall ext, ext = str "in" \/ ext = str "out" ->
            flag ext (default empty_pair (orders !! t)) = true
            <-> has_file entries i t ext) as Hf.
  { intros ext Hext. specialize (Hflags i t ext Hext).
    unfold pair_at at 1 in Hflags. rewrite Hi in Hflags. rewrite Hflags.
    rewrite pair_at_no_orders. unfold has_file.
    split; [intros [Hx|Hx]; [destruct Hext as [-> | ->]; discriminate Hx | exact Hx] | auto]. }
  pose proof (Hf (str "in") (or_introl eq_refl)) as Hin.
  pose proof (Hf (str "out") (or_intror eq_refl)) as Hout.
  split.
  - unfold referenced. rewrite <- Hin, <- Hout. split.
    + intros [p Hp]. rewrite Hp. simpl.
      specialize (Hne _ _ _ _ Hi Hp). apply orb_true_iff in Hne. exact Hne.
    + destruct (orders !! t) as [p|]; [eauto|].
      intros [Hx|Hx]; discriminate Hx.
  - intros p Hp. rewrite Hp in Hin, Hout. simpl in Hin, Hout. auto.
Qed.

(** Ingestion stops at the first entry whose turn fails, with the error of
    that turn; the filesystem and the caller's groups are as before. *)
Lemma ingest_stops_at (P : Platform) (tr : TarReader) (tcGroups : list TestcaseGroup)
    (fs fs0 fs1 fs2 : FS) (d : gostring) (pre rest : list TarEntry) (header : TarEntry)
    (go1 : list Orders) (c1 : Z) (err : error) :
  os.MkdirTemp P (extractBase P) (str "testcase-bundle-") fs = (fs0, Some d) ->
  tr_entries tr = pre ++ header :: rest ->
  decode P d tcGroups pre TarEOF (no_orders tcGroups) 0 fs0 = (fs1, Ok (go1, c1)) ->
  decode_entry P d tcGroups header go1 c1 fs1 = (fs2, Err err) ->
  readTestcaseFromTarGz P tr tcGroups fs = (fs, tcGroups, Err err).
Proof.
  intros Hmk Hentries Hpre Hturn.
  rewrite (readTestcaseFromTarGz_scratch _ _ _ _ _ _ Hmk).
  unfold readTestcase_body. fold (no_orders tcGroups).
  rewrite Hentries, decode_app, Hpre. simpl. rewrite Hturn. reflexivity.
Qed.

(** Ingestion after a decode pass that went through: the check of the
    count, then the final validation. *)
Lemma ingest_after_decode (P : Platform) (tr : TarReader) (tcGroups : list TestcaseGroup)
    (fs fs0 fs1 : FS) (d : gostring) (go : list Orders) (count : Z) :
  os.MkdirTemp P (extractBase P) (str "testcase-bundle-") fs = (fs0, Some d) ->
  decode P d tcGroups (tr_entries tr) (tr_end tr) (no_orders tcGroups) 0 fs0
  = (fs1, Ok (go, count)) ->
  readTestcaseFromTarGz P tr tcGroups fs
  = if count =? 0 then (fs, tcGroups, Err ErrNoTestcases)
    else match reconcile P 0 go tcGroups with
         | (tcGroups', Some err) => (fs, tcGroups', Err err)
         | (tcGroups', None) => (fs, tcGroups', Ok tcGroups')
         end.
Proof.
  intros Hmk Hdec.
  rewrite (readTestcaseFromTarGz_scratch _ _ _ _ _ _ Hmk).
  unfold readTestcase_body. fold (no_orders tcGroups). rewrite Hdec.
  destruct (count =? 0); [reflexivity|].
  destruct (reconcile P 0 go tcGroups) as [tc' [err|]]; reflexivity.
Qed.

(** No error of the decoding is one of the errors raised before it. *)
Lemma decode_entry_error (P : Platform) (d : gostring) (tcGroups : list TestcaseGroup)
    (header : TarEntry) (go : list Orders) (c : Z) (fs fs' : FS) (err : error) :
  decode_entry P d tcGroups header go c fs = (fs', Err err) -> early_error err = false.
Proof.
  unfold decode_entry. destruct (Typeflag header).
  - discriminate.
  - destruct (validateBundleFilename (Name header)) as [e|] eqn:Ev.
    + intros [= _ <-].
      destruct (validateBundleFilename_Some _ _ Ev) as [-> | [-> | ->]]; reflexivity.
    + destruct (parseTestcaseFilename _) as [[[g t] ext]|e] eqn:Ep.
      * destruct (orb _ _); [intros [= _ <-]; reflexivity|].
        destruct (go !! Z.to_nat g); [|intros [= _ <-]; reflexivity].
        destruct (mark _ _ _ _ _) as [p'|e] eqn:Em.
        -- unfold extract. destruct (fs !! d); [|intros [= _ <-]; reflexivity].
           destruct (io_fault P c _) as [[]|]; try discriminate; intros [= _ <-]; reflexivity.
        -- intros [= _ <-]. unfold mark in Em.
           repeat match type of Em with
                  | (if ?b then _ else _) = _ => destruct b
                  end; try discriminate; injection Em as <-; reflexivity.
      * intros [= _ <-]. unfold parseTestcaseFilename in Ep.
        repeat match type of Ep with
               | (if ?b then _ else _) = _ => destruct b
               | match ?o with Some _ => _ | None => _ end = _ => destruct o
               end; try discriminate; injection Ep as <-; reflexivity.
  - intros [= _ <-]. reflexivity.
Qed.

Lemma decode_error (P : Platform) (d : gostring) (tcGroups : list TestcaseGroup)
    (entries : list TarEntry) (ending : TarEnd) :
  forall (go : list Orders) (c : Z) (fs fs' : FS) (err : error),
  decode P d tcGroups entries ending go c fs = (fs', Err err) -> early_error err = false.
Proof.
  induction entries as [|header entries IH]; intros go c fs fs' err; simpl.
  - destruct ending; [discriminate | intros [= _ <-]; reflexivity].
  - destruct (decode_entry P d tcGroups header go c fs) as [fs1 [[go1 c1]|e]] eqn:He.
    + apply IH.
    + intros [= _ <-]. eapply decode_entry_error. exact He.
Qed.

Lemma reconcile_error (P : Platform) (groupOrders : list Orders) :
  forall (i : nat) (tcGroups tcGroups' : list TestcaseGroup) (err : error),
  reconcile P i groupOrders tcGroups = (tcGroups', Some err) -> early_error err = false.
Proof.
  induction groupOrders as [|orders gos IH]; intros i tc tc' err; simpl; [discriminate|].
  destruct (reconcile_group P i orders tc) as [tc1 [e|]] eqn:Hg.
  - intros [= _ <-]. unfold reconcile_group in Hg.
    repeat match type of Hg with
           | (if ?b then _ else _) = _ => destruct b
           | match ?o with inl _ => _ | inr _ => _ end = _ => destruct o
           | match ?o with Some _ => _ | None => _ end = _ => destruct o
           end; try discriminate; injection Hg as _ <-; reflexivity.
  - apply IH.
Qed.

Lemma readTestcaseFromTarGz_error (P : Platform) (tr : TarReader)
    (tcGroups : list TestcaseGroup) (fs : FS) (err : error) :
  (readTestcaseFromTarGz P tr tcGroups fs).2 = Err err -> early_error err = false.
Proof.
  unfold readTestcaseFromTarGz.
  destruct (os.MkdirTemp _ _ _ _) as [fs0 [d|]]; [|intros [= <-]; reflexivity].
  unfold readTestcase_body.
  destruct (decode _ _ _ _ _ _ _ _) as [fs1 [[go c]|e]] eqn:Hd; simpl.
  - destruct (c =? 0); [intros [= <-]; reflexivity|].
    destruct (reconcile P 0 go tcGroups) as [tc' [e|]] eqn:Hr; simpl; [|discriminate].
    intros [= <-]. eapply reconcile_error. exact Hr.
  - intros [= <-]. eapply decode_error. exact Hd.
Qed.

(** The filesystem after ingestion is the filesystem before it. *)
Lemma readTestcaseFromTarGz_frame (P : Platform) (tr : TarReader)
    (tcGroups : list TestcaseGroup) (fs : FS) :
  (readTestcaseFromTarGz P tr tcGroups fs).1.1 = fs.
Proof.
  destruct (os.MkdirTemp P (extractBase P) (str "testcase-bundle-") fs)
    as [fs0 [d|]] eqn:Hmk.
  - rewrite (readTestcaseFromTarGz_scratch P tr tcGroups fs fs0 d Hmk). reflexivity.
  - unfold readTestcaseFromTarGz. rewrite Hmk.
    apply MkdirTemp_None in Hmk. subst fs0. reflexivity.
Qed.

Lemma GetTestcaseBundleFromArchive_frame (P : Platform) (filename : gostring)
    (data : list byte) (tcGroups : list TestcaseGroup) (fs : FS) :
  (GetTestcaseBundleFromArchive P filename data tcGroups fs).1.1 = fs.
Proof.
  unfold GetTestcaseBundleFromArchive.
  destruct (length data =? 0)%nat; [reflexivity|].
  destruct (strings.HasSuffix _ _); [reflexivity|].
  destruct (_ || _); [|reflexivity].
  destruct (gzip_NewReader P data) as [tr|]; [|reflexivity].
  pose proof (readTestcaseFromTarGz_frame P tr tcGroups fs) as Hread.
  destruct (readTestcaseFromTarGz P tr tcGroups fs) as [[fs1 tc1] [out|e]]; exact Hread.
Qed.

(** * The content hash *)

Lemma Sum256_length (data : list byte) : length (sha256.Sum256 data) = 32%nat.
Proof. unfold sha256.Sum256. rewrite !length_app. reflexivity. Qed.

Lemma hex_digit_lower (n : N) : lower_hex (hex.digit n).
Proof.
  unfold lower_hex, hex.digit.
  destruct (Nat.lt_ge_cases (N.to_nat n) (length hex.hextable)) as [Hlt|Hge].
  - apply list_elem_of_In, nth_In. exact Hlt.
  - rewrite nth_overflow by exact Hge. unfold str; simpl. left.
Qed.

Lemma EncodeToString_length (src : list byte) :
  length (hex.EncodeToString src) = (2 * length src)%nat.
Proof.
  unfold hex.EncodeToString. induction src as [|b src IH]; simpl; [reflexivity|].
  rewrite IH. lia.
Qed.

Lemma EncodeToString_lower (src : list byte) :
  Forall lower_hex (hex.EncodeToString src).
Proof.
  unfold hex.EncodeToString. induction src as [|b src IH]; simpl; [constructor|].
  constructor; [apply hex_digit_lower|]. constructor; [apply hex_digit_lower|]. exact IH.
Qed.

(** What a successful [GetTestcaseBundleFromArchive] returns. *)
Lemma GetTestcaseBundleFromArchive_Ok (P : Platform) (filename : gostring)
    (data : list byte) (tcGroups tcGroups' : list TestcaseGroup) (fs fs' : FS)
    (bundle : TestcaseBundle) :
  GetTestcaseBundleFromArchive P filename data tcGroups fs = (fs', tcGroups', Ok bundle) ->
  exists tr,
    data <> [] /\ detected_format P filename = FormatTarGz
    /\ gzip_NewReader P data = Some tr
    /\ readTestcaseFromTarGz P tr tcGroups fs = (fs', tcGroups', Ok (TestcaseGroups bundle))
    /\ bundle = {| ObjectKey := filename;
                   SHA256 := hex.EncodeToString (sha256.Sum256 data);
                   TestcaseGroups := TestcaseGroups bundle; Version := 0 |}.
Proof.
  unfold GetTestcaseBundleFromArchive, detected_format.
  remember (hex.EncodeToString (sha256.Sum256 data)) as h eqn:Hh. clear Hh.
  destruct (Nat.eqb_spec (length data) 0) as [|Hlen]; [discriminate|].
  assert (data <> []) as Hne by (intros ->; apply Hlen; reflexivity).
  destruct (strings.HasSuffix _ (str ".zip")); [discriminate|].
  destruct (strings.HasSuffix _ (str ".tar.gz")) eqn:E1.
  - cbn [orb]. destruct (gzip_NewReader P data) as [tr|]; [|discriminate].
    destruct (readTestcaseFromTarGz P tr tcGroups fs) as [[fs1 tc1] [out|e]] eqn:Hr;
      [|discriminate].
    intros Heq. injection Heq as <- <- <-. exists tr. auto.
  - cbn [orb]. destruct (strings.HasSuffix _ (str ".tgz")) eqn:E2; [|discriminate].
    destruct (gzip_NewReader P data) as [tr|]; [|discriminate].
    destruct (readTestcaseFromTarGz P tr tcGroups fs) as [[fs1 tc1] [out|e]] eqn:Hr;
      [|discriminate].
    intros Heq. injection Heq as <- <- <-. exists tr. auto.
Qed.

(** * The claims *)

(** ** C8: the scratch extraction area *)

(** C8.  The scratch directory is created before the first entry is decoded
    and removed on every way out: whatever the archive, the declared groups,
    the platform and its faults, the filesystem after [readTestcaseFromTarGz]
    (and after [GetTestcaseBundleFromArchive]) is the filesystem before it.
    When the directory cannot be created the call fails at once, with
    nothing written; when it can, it is a new, empty directory and, after
    any number of entries, all that the decode pass has written lies in it. *)
Theorem C8_scratch_released (P : Platform) (filename : gostring) (data : list byte)
    (tr : TarReader) (tcGroups : list TestcaseGroup) (fs : FS) :
  (readTestcaseFromTarGz P tr tcGroups fs).1.1 = fs
  /\ (GetTestcaseBundleFromArchive P filename data tcGroups fs).1.1 = fs
  /\ match os.MkdirTemp P (extractBase P) (str "testcase-bundle-") fs with
     | (fs0, None) =>
         fs0 = fs
         /\ readTestcaseFromTarGz P tr tcGroups fs = (fs, tcGroups, Err ErrCreateExtractDir)
     | (fs0, Some d) =>
         fs !! d = None /\ fs0 = <[d := ∅]> fs
         /\ forall n,
              delete d (decode P d tcGroups (take n (tr_entries tr)) TarEOF
                               (no_orders tcGroups) 0 fs0).1 = fs
     end.
Proof.
  split; [apply readTestcaseFromTarGz_frame|].
  split; [apply GetTestcaseBundleFromArchive_frame|].
  destruct (os.MkdirTemp P (extractBase P) (str "testcase-bundle-") fs)
    as [fs0 [d|]] eqn:Hmk.
  - destruct (MkdirTemp_Some _ _ _ _ _ _ Hmk) as [Hnone ->].
    split; [exact Hnone|]. split; [reflexivity|].
    intros n. rewrite decode_frame, delete_insert_eq. apply delete_id. exact Hnone.
  - pose proof (MkdirTemp_None _ _ _ _ _ Hmk) as ->. split; [reflexivity|].
    unfold readTestcaseFromTarGz. rewrite Hmk. reflexivity.
Qed.

(** ** C9: the content hash *)

(** C9.  On every successful ingestion the bundle's [SHA256] is the
    lower-case hexadecimal encoding (64 characters) of the SHA-256 digest
    of the whole byte buffer; it depends on nothing but the bytes (any
    other successful ingestion of the same bytes, under another name,
    other groups, another platform or filesystem, yields the same hash),
    and computing it leaves the filesystem as it was. *)
Theorem C9_content_hash (P : Platform) (filename : gostring) (data : list byte)
    (tcGroups tcGroups' : list TestcaseGroup) (fs fs' : FS) (bundle : TestcaseBundle) :
  GetTestcaseBundleFromArchive P filename data tcGroups fs = (fs', tcGroups', Ok bundle) ->
  SHA256 bundle = hex.EncodeToString (sha256.Sum256 data)
  /\ length (sha256.Sum256 data) = 32%nat
  /\ length (SHA256 bundle) = 64%nat
  /\ Forall lower_hex (SHA256 bundle)
  /\ fs' = fs
  /\ forall P2 filename2 tcGroups2 tcGroups2' fs2 fs2' bundle2,
       GetTestcaseBundleFromArchive P2 filename2 data tcGroups2 fs2
       = (fs2', tcGroups2', Ok bundle2) ->
       SHA256 bundle2 = SHA256 bundle.
Proof.
  intros Hok.
  pose proof (GetTestcaseBundleFromArchive_frame P filename data tcGroups fs) as Hfs.
  rewrite Hok in Hfs. simpl in Hfs.
  destruct (GetTestcaseBundleFromArchive_Ok _ _ _ _ _ _ _ _ Hok) as (tr & _ & _ & _ & _ & Hb).
  assert (SHA256 bundle = hex.EncodeToString (sha256.Sum256 data)) as Hsha
    by (rewrite Hb; reflexivity).
  split; [exact Hsha|]. split; [apply Sum256_length|].
  split; [rewrite Hsha, EncodeToString_length, Sum256_length; reflexivity|].
  split; [rewrite Hsha; apply EncodeToString_lower|].
  split; [exact Hfs|].
  intros P2 filename2 tcGroups2 tcGroups2' fs2 fs2' bundle2 Hok2.
  destruct (GetTestcaseBundleFromArchive_Ok _ _ _ _ _ _ _ _ Hok2) as (tr2 & _ & _ & _ & _ & Hb2).
  rewrite Hsha, Hb2. reflexivity.
Qed.

(** The ingestion of a buffer of eight bytes, read as an archive of one
    testcase: the bundle carries the SHA-256 digest of the eight bytes. *)
Lemma C9_content_hash_witness :
  let P := platform_of (gzip_by_magic (archive [file "0_0.in"; file "0_0.out"])) no_fault in
  let r := GetTestcaseBundleFromArchive P (str "testcases.tar.gz") gzip_bytes
             [group 0 "a"] ∅ in
  SHA256 (ingested r)
  = str "87bcdd44f7d4d2605074cefe3f0a5e41dfdab2700c027148a4e8273fb1d4284a"
  /\ length (SHA256 (ingested r)) = 64%nat
  /\ Forall lower_hex (SHA256 (ingested r))
  /\ r.1.1 = ∅.
Proof.
  intros P r.
  destruct (C9_content_hash P (str "testcases.tar.gz") gzip_bytes
              [group 0 "a"] r.1.2 ∅ r.1.1 (ingested r))
    as (H1 & _ & H3 & H4 & H5 & _).
  - vm_compute. reflexivity.
  - split; [|auto]. rewrite H1. vm_compute. reflexivity.
Defined.

(** ** C3: the detection of the format *)

(** C3, as stated, fails: a buffer that carries a zip signature, uploaded
    under a name ending in [.tar.gz], is not refused as an unsupported
    format: it goes to the gzip reader, which refuses it, and the call
    fails with "invalid tar.gz bundle" (a malformed archive). *)
Lemma C3_zip_signature_counterexample :
  let P := platform_of (gzip_by_magic (archive [])) no_fault in
  gzip_NewReader P zip_bytes = None
  /\ (GetTestcaseBundleFromArchive P (str "bundle.tar.gz") zip_bytes [group 0 "a"] ∅).2
     = Err ErrInvalidTarGz
  /\ kind_of ErrInvalidTarGz = MalformedArchive
  /\ kind_of ErrInvalidTarGz <> UnsupportedFormat.
Proof. vm_compute. repeat split; discriminate. Qed.

(** C3, amended.  An empty buffer fails with "empty bundle data".  For a
    non-empty buffer the format is read off the file name (trimmed and
    lower-cased) and off nothing else: a name ending in [.zip] and a name
    ending in neither [.tar.gz] nor [.tgz] fail with an unsupported-format
    error, with the filesystem and the groups untouched and whatever the
    bytes and the gzip reader are; a name ending in [.tar.gz] or [.tgz] goes
    to the gzip reader, fails with "invalid tar.gz bundle" when that refuses
    the buffer, and otherwise returns what the decoding returns, whose
    errors are never those raised before decoding. *)
Theorem C3_format_by_name (P : Platform) (filename : gostring) (data : list byte)
    (tcGroups : list TestcaseGroup) (fs : FS) :
  let r := GetTestcaseBundleFromArchive P filename data tcGroups fs in
  kind_of ErrEmptyBundleData = EmptyBundle
  /\ kind_of ErrZipNotSupported = UnsupportedFormat
  /\ kind_of ErrUnsupportedFormat = UnsupportedFormat
  /\ kind_of ErrInvalidTarGz = MalformedArchive
  /\ match data, detected_format P filename with
     | [], _ => r = (fs, tcGroups, Err ErrEmptyBundleData)
     | _ :: _, FormatZip => r = (fs, tcGroups, Err ErrZipNotSupported)
     | _ :: _, FormatOther => r = (fs, tcGroups, Err ErrUnsupportedFormat)
     | _ :: _, FormatTarGz =>
         match gzip_NewReader P data with
         | None => r = (fs, tcGroups, Err ErrInvalidTarGz)
         | Some tr =>
             r.1 = (readTestcaseFromTarGz P tr tcGroups fs).1
             /\ match r.2 with
                | Ok bundle =>
                    (readTestcaseFromTarGz P tr tcGroups fs).2 = Ok (TestcaseGroups bundle)
                | Err err =>
                    (readTestcaseFromTarGz P tr tcGroups fs).2 = Err err
                    /\ early_error err = false
                end
         end
     end.
Proof.
  intros r. repeat (split; [reflexivity|]).
  subst r. unfold GetTestcaseBundleFromArchive, detected_format.
  remember (hex.EncodeToString (sha256.Sum256 data)) as h eqn:Hh. clear Hh.
  destruct data as [|b data]; [reflexivity|]. cbn [length Nat.eqb].
  destruct (strings.HasSuffix _ (str ".zip")); [reflexivity|].
  assert (forall tr,
    let r := match readTestcaseFromTarGz P tr tcGroups fs with
             | (fs', tcGroups', Err err) => (fs', tcGroups', Err err)
             | (fs', tcGroups', Ok updatedGroups) =>
                 (fs', tcGroups',
                  Ok {| ObjectKey := filename; SHA256 := h;
                        TestcaseGroups := updatedGroups; Version := 0 |})
             end in
    r.1 = (readTestcaseFromTarGz P tr tcGroups fs).1
    /\ match r.2 with
       | Ok bundle => (readTestcaseFromTarGz P tr tcGroups fs).2 = Ok (TestcaseGroups bundle)
       | Err err => (readTestcaseFromTarGz P tr tcGroups fs).2 = Err err
                    /\ early_error err = false
       end) as Hdecode.
  { intros tr. pose proof (readTestcaseFromTarGz_error P tr tcGroups fs) as Herr.
    destruct (readTestcaseFromTarGz P tr tcGroups fs) as [[fs1 tc1] [out|e]]; simpl in *;
      auto. }
  destruct (strings.HasSuffix _ (str ".tar.gz")); cbn [orb].
  - destruct (gzip_NewReader P (b :: data)) as [tr|]; [apply Hdecode | reflexivity].
  - destruct (strings.HasSuffix _ (str ".tgz")); [|reflexivity].
    destruct (gzip_NewReader P (b :: data)) as [tr|]; [apply Hdecode | reflexivity].
Qed.

(** ** C2: version reconciliation *)

Lemma wrap_int_succ (v : Z) : min_int <= v < max_int -> wrap_int (v + 1) = v + 1.
Proof.
  unfold wrap_int, min_int, max_int. intros Hv.
  rewrite Z.mod_small by lia. lia.
Qed.

(** C2, as stated, fails on its first and on its third case.
    - First case.  A problem whose row carries a bundle of version 1 in
      its column [testcase_bundle], and which has no row in
      [testcase_bundles]: the persistence layer reports no bundle for it,
      and the update persists version 2, not 1.
    - Third case.  A problem created through the service has a row of
      version 1 in [testcase_bundles].  An update with another digest
      finds that row and hands the new bundle over with version 2; the
      store refuses a second row for the problem (the unique index on
      [testcase_bundles(problem_id)]), the call returns that error, and
      nothing is persisted. *)
Lemma C2_reconciliation_counterexample :
  let db0 := db_with 1 (problem_of (with_Version (bundle_of "aa") 1)) in
  let db1 := (ProblemService_Create empty_db (problem_of (bundle_of "aa"))).1 in
  GetLatestTestcaseBundle db0 1 = inl ErrNotFound
  /\ (UpdateTestcaseBundle db0 1 (bundle_of "bb")).2 = None
  /\ map row_version (testcase_bundles (UpdateTestcaseBundle db0 1 (bundle_of "bb")).1) = [2]
  /\ GetLatestTestcaseBundle db1 1
     = inr {| ObjectKey := str "testcases.tar.gz"; SHA256 := str "aa";
              TestcaseGroups := []; Version := 1 |}
  /\ UpdateTestcaseBundle db1 1 (bundle_of "bb") = (db1, Some unique_violation)
  /\ map row_version (testcase_bundles db1) = [1].
Proof. vm_compute. repeat split. Qed.

(** C2, amended.  [UpdateTestcaseBundle] first asks for the latest row of
    [testcase_bundles].
    - A row [current] is found: when its digest is not empty and equals the
      new digest the call returns [nil] and leaves the repository as it is;
      otherwise the new bundle is handed to [AddTestcaseBundleVersion] with
      version [current.Version + 1].
    - No row is found: the bundle the problem carries in its own row stands
      in for [current], no digest is compared, and the new bundle is handed
      over with that bundle's version plus one (1 when that version is 0).
    - Any other error, and an error fetching the problem, is returned.
    The sum is that of a 64-bit [int]. *)
Theorem C2_version_reconciliation {R : Type} `{ProblemRepository R}
    (repo : R) (problemID : Z) (bundle : TestcaseBundle) :
  match GetLatestTestcaseBundle repo problemID with
  | inr current =>
      if decide (SHA256 current <> [] /\ SHA256 current = SHA256 bundle)
      then UpdateTestcaseBundle repo problemID bundle = (repo, None)
      else UpdateTestcaseBundle repo problemID bundle
           = AddTestcaseBundleVersion repo problemID
               (with_Version bundle (wrap_int (Version current + 1)))
  | inl ErrNotFound =>
      match Get repo problemID with
      | inr problem =>
          UpdateTestcaseBundle repo problemID bundle
          = AddTestcaseBundleVersion repo problemID
              (with_Version bundle (wrap_int (Version (p_TestcaseBundle problem) + 1)))
      | inl fetchErr => UpdateTestcaseBundle repo problemID bundle = (repo, Some fetchErr)
      end
  | inl (ErrOther code) =>
      UpdateTestcaseBundle repo problemID bundle = (repo, Some (ErrOther code))
  end.
Proof.
  assert (forall current err_nil,
            reconcile_version repo problemID bundle current err_nil
            = if err_nil && negb (gostring_eqb (SHA256 current) [])
                 && gostring_eqb (SHA256 current) (SHA256 bundle)
              then (repo, None)
              else AddTestcaseBundleVersion repo problemID
                     (with_Version bundle (wrap_int (Version current + 1)))) as Hrv.
  { intros current err_nil. unfold reconcile_version.
    destruct (_ && _); [reflexivity|].
    destruct (Z.eqb_spec (Version current) 0) as [->|_]; reflexivity. }
  unfold UpdateTestcaseBundle.
  destruct (GetLatestTestcaseBundle repo problemID) as [[|code]|current]; simpl.
  - destruct (Get repo problemID) as [fetchErr|problem]; [reflexivity|].
    rewrite Hrv. reflexivity.
  - reflexivity.
  - rewrite Hrv. simpl.
    destruct (decide _) as [[Hne Heq]|Hn].
    + apply gostring_eqb_neq in Hne. apply gostring_eqb_eq in Heq.
      rewrite Hne, Heq. reflexivity.
    + destruct (gostring_eqb (SHA256 current) []) eqn:E1; [reflexivity|].
      destruct (gostring_eqb (SHA256 current) (SHA256 bundle)) eqn:E2; [|reflexivity].
      exfalso. apply Hn. split; [apply gostring_eqb_neq | apply gostring_eqb_eq]; assumption.
Qed.

(** The cases on the relational store.  For a problem without bundle
    (version 0 in its column, no row) the first update persists version 1.
    For a problem created through the service the same digest again
    changes nothing. *)
Example UpdateTestcaseBundle_cases :
  let bare := db_with 1 (problem_of empty_bundle) in
  let db1 := (UpdateTestcaseBundle bare 1 (bundle_of "aa")).1 in
  let created := (ProblemService_Create empty_db (problem_of (bundle_of "aa"))).1 in
  wrap_int (0 + 1) = 1
  /\ map row_version (testcase_bundles db1) = [1]
  /\ UpdateTestcaseBundle db1 1 (bundle_of "aa") = (db1, None)
  /\ UpdateTestcaseBundle created 1 (bundle_of "aa") = (created, None).
Proof. vm_compute. repeat split. Qed.

(** ** C5: the decimal fields *)

Lemma decimal_value_zeros (k : nat) (s : gostring) :
  decimal_value (repeat "0"%char k ++ s) = decimal_value s.
Proof.
  unfold decimal_value. rewrite fold_left_app.
  assert (fold_left (fun acc c => acc * 10 + strconv.digit_val c) (repeat "0"%char k) 0 = 0)
    as ->; [|reflexivity].
  induction k as [|k IH]; simpl; [reflexivity | exact IH].
Qed.

Lemma all_digits_zeros (k : nat) (s : gostring) :
  all_digits s -> all_digits (repeat "0"%char k ++ s).
Proof.
  intros Hs. apply Forall_app. split; [|exact Hs].
  apply Forall_forall. intros c Hc.
  apply list_elem_of_In, repeat_spec in Hc. subst c. reflexivity.
Qed.

(** In the grammar, leading zeros may be put before either field. *)
Lemma in_grammar_zeros (base group testcase ext : gostring) (k1 k2 : nat) :
  in_grammar base group testcase ext ->
  in_grammar (repeat "0"%char k1 ++ group ++ str "_"
                ++ repeat "0"%char k2 ++ testcase ++ str "." ++ ext)
             (repeat "0"%char k1 ++ group) (repeat "0"%char k2 ++ testcase) ext.
Proof.
  intros (_ & Hg & Ht & Hallg & Hallt & Hext).
  split; [rewrite <- !app_assoc; reflexivity|].
  split; [destruct group; [contradiction | destruct k1; discriminate]|].
  split; [destruct testcase; [contradiction | destruct k2; discriminate]|].
  split; [apply all_digits_zeros; exact Hallg|].
  split; [apply all_digits_zeros; exact Hallt | exact Hext].
Qed.

(** C5, as stated, fails: [9223372036854775808_0.in] is in the grammar and
    passes the validator, but its group field is one more than the largest
    [int], [strconv.Atoi] reports a range error, and the parser refuses the
    name. *)
Lemma C5_magnitude_counterexample :
  testcaseFilenamePattern_MatchString (str "9223372036854775808_0.in") = true
  /\ validateBundleFilename (str "9223372036854775808_0.in") = None
  /\ decimal_value (str "9223372036854775808") = max_int + 1
  /\ parseTestcaseFilename (str "9223372036854775808_0.in")
     = Err (ErrInvalidFilename (str "9223372036854775808_0.in")).
Proof. vm_compute. repeat split. Qed.

(** C5, amended.  Take a base name of the grammar.  Its two fields denote
    non-negative numbers, read in base ten, and leading zeros count for
    nothing: the name with any number of zeros put before either field is
    treated as the name itself.
    - When both numbers fit a 64-bit [int] (they are at most [2^63 - 1]),
      the parser returns the two numbers and the extension.
    - When one of them does not, the parser refuses the name with the
      invalid-filename error, which names the base name. *)
Theorem C5_decimal_fields (base group testcase ext : gostring) (k1 k2 : nat) :
  in_grammar base group testcase ext ->
  let padded :=
    repeat "0"%char k1 ++ group ++ str "_" ++ repeat "0"%char k2 ++ testcase
      ++ str "." ++ ext in
  0 <= decimal_value group /\ 0 <= decimal_value testcase
  /\ (decimal_value group <= max_int -> decimal_value testcase <= max_int ->
      parseTestcaseFilename base = Ok (decimal_value group, decimal_value testcase, ext)
      /\ parseTestcaseFilename padded
         = Ok (decimal_value group, decimal_value testcase, ext))
  /\ (max_int < decimal_value group \/ max_int < decimal_value testcase ->
      parseTestcaseFilename base = Err (ErrInvalidFilename base)
      /\ parseTestcaseFilename padded = Err (ErrInvalidFilename padded)
      /\ kind_of (ErrInvalidFilename base) = InvalidFilename
      /\ Error (ErrInvalidFilename base) = str "invalid testcase filename: " ++ base).
Proof.
  intros Hb padded.
  pose proof Hb as (_ & _ & _ & Hallg & Hallt & _).
  pose proof (parseTestcaseFilename_grammar _ _ _ _ Hb) as Hbase.
  pose proof (parseTestcaseFilename_grammar _ _ _ _ (in_grammar_zeros _ _ _ _ k1 k2 Hb))
    as Hpadded.
  rewrite !decimal_value_zeros in Hpadded. fold padded in Hpadded.
  split; [apply decimal_value_nonneg; exact Hallg|].
  split; [apply decimal_value_nonneg; exact Hallt|].
  split.
  - intros Hg Ht. apply Z.leb_le in Hg, Ht.
    rewrite Hbase, Hpadded, Hg, Ht. split; reflexivity.
  - intros Hlarge.
    assert ((decimal_value group <=? max_int) && (decimal_value testcase <=? max_int)
            = false) as Hno.
    { apply andb_false_iff. destruct Hlarge as [Hg | Ht];
        [left | right]; apply Z.leb_gt; assumption. }
    rewrite Hbase, Hpadded, Hno. repeat split; reflexivity.
Qed.

Lemma in_grammar_2_11_out :
  in_grammar (str "2_11.out") (str "2") (str "11") (str "out").
Proof.
  split; [reflexivity|]. split; [discriminate|]. split; [discriminate|].
  split; [repeat constructor|]. split; [repeat constructor | right; reflexivity].
Qed.

(** [2_11.out] and [002_0011.out] both parse to group 2, testcase 11. *)
Lemma C5_decimal_fields_witness :
  parseTestcaseFilename (str "2_11.out") = Ok (2, 11, str "out")
  /\ parseTestcaseFilename (str "002_0011.out") = Ok (2, 11, str "out")
  /\ 0 <= 2 /\ 0 <= 11.
Proof.
  destruct (C5_decimal_fields (str "2_11.out") (str "2") (str "11") (str "out") 2 2
              in_grammar_2_11_out) as (Hg & Ht & Hfit & _).
  destruct Hfit as [H1 H2]; [vm_compute; discriminate | vm_compute; discriminate|].
  split; [exact H1|]. split; [exact H2|]. split; [exact Hg | exact Ht].
Defined.

(** ** C7: the filename validator *)

Lemma grammar_no_backslash_elem (base group testcase ext : gostring) :
  in_grammar base group testcase ext -> "\"%char ∉ base.
Proof.
  intros Hb. apply (grammar_free _ _ _ _ _ Hb); [reflexivity|].
  simpl. rewrite !not_elem_of_cons. repeat split; try discriminate. apply not_elem_of_nil.
Qed.

(** The turn of a regular file whose name the validator refuses. *)
Lemma decode_entry_invalid (P : Platform) (d : gostring) (tcGroups : list TestcaseGroup)
    (header : TarEntry) (go : list Orders) (c : Z) (fs : FS) (err : error) :
  Typeflag header = TypeReg ->
  validateBundleFilename (Name header) = Some err ->
  decode_entry P d tcGroups header go c fs = (fs, Err err).
Proof. intros Hty Hv. unfold decode_entry. rewrite Hty, Hv. reflexivity. Qed.

(** The turn of a regular file whose name the parser refuses. *)
Lemma decode_entry_unparsed (P : Platform) (d : gostring) (tcGroups : list TestcaseGroup)
    (header : TarEntry) (go : list Orders) (c : Z) (fs : FS) (err : error) :
  Typeflag header = TypeReg ->
  validateBundleFilename (Name header) = None ->
  parseTestcaseFilename (path.Base (path.Clean (Name header))) = Err err ->
  decode_entry P d tcGroups header go c fs = (fs, Err err).
Proof. intros Hty Hv Hp. unfold decode_entry. rewrite Hty, Hv, Hp. reflexivity. Qed.

(** C7, as stated, fails on its second half: the regular file
    [0_18446744073709551616.out] matches the grammar and passes
    [validateBundleFilename], but its testcase field does not fit an [int]:
    no triple comes out, and ingestion fails with "invalid testcase
    filename". *)
Lemma C7_matching_name_counterexample :
  let P := platform_of (fun _ => None) no_fault in
  let name := "0_18446744073709551616.out"%string in
  testcaseFilenamePattern_MatchString (str name) = true
  /\ validateBundleFilename (str name) = None
  /\ resolves (file name) = None
  /\ readTestcaseFromTarGz P (archive [file name]) [group 0 "a"] ∅
     = (∅, [group 0 "a"], Err (ErrInvalidFilename (str name))).
Proof. vm_compute. repeat split. Qed.

(** C7, amended.  Take a regular file that the decode pass reaches.  With
    [clean] its name after [path.Clean]:
    - if [clean] contains a slash or a backslash, or its base name is not in
      the grammar, then the validator refuses the name and ingestion fails
      with that error, which is "bundle must not contain directories" or an
      invalid-filename error;
    - if [clean] is in the grammar, the validator accepts the name, and
      when both fields fit a 64-bit [int] the file resolves to the triple
      of the two values and the extension [in] or [out]; when one does not,
      ingestion fails with an invalid-filename error. *)
Theorem C7_filename_validation (P : Platform) (tr : TarReader)
    (tcGroups : list TestcaseGroup) (fs fs0 fs1 : FS) (d : gostring)
    (pre rest : list TarEntry) (header : TarEntry) (go1 : list Orders) (c1 : Z) :
  os.MkdirTemp P (extractBase P) (str "testcase-bundle-") fs = (fs0, Some d) ->
  tr_entries tr = pre ++ header :: rest ->
  decode P d tcGroups pre TarEOF (no_orders tcGroups) 0 fs0 = (fs1, Ok (go1, c1)) ->
  Typeflag header = TypeReg ->
  let clean := path.Clean (Name header) in
  ((path.slash ∈ clean \/ "\"%char ∈ clean
    \/ ~ (exists g t ext, in_grammar (path.Base clean) g t ext)) ->
   exists err,
     validateBundleFilename (Name header) = Some err
     /\ (err = ErrContainsDirectories \/ kind_of err = InvalidFilename)
     /\ readTestcaseFromTarGz P tr tcGroups fs = (fs, tcGroups, Err err))
  /\ (forall g t ext,
        in_grammar clean g t ext ->
        validateBundleFilename (Name header) = None
        /\ path.Base clean = clean
        /\ (ext = str "in" \/ ext = str "out")
        /\ if (decimal_value g <=? max_int) && (decimal_value t <=? max_int)
           then resolves header = Some (decimal_value g, decimal_value t, ext)
                /\ 0 <= decimal_value g /\ 0 <= decimal_value t
           else readTestcaseFromTarGz P tr tcGroups fs
                = (fs, tcGroups, Err (ErrInvalidFilename clean))).
Proof.
  intros Hmk Hentries Hpre Hty clean. split.
  - intros Hbad.
    destruct (validateBundleFilename (Name header)) as [err|] eqn:Hv.
    + exists err. split; [reflexivity|]. split.
      * destruct (validateBundleFilename_Some _ _ Hv) as [-> | [-> | ->]]; auto.
      * eapply ingest_stops_at; try eassumption.
        apply decode_entry_invalid; assumption.
    + exfalso. apply validateBundleFilename_None in Hv as (g & t & ext & Hg).
      fold clean in Hg. destruct Hbad as [Hs | [Hb | Hn]].
      * exact (grammar_no_slash _ _ _ _ Hg Hs).
      * exact (grammar_no_backslash_elem _ _ _ _ Hg Hb).
      * apply Hn. destruct (grammar_Clean_Base _ _ _ _ Hg) as [_ ->]. eauto.
  - intros g t ext Hg.
    assert (validateBundleFilename (Name header) = None) as Hv
      by (apply validateBundleFilename_None; eauto).
    destruct (grammar_Clean_Base _ _ _ _ Hg) as [_ HB].
    pose proof Hg as (_ & _ & _ & Hallg & Hallt & Hext).
    split; [exact Hv|]. split; [exact HB|]. split; [exact Hext|].
    pose proof (parseTestcaseFilename_grammar _ _ _ _ Hg) as Hp.
    destruct (_ && _).
    + split; [|split; apply decimal_value_nonneg; assumption].
      apply resolves_Some. unfold clean in HB. rewrite HB. auto.
    + eapply ingest_stops_at; try eassumption.
      apply decode_entry_unparsed; try assumption.
      unfold clean in HB. rewrite HB. exact Hp.
Qed.

(** After the file [0_0.in], the files [a/0_0.out], [0_0.txt] and
    [0\_1.in] are refused, and [./0_1.out], which cleans to [0_1.out],
    resolves to group 0, testcase 1, kind [out]. *)
Lemma C7_filename_validation_witness :
  let P := platform_of (fun _ => None) no_fault in
  let groups := [group 0 "a"] in
  (exists err,
     validateBundleFilename (str "a/0_0.out") = Some err
     /\ (err = ErrContainsDirectories \/ kind_of err = InvalidFilename)
     /\ readTestcaseFromTarGz P (archive [file "0_0.in"; file "a/0_0.out"]) groups ∅
        = (∅, groups, Err err))
  /\ resolves (file "./0_1.out") = Some (0, 1, str "out").
Proof.
  set (P := platform_of (fun _ => None) no_fault).
  set (d := str "./testcase-bundle-1").
  set (fs0 := <[d := ∅]> (∅ : FS)).
  set (pre := [file "0_0.in"]).
  set (D := decode P d [group 0 "a"] pre TarEOF (no_orders [group 0 "a"]) 0 fs0).
  split.
  - apply (C7_filename_validation P (archive [file "0_0.in"; file "a/0_0.out"])
             [group 0 "a"] ∅ fs0 D.1 d pre [] (file "a/0_0.out")
             (decoded D).1 (decoded D).2);
      [reflexivity | reflexivity | vm_compute; reflexivity | reflexivity |].
    left. change (path.slash ∈ str "a/0_0.out"). apply list_elem_of_In. simpl. tauto.
  - assert (in_grammar (path.Clean (Name (file "./0_1.out")))
                       (str "0") (str "1") (str "out")) as Hg.
    { split; [reflexivity|]. split; [discriminate|]. split; [discriminate|].
      split; [repeat constructor|]. split; [repeat constructor | right; reflexivity]. }
    refine (proj1 (proj2 (proj2 (proj2 (proj2
      (C7_filename_validation P (archive [file "0_0.in"; file "./0_1.out"])
         [group 0 "a"] ∅ fs0 D.1 d pre [] (file "./0_1.out")
         (decoded D).1 (decoded D).2 _ _ _ _) _ _ _ Hg))))); reflexivity.
Defined.

(** ** C6: duplicate files *)

Lemma fmt_d_nonneg (n : Z) : 0 <= n -> fmt_d n = strconv.Itoa n.
Proof. intros Hn. unfold fmt_d. destruct (Z.ltb_spec n 0); [lia | reflexivity]. Qed.

(** C6, as stated, fails on the name in the message.  Of the two files
    [00_0.in] and [000_0.in] the second is refused as a duplicate, and the
    message names [0_0.in]: it is written from the numbers parsed, not from
    the name of the offending file, and here no file of the archive has
    that name. *)
Lemma C6_offending_name_counterexample :
  let P := platform_of (fun _ => None) no_fault in
  let entries := [file "00_0.in"; file "000_0.in"] in
  (readTestcaseFromTarGz P (archive entries) [group 0 "a"] ∅).2
  = Err (ErrDuplicateInput 0 0)
  /\ Error (ErrDuplicateInput 0 0) = str "duplicate testcase input: 0_0.in"
  /\ Error (ErrDuplicateInput 0 0) <> str "duplicate testcase input: 000_0.in"
  /\ str "0_0.in" ∉ map Name entries.
Proof.
  intros P entries.
  split; [vm_compute; reflexivity|]. split; [vm_compute; reflexivity|].
  split; [vm_compute; discriminate|].
  unfold entries. simpl. rewrite !not_elem_of_cons.
  split; [discriminate|]. split; [discriminate | apply not_elem_of_nil].
Qed.

(** C6, amended.  When the decode pass reaches a regular file that
    resolves to the (group, testcase, kind) an earlier file of the archive
    resolved to, ingestion fails with the duplicate error of that kind,
    whose message names [<group>_<testcase>.<kind>] written from the
    numbers parsed, whatever the names of the two files.  The filesystem
    and the caller's groups are as before the call. *)
Theorem C6_duplicate_file (P : Platform) (tr : TarReader)
    (tcGroups : list TestcaseGroup) (fs fs0 fs1 : FS) (d : gostring)
    (pre rest : list TarEntry) (first second : TarEntry)
    (go1 : list Orders) (c1 : Z) (g t : Z) (ext : gostring) :
  os.MkdirTemp P (extractBase P) (str "testcase-bundle-") fs = (fs0, Some d) ->
  tr_entries tr = pre ++ second :: rest ->
  decode P d tcGroups pre TarEOF (no_orders tcGroups) 0 fs0 = (fs1, Ok (go1, c1)) ->
  first ∈ pre ->
  resolves first = Some (g, t, ext) ->
  resolves second = Some (g, t, ext) ->
  readTestcaseFromTarGz P tr tcGroups fs = (fs, tcGroups, Err (ErrDuplicate ext g t))
  /\ kind_of (ErrDuplicate ext g t) = DuplicateTestcaseFile
  /\ Error (ErrDuplicate ext g t)
     = str "duplicate testcase "
         ++ (if gostring_eqb ext (str "in") then str "input" else str "output")
         ++ str ": " ++ strconv.Itoa g ++ str "_" ++ strconv.Itoa t ++ str "." ++ ext.
Proof.
  intros Hmk Hentries Hpre Hin Hfirst Hsecond.
  destruct (decode_Ok_state _ _ _ _ _ _ _ _ _ _ _ Hpre)
    as (_ & Hlen & _ & Hvalid & _ & _ & _ & Hflags & _).
  assert ((g, t, ext) ∈ omap resolves pre) as Hseen
    by (apply list_elem_of_omap; eauto).
  rewrite Forall_forall in Hvalid. pose proof (Hvalid _ Hseen) as Hv.
  pose proof Hv as (Hg & Ht & Hext). simpl in Hg, Ht, Hext.
  assert (flag ext (pair_at go1 (Z.to_nat g) t) = true) as Hflag.
  { apply Hflags; [exact Hext|]. right. rewrite Z2Nat.id by lia. exact Hseen. }
  split; [|split].
  - eapply ingest_stops_at; try eassumption.
    apply decode_entry_duplicate; try assumption.
    rewrite Hlen. unfold no_orders. apply length_map.
  - unfold ErrDuplicate. destruct (gostring_eqb ext (str "in")); reflexivity.
  - unfold ErrDuplicate.
    destruct Hext as [-> | ->]; simpl; rewrite !fmt_d_nonneg by lia; reflexivity.
Qed.

(** [0_0.in] and [00_0.in] are two names of the input of testcase 0 of
    group 0: the second is a duplicate of the first. *)
Lemma C6_duplicate_file_witness :
  let P := platform_of (fun _ => None) no_fault in
  readTestcaseFromTarGz P (archive [file "0_0.in"; file "0_0.out"; file "00_0.in"])
                        [group 0 "a"] ∅
  = (∅, [group 0 "a"], Err (ErrDuplicateInput 0 0))
  /\ kind_of (ErrDuplicateInput 0 0) = DuplicateTestcaseFile
  /\ Error (ErrDuplicateInput 0 0) = str "duplicate testcase input: 0_0.in".
Proof.
  set (P := platform_of (fun _ => None) no_fault).
  set (d := str "./testcase-bundle-1").
  set (fs0 := <[d := ∅]> (∅ : FS)).
  set (pre := [file "0_0.in"; file "0_0.out"]).
  set (D := decode P d [group 0 "a"] pre TarEOF (no_orders [group 0 "a"]) 0 fs0).
  apply (C6_duplicate_file P (archive [file "0_0.in"; file "0_0.out"; file "00_0.in"])
           [group 0 "a"] ∅ fs0 D.1 d pre [] (file "0_0.in") (file "00_0.in")
           (decoded D).1 (decoded D).2 0 0 (str "in")).
  - reflexivity.
  - reflexivity.
  - vm_compute. reflexivity.
  - left.
  - reflexivity.
  - reflexivity.
Defined.

(** ** C4: the final validation *)

(** What a successful [readTestcaseFromTarGz] went through. *)
Lemma readTestcaseFromTarGz_Ok (P : Platform) (tr : TarReader)
    (tcGroups tcGroups' out : list TestcaseGroup) (fs fs' : FS) :
  readTestcaseFromTarGz P tr tcGroups fs = (fs', tcGroups', Ok out) ->
  exists fs0 d fs1 go count,
    os.MkdirTemp P (extractBase P) (str "testcase-bundle-") fs = (fs0, Some d)
    /\ decode P d tcGroups (tr_entries tr) (tr_end tr) (no_orders tcGroups) 0 fs0
       = (fs1, Ok (go, count))
    /\ count <> 0
    /\ reconcile P 0 go tcGroups = (out, None)
    /\ tcGroups' = out /\ fs' = fs.
Proof.
  intros Hok.
  destruct (os.MkdirTemp P (extractBase P) (str "testcase-bundle-") fs)
    as [fs0 [d|]] eqn:Hmk.
  - destruct (decode P d tcGroups (tr_entries tr) (tr_end tr) (no_orders tcGroups) 0 fs0)
      as [fs1 [[go count]|err]] eqn:Hdec.
    + rewrite (ingest_after_decode _ _ _ _ _ _ _ _ _ Hmk Hdec) in Hok.
      destruct (Z.eqb_spec count 0) as [|Hc]; [discriminate|].
      destruct (reconcile P 0 go tcGroups) as [tc' [err|]] eqn:Hr; [discriminate|].
      injection Hok as <- <- <-. exists fs0, d, fs1, go, count.
      repeat split; auto.
    + rewrite (readTestcaseFromTarGz_scratch _ _ _ _ _ _ Hmk) in Hok.
      unfold readTestcase_body in Hok. fold (no_orders tcGroups) in Hok.
      rewrite Hdec in Hok. discriminate.
  - unfold readTestcaseFromTarGz in Hok. rewrite Hmk in Hok. discriminate.
Qed.

Lemma populated_lookup (tcGroups : list TestcaseGroup) (go : list Orders)
    (i : nat) (g : TestcaseGroup) (orders : Orders) :
  tcGroups !! i = Some g -> go !! i = Some orders ->
  populated tcGroups go !! i
  = Some (append_Testcases g (testcases_upto (Z.of_nat (size orders)))).
Proof.
  intros Hg Ho. unfold populated. rewrite lookup_zip_with, Hg. simpl. rewrite Ho.
  reflexivity.
Qed.

(** C4, as stated, fails on its last clause: a declared group that arrives
    with a testcase and that no file of the archive refers to is not an
    error, but it does not end with an empty testcase list: it keeps the
    testcase it came with. *)
Lemma C4_unreferenced_group_counterexample :
  let P := platform_of (fun _ => None) no_fault in
  let r := readTestcaseFromTarGz P (archive [file "0_0.in"; file "0_0.out"])
             [group 0 "a"; group_with 1 "b" [7]] ∅ in
  r.2 = Ok [group_with 0 "a" [0]; group_with 1 "b" [7]]
  /\ (Testcases <$> r.1.2 !! 1%nat) = Some [Testcase_with_OrderID 7].
Proof. vm_compute. split; reflexivity. Qed.

(** The groups are validated one after the other: with a gap in group 0 and
    a missing file in group 1, the error is the one of group 0. *)
Example groups_validated_in_turn :
  let P := platform_of (fun _ => None) no_fault in
  (readTestcaseFromTarGz P
     (archive [file "0_0.in"; file "0_0.out"; file "0_2.in"; file "0_2.out";
               file "1_0.in"])
     [group 0 "a"; group 1 "b"] ∅).2
  = Err (ErrNotConsecutive 0).
Proof. vm_compute. reflexivity. Qed.

(** C4, amended.  Take an ingestion whose decode pass went through with at
    least one file.  The orders kept for a group are the orders that the
    files of the archive refer to, and a kept pair is complete exactly when
    the archive has both files.  Then, for the first group that does not
    pass:
    - if one of its referenced orders lacks a file, ingestion fails with
      the incomplete-pair error naming the group and such an order;
    - otherwise its referenced orders are not [0 .. n-1], and ingestion
      fails with the not-consecutive error naming the group.
    If every group passes, ingestion succeeds, and a group that no file
    refers to keeps the testcase list it came with (an empty list stays
    empty). *)
Theorem C4_final_validation (P : Platform) (tr : TarReader)
    (tcGroups : list TestcaseGroup) (fs fs0 fs1 : FS) (d : gostring)
    (go : list Orders) (count : Z) :
  os.MkdirTemp P (extractBase P) (str "testcase-bundle-") fs = (fs0, Some d) ->
  decode P d tcGroups (tr_entries tr) (tr_end tr) (no_orders tcGroups) 0 fs0
  = (fs1, Ok (go, count)) ->
  count <> 0 ->
  let r := readTestcaseFromTarGz P tr tcGroups fs in
  (forall i orders, go !! i = Some orders -> forall t,
      (is_Some (orders !! t) <-> referenced (tr_entries tr) i t)
      /\ (forall p, orders !! t = Some p ->
            complete p = true
            <-> has_file (tr_entries tr) i t (str "in")
                /\ has_file (tr_entries tr) i t (str "out")))
  /\ (forall i orders, go !! i = Some orders -> Forall group_ok (take i go) ->
        (~ all_complete orders ->
         exists t p, orders !! t = Some p /\ complete p = false
                     /\ r.2 = Err (ErrIncompletePair (Z.of_nat i) t))
        /\ (all_complete orders -> ~ contiguous orders ->
            r.2 = Err (ErrNotConsecutive (Z.of_nat i))))
  /\ (Forall group_ok go ->
        r = (fs, populated tcGroups go, Ok (populated tcGroups go))
        /\ forall i orders g,
             go !! i = Some orders -> size orders = 0%nat -> tcGroups !! i = Some g ->
             populated tcGroups go !! i = Some g)
  /\ kind_of (ErrIncompletePair 0 0) = IncompleteTestcasePair
  /\ kind_of (ErrNotConsecutive 0) = NonContiguousOrdering.
Proof.
  intros Hmk Hdec Hcount r.
  destruct (decode_referenced _ _ _ _ _ _ _ _ _ Hdec) as (Hlen & _ & Href).
  assert (r = match reconcile P 0 go tcGroups with
              | (tcGroups', Some err) => (fs, tcGroups', Err err)
              | (tcGroups', None) => (fs, tcGroups', Ok tcGroups')
              end) as Hr.
  { unfold r. rewrite (ingest_after_decode _ _ _ _ _ _ _ _ _ Hmk Hdec).
    destruct (Z.eqb_spec count 0); [contradiction | reflexivity]. }
  split; [|split; [|split; [|split; reflexivity]]].
  - intros i orders Hi t. destruct (Href i orders Hi t) as [Hdom Hfl].
    split; [exact Hdom|]. intros p Hp. destruct (Hfl p Hp) as [Hin Hout].
    unfold complete. rewrite andb_true_iff, Hin, Hout. reflexivity.
  - intros i orders Hi Hpre.
    pose proof (lookup_lt_Some _ _ _ Hi) as Hlt.
    assert (length (take i go) = i) as Htake by (rewrite length_take; lia).
    destruct (reconcile_first_failure P (take i go) (drop (S i) go) orders tcGroups Hpre)
      as (tc' & _ & _ & Hrec); [lia|].
    rewrite (take_drop_middle _ _ _ Hi), Htake in Hrec.
    split.
    + intros Hinc.
      destruct (reconcile_group_incomplete P i orders tc' Hinc) as (t & p & Hp & Hc & Hg).
      exists t, p. split; [exact Hp|]. split; [exact Hc|].
      rewrite Hr, Hrec, Hg. reflexivity.
    + intros Hc Hgap.
      assert (size orders <> 0%nat) as Hz.
      { intros Hz. apply Hgap. apply (empty_group_ok _ Hz). }
      rewrite Hr, Hrec, reconcile_group_complete by assumption.
      rewrite <- consecutive_sorted_orders in Hgap.
      destruct (consecutive_from 0 (sorted_orders orders)); [contradiction | reflexivity].
  - intros Hok. split.
    + rewrite Hr, reconcile_populated by assumption. reflexivity.
    + intros i orders g Hi Hz Hg.
      rewrite (populated_lookup _ _ _ _ _ Hg Hi), Hz.
      unfold testcases_upto. rewrite seqZ_nil by lia. simpl.
      rewrite append_Testcases_nil. reflexivity.
Qed.

(** The three outcomes on two declared groups: a gap in group 0
    ([0_0] and [0_2] without [0_1]), a missing output ([0_0.in] alone), and
    a valid archive with nothing for group 1. *)
Lemma C4_final_validation_witness :
  let P := platform_of (fun _ => None) no_fault in
  let groups := [group 0 "a"; group 1 "b"] in
  (readTestcaseFromTarGz P
     (archive [file "0_0.in"; file "0_0.out"; file "0_2.in"; file "0_2.out"]) groups ∅).2
  = Err (ErrNotConsecutive 0)
  /\ (exists t, (readTestcaseFromTarGz P (archive [file "0_0.in"]) groups ∅).2
                = Err (ErrIncompletePair 0 t))
  /\ (readTestcaseFromTarGz P (archive [file "0_0.in"; file "0_0.out"]) groups ∅).2
     = Ok [group_with 0 "a" [0]; group 1 "b"].
Proof.
  set (P := platform_of (fun _ => None) no_fault).
  set (groups := [group 0 "a"; group 1 "b"]).
  set (d := str "./testcase-bundle-1").
  set (fs0 := <[d := ∅]> (∅ : FS)).
  assert (os.MkdirTemp P (extractBase P) (str "testcase-bundle-") ∅ = (fs0, Some d))
    as Hmk by reflexivity.
  split; [|split].
  - set (tr := archive [file "0_0.in"; file "0_0.out"; file "0_2.in"; file "0_2.out"]).
    set (D := decode P d groups (tr_entries tr) (tr_end tr) (no_orders groups) 0 fs0).
    assert (D = (D.1, Ok ((decoded D).1, (decoded D).2))) as Hdec
      by (vm_compute; reflexivity).
    assert ((decoded D).2 <> 0) as Hc by (vm_compute; discriminate).
    destruct (C4_final_validation P tr groups ∅ fs0 D.1 d _ _ Hmk Hdec Hc)
      as (_ & Hfail & _).
    destruct (Hfail 0%nat ((decoded D).1 !!! 0%nat)) as [_ Hgap].
    + vm_compute. reflexivity.
    + constructor.
    + apply Hgap.
      * apply all_completeb_spec. vm_compute. reflexivity.
      * rewrite <- contiguousb_spec. vm_compute. discriminate.
  - set (tr := archive [file "0_0.in"]).
    set (D := decode P d groups (tr_entries tr) (tr_end tr) (no_orders groups) 0 fs0).
    assert (D = (D.1, Ok ((decoded D).1, (decoded D).2))) as Hdec
      by (vm_compute; reflexivity).
    assert ((decoded D).2 <> 0) as Hc by (vm_compute; discriminate).
    destruct (C4_final_validation P tr groups ∅ fs0 D.1 d _ _ Hmk Hdec Hc)
      as (_ & Hfail & _).
    destruct (Hfail 0%nat ((decoded D).1 !!! 0%nat)) as [Hinc _].
    + vm_compute. reflexivity.
    + constructor.
    + destruct Hinc as (t & p & _ & _ & Ht).
      * rewrite <- all_completeb_spec. vm_compute. discriminate.
      * exists t. exact Ht.
  - set (tr := archive [file "0_0.in"; file "0_0.out"]).
    set (D := decode P d groups (tr_entries tr) (tr_end tr) (no_orders groups) 0 fs0).
    assert (D = (D.1, Ok ((decoded D).1, (decoded D).2))) as Hdec
      by (vm_compute; reflexivity).
    assert ((decoded D).2 <> 0) as Hc by (vm_compute; discriminate).
    destruct (C4_final_validation P tr groups ∅ fs0 D.1 d _ _ Hmk Hdec Hc)
      as (_ & _ & Hok & _).
    destruct Hok as [Hr _].
    + apply Forall_group_okb. vm_compute. reflexivity.
    + rewrite Hr. vm_compute. reflexivity.
Defined.

(** ** C10: testcases are appended in place *)

Lemma Sorted_lt_seqZ (m n : Z) : Sorted Z.lt (seqZ m n).
Proof.
  destruct (Z.le_gt_cases n 0) as [Hn|Hn]; [rewrite seqZ_nil by lia; constructor|].
  rewrite <- (Z2Nat.id n) by lia. generalize (Z.to_nat n) as k. clear.
  intros k. revert m. induction k as [|k IH]; intros m.
  - rewrite seqZ_nil by lia. constructor.
  - rewrite seqZ_cons by lia.
    replace (Z.pred (Z.of_nat (S k))) with (Z.of_nat k) by lia.
    constructor; [apply IH|].
    destruct k as [|k]; [rewrite seqZ_nil by lia; constructor|].
    rewrite seqZ_cons by lia. constructor. lia.
Qed.

(** C10.  After a successful ingestion the slice returned is the caller's
    slice, written to in place, and each of its groups is the group as it
    was supplied with the newly parsed testcases put after the testcases it
    came with: one testcase per order that the files of the archive refer
    to for that group, in ascending order; the other fields of the group
    are as supplied.  The orders of the group's testcases are the orders it
    came with followed by the new orders [0 .. n-1], and a new testcase
    carries its order and nothing else. *)
Theorem C10_append_in_place (P : Platform) (tr : TarReader)
    (tcGroups tcGroups' out : list TestcaseGroup) (fs fs' : FS) :
  readTestcaseFromTarGz P tr tcGroups fs = (fs', tcGroups', Ok out) ->
  out = tcGroups'
  /\ length out = length tcGroups
  /\ forall i g,
       tcGroups !! i = Some g ->
       exists news,
         out !! i = Some (append_Testcases g (map Testcase_with_OrderID news))
         /\ (Testcases <$> out !! i)
            = Some (Testcases g ++ map Testcase_with_OrderID news)
         /\ (map tc_OrderID <$> (Testcases <$> out !! i))
            = Some (map tc_OrderID (Testcases g) ++ news)
         /\ news = seqZ 0 (Z.of_nat (length news))
         /\ Forall (fun tc => tc_ID tc = 0 /\ tc_TestcaseGroupID tc = 0
                              /\ tc_Input tc = [] /\ tc_Output tc = []
                              /\ tc_IsHidden tc = false)
                   (map Testcase_with_OrderID news)
         /\ Sorted Z.lt news
         /\ (forall t, t ∈ news <-> referenced (tr_entries tr) i t).
Proof.
  intros Hok.
  destruct (readTestcaseFromTarGz_Ok _ _ _ _ _ _ _ Hok)
    as (fs0 & d & fs1 & go & count & Hmk & Hdec & Hc & Hr & -> & ->).
  destruct (decode_referenced _ _ _ _ _ _ _ _ _ Hdec) as (Hlen & _ & Href).
  pose proof (reconcile_None_ok _ _ _ _ _ Hr) as Hall.
  rewrite (reconcile_populated P go tcGroups Hall Hlen) in Hr. injection Hr as <-.
  split; [reflexivity|]. split.
  - unfold populated. rewrite length_zip_with. lia.
  - intros i g Hg.
    destruct (lookup_lt_is_Some_2 go i) as [orders Ho];
      [apply lookup_lt_Some in Hg; lia|].
    exists (seqZ 0 (Z.of_nat (size orders))).
    rewrite (populated_lookup _ _ _ _ _ Hg Ho).
    split; [reflexivity|]. split; [reflexivity|].
    split.
    { simpl. unfold testcases_upto. rewrite map_app, map_map. simpl.
      rewrite map_id. reflexivity. }
    split; [rewrite length_seqZ, Nat2Z.id; reflexivity|].
    split.
    { apply Forall_forall. intros tc Htc.
      apply list_elem_of_In, in_map_iff in Htc as (order & <- & _). simpl. auto. }
    split; [apply Sorted_lt_seqZ|].
    intros t. rewrite elem_of_seqZ.
    rewrite Forall_forall in Hall.
    destruct (Hall orders (list_elem_of_lookup_2 _ _ _ Ho)) as [_ Hk].
    rewrite <- (proj1 (Href i orders Ho t)), (Hk t). lia.
Qed.

(** A group supplied with the testcases 5 and 9 receives the testcases 0
    and 1 of the archive after them. *)
Lemma C10_append_in_place_witness :
  let P := platform_of (fun _ => None) no_fault in
  let r := readTestcaseFromTarGz P
             (archive [file "0_1.out"; file "0_0.in"; file "0_1.in"; file "0_0.out"])
             [group_with 0 "a" [5; 9]] ∅ in
  r.2 = Ok r.1.2
  /\ length r.1.2 = 1%nat
  /\ r.1.2 = [group_with 0 "a" [5; 9; 0; 1]].
Proof.
  intros P r.
  destruct (C10_append_in_place P
              (archive [file "0_1.out"; file "0_0.in"; file "0_1.in"; file "0_0.out"])
              [group_with 0 "a" [5; 9]] r.1.2 r.1.2 ∅ r.1.1)
    as (_ & Hlen & Hgroups).
  - vm_compute. reflexivity.
  - split; [vm_compute; reflexivity|]. split; [exact Hlen|].
    vm_compute. reflexivity.
Defined.

(** The write is in place: when the final validation fails at group 1, the
    caller's group 0 has received its testcases already, although the call
    returns an error. *)
Example written_in_place :
  let P := platform_of (fun _ => None) no_fault in
  readTestcaseFromTarGz P (archive [file "0_0.in"; file "0_0.out"; file "1_0.in"])
                        [group 0 "a"; group 1 "b"] ∅
  = (∅, [group_with 0 "a" [0]; group 1 "b"], Err (ErrIncompletePair 1 0)).
Proof. vm_compute. reflexivity. Qed.

(** * Valid archives *)

Lemma elem_of_indexed (ks : list Z) (i : nat) (k : Z) :
  (i, k) ∈ indexed ks <-> ks !! i = Some k.
Proof.
  unfold indexed. rewrite elem_of_lookup_imap. split.
  - intros (j & k' & [= -> ->] & Hk). exact Hk.
  - intros Hk. exists i, k. auto.
Qed.

Lemma NoDup_indexed (ks : list Z) : NoDup (indexed ks).
Proof.
  apply NoDup_alt. intros i j [i' k] Hi Hj. unfold indexed in *.
  rewrite list_lookup_imap in Hi, Hj.
  destruct (ks !! i) as [ki|]; [|discriminate].
  destruct (ks !! j) as [kj|]; [|discriminate].
  simpl in Hi, Hj. congruence.
Qed.

Lemma elem_of_group_triples (ik : nat * Z) (x : Z * Z * gostring) :
  x ∈ group_triples ik
  <-> x.1.1 = Z.of_nat ik.1 /\ 0 <= x.1.2 < ik.2
      /\ (x.2 = str "in" \/ x.2 = str "out").
Proof.
  unfold group_triples. rewrite list_elem_of_bind. split.
  - intros (t & Hx & Ht). apply elem_of_seqZ in Ht.
    apply elem_of_cons in Hx as [-> | Hx]; [simpl; split; [reflexivity|]; split; [lia | auto]|].
    apply list_elem_of_singleton in Hx as ->. simpl. split; [reflexivity|]. split; [lia | auto].
  - destruct x as [[g t] ext]. simpl. intros (-> & Ht & Hext).
    exists t. split; [|apply elem_of_seqZ; lia].
    destruct Hext as [-> | ->]; [left | right; left].
Qed.

Lemma NoDup_group_triples (ik : nat * Z) : NoDup (group_triples ik).
Proof.
  unfold group_triples. apply NoDup_bind; [| |apply NoDup_seqZ].
  - intros t1 t2 y _ _ H1 H2.
    apply elem_of_cons in H1 as [-> | H1];
      [|apply list_elem_of_singleton in H1 as ->];
      (apply elem_of_cons in H2 as [H2 | H2];
       [|apply list_elem_of_singleton in H2]); congruence.
  - intros t _. apply NoDup_cons. split; [|apply NoDup_singleton].
    intros H. apply list_elem_of_singleton in H. discriminate.
Qed.

(** The files of the bundle: those of testcase [t] of group [i], for [t]
    below the count of the group. *)
Lemma elem_of_bundle_triples (ks : list Z) (x : Z * Z * gostring) :
  x ∈ bundle_triples ks
  <-> exists i k, ks !! i = Some k /\ x.1.1 = Z.of_nat i /\ 0 <= x.1.2 < k
                  /\ (x.2 = str "in" \/ x.2 = str "out").
Proof.
  unfold bundle_triples. rewrite list_elem_of_bind. split.
  - intros ([i k] & Hx & Hik). apply elem_of_indexed in Hik.
    apply elem_of_group_triples in Hx. exists i, k. auto.
  - intros (i & k & Hk & Hx). exists (i, k). split.
    + apply elem_of_group_triples. exact Hx.
    + apply elem_of_indexed. exact Hk.
Qed.

Lemma NoDup_bundle_triples (ks : list Z) : NoDup (bundle_triples ks).
Proof.
  unfold bundle_triples. apply NoDup_bind; [| |apply NoDup_indexed].
  - intros [i1 k1] [i2 k2] y H1 H2 Hy1 Hy2.
    apply elem_of_indexed in H1, H2.
    apply elem_of_group_triples in Hy1 as (Hg1 & _), Hy2 as (Hg2 & _).
    simpl in *. assert (i1 = i2) as -> by lia. congruence.
  - intros ik _. apply NoDup_group_triples.
Qed.

(** A regular file named after a triple within the [int] range resolves to
    that triple. *)
Lemma resolves_testcase_filename (x : Z * Z * gostring) :
  0 <= x.1.1 <= max_int -> 0 <= x.1.2 <= max_int ->
  x.2 = str "in" \/ x.2 = str "out" ->
  resolves_name (testcase_filename x) = Some x.
Proof.
  destruct x as [[g t] ext]. simpl. intros Hg Ht Hext.
  destruct (Itoa_spec g) as (Hallg & Hneg & Hvg); [lia|].
  destruct (Itoa_spec t) as (Hallt & Hnet & Hvt); [lia|].
  assert (in_grammar (testcase_filename (g, t, ext)) (strconv.Itoa g) (strconv.Itoa t) ext)
    as Hgr by (repeat split; assumption).
  destruct (grammar_Clean_Base _ _ _ _ Hgr) as [HC HB].
  apply resolves_Some. simpl. split; [reflexivity|]. split.
  - apply validateBundleFilename_None. rewrite HC. eauto.
  - rewrite HC, HB, (parseTestcaseFilename_grammar _ _ _ _ Hgr), Hvg, Hvt.
    destruct (Z.leb_spec g max_int); [|lia].
    destruct (Z.leb_spec t max_int); [|lia]. reflexivity.
Qed.

Lemma resolves_resolves_name (e : TarEntry) :
  resolves e = if is_regular e then resolves_name (Name e) else None.
Proof.
  unfold resolves_name, resolves, is_regular. simpl.
  destruct (Typeflag e); reflexivity.
Qed.

(** The triples of an archive come from its regular files alone. *)
Lemma omap_resolves_regular (entries : list TarEntry) :
  omap resolves entries = omap resolves_name (regular_names entries).
Proof.
  unfold regular_names. induction entries as [|e entries IH]; [reflexivity|].
  cbn [omap list_omap List.filter]. rewrite resolves_resolves_name.
  destruct (is_regular e); cbn [fmap list_fmap omap list_omap].
  - fold (omap resolves entries). rewrite IH. reflexivity.
  - exact IH.
Qed.

Lemma omap_fmap_Some {A B : Type} (f : B -> option A) (g : A -> B) (l : list A) :
  (forall x, x ∈ l -> f (g x) = Some x) -> omap f (g <$> l) = l.
Proof.
  induction l as [|x l IH]; intros H; [reflexivity|].
  cbn [fmap list_fmap omap list_omap]. rewrite (H x) by left.
  f_equal. apply IH. intros y Hy. apply H. right. exact Hy.
Qed.

(** The triples of a valid archive are, in some order, the files of the
    bundle. *)
Lemma valid_archive_triples (tr : TarReader) (ks : list Z) (n : nat) :
  valid_archive tr ks -> length ks = n -> Z.of_nat n <= max_int ->
  Forall (fun k => k <= max_int) ks ->
  omap resolves (tr_entries tr) ≡ₚ bundle_triples ks.
Proof.
  intros (_ & _ & Hnames) Hlen Hn Hks.
  rewrite omap_resolves_regular, Hnames. unfold bundle_files.
  rewrite omap_fmap_Some; [reflexivity|].
  intros x Hx. apply elem_of_bundle_triples in Hx as (i & k & Hk & Hg & Ht & Hext).
  pose proof (lookup_lt_Some _ _ _ Hk) as Hi.
  rewrite Forall_forall in Hks. pose proof (Hks k (list_elem_of_lookup_2 _ _ _ Hk)).
  apply resolves_testcase_filename; [lia | lia | exact Hext].
Qed.

Lemma size_of_range (orders : Orders) (k : Z) :
  0 <= k -> (forall t, is_Some (orders !! t) <-> 0 <= t < k) ->
  Z.of_nat (size orders) = k.
Proof.
  intros Hk Hdom.
  assert (map fst (map_to_list orders) ≡ₚ seqZ 0 k) as Hperm.
  { apply NoDup_Permutation; [apply NoDup_fst_map_to_list | apply NoDup_seqZ|].
    intros t. rewrite elem_of_seqZ, <- (Hdom t).
    rewrite list_elem_of_In, in_map_iff. split.
    - intros ([t' p] & Ht & Hin). simpl in Ht; subst t'.
      apply list_elem_of_In, elem_of_map_to_list in Hin. eauto.
    - intros [p Hp]. exists (t, p). split; [reflexivity|].
      apply list_elem_of_In, elem_of_map_to_list. exact Hp. }
  apply Permutation_length in Hperm.
  rewrite length_map, length_map_to_list, length_seqZ in Hperm. lia.
Qed.

Lemma flag_empty_pair (ext : gostring) : flag ext empty_pair = false.
Proof.
  unfold flag. destruct (gostring_eqb ext (str "in")); [reflexivity|].
  destruct (gostring_eqb ext (str "out")); reflexivity.
Qed.

(** The decode pass of a valid archive goes through, and leaves for each
    group the complete pairs of the orders [0 .. k-1]. *)
Lemma decode_valid_archive (P : Platform) (tr : TarReader)
    (tcGroups : list TestcaseGroup) (ks : list Z) (fs0 : FS) (d : gostring) :
  valid_archive tr ks ->
  length ks = length tcGroups ->
  Forall (fun k => 0 <= k <= max_int) ks ->
  Z.of_nat (length tcGroups) <= max_int ->
  Exists (fun k => 0 < k) ks ->
  is_Some (fs0 !! d) ->
  (forall n base, io_fault P n base = None) ->
  exists fs1 go count,
    decode P d tcGroups (tr_entries tr) (tr_end tr) (no_orders tcGroups) 0 fs0
    = (fs1, Ok (go, count))
    /\ count <> 0
    /\ length go = length tcGroups
    /\ forall i orders k,
         go !! i = Some orders -> ks !! i = Some k ->
         group_ok orders /\ Z.of_nat (size orders) = k.
Proof.
  intros Hvalid Hlen Hks Hn Hex Hd Hio.
  assert (Forall (fun k => k <= max_int) ks) as Hks'
    by (eapply Forall_impl; [exact Hks | intros k Hk; simpl in Hk; lia]).
  pose proof (valid_archive_triples tr ks _ Hvalid Hlen Hn Hks') as Hperm.
  destruct Hvalid as (Hend & Hnoother & Hnames).
  assert (forall x, x ∈ omap resolves (tr_entries tr) <-> x ∈ bundle_triples ks) as Hmem
    by (intros x; rewrite Hperm; reflexivity).
  assert (NoDup (omap resolves (tr_entries tr))) as Hnd
    by (rewrite Hperm; apply NoDup_bundle_triples).
  assert (Forall (valid_triple tcGroups) (omap resolves (tr_entries tr))) as Hvt.
  { apply Forall_forall. intros x Hx. apply Hmem in Hx.
    apply elem_of_bundle_triples in Hx as (i & k & Hk & Hg & Ht & Hext).
    pose proof (lookup_lt_Some _ _ _ Hk). unfold valid_triple.
    split; [lia|]. split; [lia | exact Hext]. }
  assert (Forall (fun e => Typeflag e = TypeDir \/ is_Some (resolves e)) (tr_entries tr))
    as Hall.
  { apply Forall_forall. intros e He. rewrite Forall_forall in Hnoother.
    pose proof (Hnoother e He) as Hno.
    destruct (Typeflag e) eqn:Hty; [left; reflexivity | | contradiction].
    right. rewrite resolves_resolves_name. unfold is_regular. rewrite Hty.
    assert (Name e ∈ regular_names (tr_entries tr)) as Hin.
    { unfold regular_names. apply list_elem_of_fmap_2.
      apply list_elem_of_In, filter_In. split; [apply list_elem_of_In; exact He|].
      unfold is_regular. rewrite Hty. reflexivity. }
    rewrite Hnames in Hin. unfold bundle_files in Hin.
    apply list_elem_of_fmap in Hin as (x & -> & Hx).
    apply elem_of_bundle_triples in Hx as (i & k & Hk & Hg & Ht & Hext).
    pose proof (lookup_lt_Some _ _ _ Hk).
    rewrite Forall_forall in Hks. pose proof (Hks k (list_elem_of_lookup_2 _ _ _ Hk)).
    rewrite resolves_testcase_filename; [eauto | lia | lia | exact Hext]. }
  destruct (decode_all_fresh P d tcGroups (tr_entries tr) (no_orders tcGroups) 0 fs0)
    as (fs1 & go & count & Hdec); try assumption.
  { unfold no_orders. apply length_map. }
  { intros x _. rewrite pair_at_no_orders. apply flag_empty_pair. }
  rewrite Hend. exists fs1, go, count. split; [exact Hdec|].
  destruct (decode_referenced _ _ _ _ _ _ _ _ _ Hdec) as (Hlen' & Hcount & Href).
  split; [|split; [exact Hlen'|]].
  - apply Exists_exists in Hex as (k & Hk & Hpos).
    apply list_elem_of_lookup in Hk as [i Hi].
    assert ((Z.of_nat i, 0, str "in") ∈ omap resolves (tr_entries tr)) as Hin.
    { apply Hmem, elem_of_bundle_triples. exists i, k. simpl.
      split; [exact Hi|]. split; [reflexivity|]. split; [lia | auto]. }
    destruct (omap resolves (tr_entries tr)); [inversion Hin|].
    rewrite Hcount. simpl. lia.
  - intros i orders k Hi Hk.
    assert (forall t ext, has_file (tr_entries tr) i t ext
                          <-> 0 <= t < k /\ (ext = str "in" \/ ext = str "out")) as Hfile.
    { intros t ext. unfold has_file. rewrite Hmem, elem_of_bundle_triples. simpl. split.
      - intros (j & k' & Hk' & Hj & Ht & Hext).
        apply Nat2Z.inj in Hj. subst j. rewrite Hk in Hk'. injection Hk' as <-. auto.
      - intros [Ht Hext]. exists i, k. auto. }
    assert (forall t, referenced (tr_entries tr) i t <-> 0 <= t < k) as Hrefd.
    { intros t. unfold referenced. rewrite !Hfile. intuition. }
    assert (forall t, is_Some (orders !! t) <-> 0 <= t < k) as Hdom.
    { intros t. rewrite (proj1 (Href i orders Hi t)). apply Hrefd. }
    rewrite Forall_forall in Hks. pose proof (Hks k (list_elem_of_lookup_2 _ _ _ Hk)) as Hkr.
    assert (Z.of_nat (size orders) = k) as Hsize by (apply size_of_range; [lia | exact Hdom]).
    split; [|exact Hsize]. split.
    + intros t p Hp.
      destruct (proj2 (Href i orders Hi t) p Hp) as [Hin Hout].
      assert (0 <= t < k) as Ht by (apply Hdom; eauto).
      unfold complete. apply andb_true_iff. split.
      * apply Hin, Hfile. auto.
      * apply Hout, Hfile. auto.
    + intros t. rewrite Hsize. apply Hdom.
Qed.

(** ** C1: valid archives *)

Lemma testcases_upto_orders (k : Z) :
  map tc_OrderID (testcases_upto k) = seqZ 0 k
  /\ length (testcases_upto k) = Z.to_nat k.
Proof.
  unfold testcases_upto. split.
  - rewrite map_map. simpl. apply map_id.
  - rewrite length_map. apply length_seqZ.
Qed.

(** C1, as stated, fails: it holds of declared groups that arrive without
    testcases only.  For the valid archive of one testcase of group 0 and a
    declared group that arrives with the testcase 5, ingestion succeeds and
    the group's list has two entries, of orders 5 and 0. *)
Lemma C1_prepopulated_counterexample :
  let P := platform_of (fun _ => None) no_fault in
  let tr := archive [file "0_0.in"; file "0_0.out"] in
  let r := readTestcaseFromTarGz P tr [group_with 0 "a" [5]] ∅ in
  valid_archive tr [1]
  /\ r.2 = Ok [group_with 0 "a" [5; 0]]
  /\ (map tc_OrderID <$> (Testcases <$> r.1.2 !! 0%nat)) = Some [5; 0].
Proof.
  split; [|vm_compute; split; reflexivity].
  split; [reflexivity|]. split.
  - repeat constructor; discriminate.
  - vm_compute. reflexivity.
Qed.

(** An archive without any file is refused, whatever the groups. *)
Example empty_archive_refused :
  let P := platform_of (fun _ => None) no_fault in
  (readTestcaseFromTarGz P (archive [directory "cases/"]) [group 0 "a"] ∅).2
  = Err ErrNoTestcases.
Proof. vm_compute. reflexivity. Qed.

(** C1, amended.  Take declared groups and a valid archive for the counts
    [ks]: a gzip-compressed tar that ends well and whose entries other than
    directories are regular files named, in any order, [g_0.in], [g_0.out]
    ... [g_(k-1).in], [g_(k-1).out] for each group [g] of count [k], with at
    least one file.  (The counts and the number of groups fit an [int], the
    scratch directory can be created and no extraction fails.)  Then
    ingestion succeeds, leaves the filesystem as it was, and returns the
    groups with, for each group, the [k] testcases of orders [0 .. k-1]
    after the testcases the group came with: a group that arrives without
    testcases has exactly [k] entries, of ascending orders [0 .. k-1]. *)
Theorem C1_valid_archive (P : Platform) (tr : TarReader)
    (tcGroups : list TestcaseGroup) (ks : list Z) (fs fs0 : FS) (d : gostring) :
  valid_archive tr ks ->
  length ks = length tcGroups ->
  Forall (fun k => 0 <= k <= max_int) ks ->
  Z.of_nat (length tcGroups) <= max_int ->
  Exists (fun k => 0 < k) ks ->
  os.MkdirTemp P (extractBase P) (str "testcase-bundle-") fs = (fs0, Some d) ->
  (forall n base, io_fault P n base = None) ->
  readTestcaseFromTarGz P tr tcGroups fs
  = (fs, with_testcases tcGroups ks, Ok (with_testcases tcGroups ks))
  /\ forall i g k,
       tcGroups !! i = Some g -> ks !! i = Some k ->
       with_testcases tcGroups ks !! i = Some (append_Testcases g (testcases_upto k))
       /\ Testcases (append_Testcases g (testcases_upto k))
          = Testcases g ++ testcases_upto k
       /\ map tc_OrderID (testcases_upto k) = seqZ 0 k
       /\ length (testcases_upto k) = Z.to_nat k
       /\ (Testcases g = [] ->
           Testcases (append_Testcases g (testcases_upto k)) = testcases_upto k).
Proof.
  intros Hvalid Hlen Hks Hn Hex Hmk Hio.
  pose proof (MkdirTemp_Some _ _ _ _ _ _ Hmk) as [_ Hfs0].
  destruct (decode_valid_archive P tr tcGroups ks fs0 d) as
    (fs1 & go & count & Hdec & Hcount & Hlengo & Hgroups); try assumption.
  { rewrite Hfs0, lookup_insert_eq. eauto. }
  assert (Forall group_ok go) as Hok.
  { apply Forall_lookup. intros i orders Hi.
    destruct (lookup_lt_is_Some_2 ks i) as [k Hk];
      [apply lookup_lt_Some in Hi; lia|].
    apply (Hgroups i orders k Hi Hk). }
  assert (populated tcGroups go = with_testcases tcGroups ks) as Hpop.
  { apply list_eq. intros i. unfold populated, with_testcases.
    rewrite !lookup_zip_with.
    destruct (tcGroups !! i) as [g|] eqn:Hg; [|reflexivity]. simpl.
    pose proof (lookup_lt_Some _ _ _ Hg) as Hi.
    destruct (lookup_lt_is_Some_2 go i) as [orders Ho]; [lia|].
    destruct (lookup_lt_is_Some_2 ks i) as [k Hk]; [lia|].
    rewrite Ho, Hk. simpl. destruct (Hgroups i orders k Ho Hk) as [_ ->]. reflexivity. }
  split.
  - rewrite (ingest_after_decode _ _ _ _ _ _ _ _ _ Hmk Hdec).
    destruct (Z.eqb_spec count 0); [contradiction|].
    rewrite reconcile_populated, Hpop by assumption. reflexivity.
  - intros i g k Hg Hk.
    destruct (testcases_upto_orders k) as [Hord Hlenk].
    split; [unfold with_testcases; rewrite lookup_zip_with, Hg; simpl; rewrite Hk;
            reflexivity|].
    split; [reflexivity|]. split; [exact Hord|]. split; [exact Hlenk|].
    intros Hnil. simpl. rewrite Hnil. reflexivity.
Qed.

Lemma valid_archive_example :
  valid_archive
    (archive [file "1_0.out"; directory "cases/"; file "0_1.in"; file "0_0.out";
              file "1_0.in"; file "0_0.in"; file "0_1.out"]) [2; 1; 0].
Proof.
  split; [reflexivity|]. split.
  - repeat constructor; discriminate.
  - unfold regular_names, bundle_files.
    apply NoDup_Permutation.
    + apply (bool_decide_unpack (NoDup _)). vm_compute. exact I.
    + apply (bool_decide_unpack (NoDup _)). vm_compute. exact I.
    + intros x. vm_compute bundle_triples. simpl. rewrite !elem_of_cons. tauto.
Qed.

(** Three declared groups and an archive, in no particular order, of two
    testcases for group 0, one for group 1 and none for group 2. *)
Lemma C1_valid_archive_witness :
  let P := platform_of (fun _ => None) no_fault in
  let groups := [group 0 "a"; group 1 "b"; group 2 "c"] in
  readTestcaseFromTarGz P
    (archive [file "1_0.out"; directory "cases/"; file "0_1.in"; file "0_0.out";
              file "1_0.in"; file "0_0.in"; file "0_1.out"]) groups ∅
  = (∅, [group_with 0 "a" [0; 1]; group_with 1 "b" [0]; group 2 "c"],
     Ok [group_with 0 "a" [0; 1]; group_with 1 "b" [0]; group 2 "c"]).
Proof.
  set (P := platform_of (fun _ => None) no_fault).
  set (d := str "./testcase-bundle-1").
  refine (proj1 (C1_valid_archive P _ [group 0 "a"; group 1 "b"; group 2 "c"] [2; 1; 0]
                   ∅ (<[d := ∅]> ∅) d valid_archive_example _ _ _ _ _ _)).
  - reflexivity.
  - repeat constructor; vm_compute; discriminate.
  - vm_compute. discriminate.
  - left. reflexivity.
  - reflexivity.
  - reflexivity.
Defined.

(** * Further properties *)

(** ** The ingestion never indexes out of range *)

Lemma decode_entry_length (P : Platform) (d : gostring) (tcGroups : list TestcaseGroup)
    (header : TarEntry) (go go' : list Orders) (c c' : Z) (fs fs' : FS) :
  decode_entry P d tcGroups header go c fs = (fs', Ok (go', c')) ->
  length go' = length go.
Proof.
  unfold decode_entry. destruct (Typeflag header); [intros [= _ <- _]; reflexivity| |discriminate].
  destruct (validateBundleFilename _); [discriminate|].
  destruct (parseTestcaseFilename _) as [[[g t] ext]|e]; [|discriminate].
  destruct (orb _ _); [discriminate|].
  destruct (go !! Z.to_nat g); [|discriminate].
  destruct (mark _ _ _ _ _); [|discriminate].
  destruct (extract _ _ _ _ _ _) as [fs1 [e|]]; [discriminate|].
  intros [= _ <- _]. apply length_insert.
Qed.

Lemma decode_entry_no_panic (P : Platform) (d : gostring) (tcGroups : list TestcaseGroup)
    (header : TarEntry) (go : list Orders) (c : Z) (fs fs' : FS) (err : error) :
  length go = length tcGroups ->
  decode_entry P d tcGroups header go c fs = (fs', Err err) -> err <> PanicIndex.
Proof.
  intros Hlen. unfold decode_entry. destruct (Typeflag header).
  - discriminate.
  - destruct (validateBundleFilename (Name header)) as [e|] eqn:Ev.
    + intros [= _ <-].
      destruct (validateBundleFilename_Some _ _ Ev) as [-> | [-> | ->]]; discriminate.
    + destruct (parseTestcaseFilename _) as [[[g t] ext]|e] eqn:Ep.
      * destruct (orb _ _) eqn:Hrange; [intros [= _ <-]; discriminate|].
        apply orb_false_iff in Hrange as [Hlo Hhi].
        apply Z.ltb_ge in Hlo. rewrite Z.geb_leb in Hhi. apply Z.leb_gt in Hhi.
        destruct (go !! Z.to_nat g) eqn:Hgo.
        -- destruct (mark _ _ _ _ _) as [p'|e] eqn:Em.
           ++ unfold extract. destruct (fs !! d); [|intros [= _ <-]; discriminate].
              destruct (io_fault P c _) as [[]|]; try discriminate;
                intros [= _ <-]; discriminate.
           ++ intros [= _ <-]. unfold mark in Em.
              repeat match type of Em with
                     | (if ?b then _ else _) = _ => destruct b
                     end; try discriminate; injection Em as <-; discriminate.
        -- apply lookup_ge_None in Hgo. lia.
      * intros [= _ <-]. unfold parseTestcaseFilename in Ep.
        repeat match type of Ep with
               | (if ?b then _ else _) = _ => destruct b
               | match ?o with Some _ => _ | None => _ end = _ => destruct o
               end; try discriminate; injection Ep as <-; discriminate.
  - intros [= _ <-]. discriminate.
Qed.

Lemma decode_no_panic (P : Platform) (d : gostring) (tcGroups : list TestcaseGroup)
    (entries : list TarEntry) (ending : TarEnd) :
  forall (go : list Orders) (c : Z) (fs : FS),
  length go = length tcGroups ->
  match decode P d tcGroups entries ending go c fs with
  | (_, Ok (go', _)) => length go' = length tcGroups
  | (_, Err err) => err <> PanicIndex
  end.
Proof.
  induction entries as [|header entries IH]; intros go c fs Hlen; simpl.
  - destruct ending; [exact Hlen | discriminate].
  - destruct (decode_entry P d tcGroups header go c fs) as [fs1 [[go1 c1]|e]] eqn:He.
    + apply IH. apply decode_entry_length in He. congruence.
    + eapply decode_entry_no_panic; eassumption.
Qed.

Lemma reconcile_group_length (P : Platform) (i : nat) (orders : Orders)
    (tcGroups tcGroups' : list TestcaseGroup) (r : option error) :
  reconcile_group P i orders tcGroups = (tcGroups', r) ->
  length tcGroups' = length tcGroups.
Proof.
  unfold reconcile_group.
  repeat match goal with
         | |- (if ?b then _ else _) = _ -> _ => destruct b
         | |- match ?o with inl _ => _ | inr _ => _ end = _ -> _ => destruct o
         | |- match ?o with Some _ => _ | None => _ end = _ -> _ => destruct o
         end; intros [= <- _]; try reflexivity.
  apply length_insert.
Qed.

(** The errors of the final validation: the two it reports, and none on
    an index as long as every map of orders has its declared group. *)
Lemma reconcile_errors (P : Platform) (groupOrders : list Orders) :
  forall (i : nat) (tcGroups tcGroups' : list TestcaseGroup) (err : error),
  (i + length groupOrders <= length tcGroups)%nat ->
  reconcile P i groupOrders tcGroups = (tcGroups', Some err) ->
  final_validation_error err = true.
Proof.
  induction groupOrders as [|orders gos IH]; intros i tc tc' err Hlen; simpl;
    [discriminate|].
  simpl in Hlen.
  destruct (reconcile_group P i orders tc) as [tc1 [e|]] eqn:Hg.
  - intros [= _ <-]. unfold reconcile_group in Hg.
    destruct (size orders =? 0)%nat; [discriminate|].
    destruct (collect_orders _); [injection Hg as _ <-; reflexivity|].
    destruct (consecutive_from _ _); [|injection Hg as _ <-; reflexivity].
    destruct (tc !! i) eqn:Hi; [discriminate|].
    apply lookup_ge_None in Hi. lia.
  - apply IH. apply reconcile_group_length in Hg. lia.
Qed.

(** What a failed [readTestcaseFromTarGz] leaves of the caller's groups. *)
Lemma readTestcaseFromTarGz_Err (P : Platform) (tr : TarReader)
    (tcGroups tcGroups' : list TestcaseGroup) (fs fs' : FS) (err : error) :
  readTestcaseFromTarGz P tr tcGroups fs = (fs', tcGroups', Err err) ->
  err <> PanicIndex
  /\ (final_validation_error err = false -> tcGroups' = tcGroups).
Proof.
  unfold readTestcaseFromTarGz.
  destruct (os.MkdirTemp _ _ _ _) as [fs0 [d|]];
    [|intros [= _ <- <-]; split; [discriminate | reflexivity]].
  unfold readTestcase_body.
  pose proof (decode_no_panic P d tcGroups (tr_entries tr) (tr_end tr)
                (map (fun _ => (∅ : Orders)) tcGroups) 0 fs0
                (length_map _ _)) as Hd.
  destruct (decode _ _ _ _ _ _ _ _) as [fs1 [[go c]|e]].
  - destruct (c =? 0); [intros [= _ <- <-]; split; [discriminate | reflexivity]|].
    destruct (reconcile P 0 go tcGroups) as [tc' [e|]] eqn:Hr; [|discriminate].
    intros [= _ <- <-].
    apply reconcile_errors in Hr; [|simpl; lia].
    split; [intros ->; discriminate | congruence].
  - intros [= _ <- <-]. split; [exact Hd | reflexivity].
Qed.

(** X1.  Whatever the archive and the declared groups, the ingestion never
    fails on an index out of range: the group a file names is checked
    against the declared groups before [groupOrders] and [tcGroups] are
    indexed by it, and the final validation walks one map of orders per
    declared group. *)
Theorem X1_no_index_out_of_range (P : Platform) (filename : gostring)
    (data : list byte) (tr : TarReader) (tcGroups : list TestcaseGroup) (fs : FS) :
  (readTestcaseFromTarGz P tr tcGroups fs).2 <> Err PanicIndex
  /\ (GetTestcaseBundleFromArchive P filename data tcGroups fs).2 <> Err PanicIndex.
Proof.
  assert (forall tr, (readTestcaseFromTarGz P tr tcGroups fs).2 <> Err PanicIndex) as Hread.
  { intros tr0.
    destruct (readTestcaseFromTarGz P tr0 tcGroups fs) as [[fs1 tc1] [out|e]] eqn:Hr;
      [discriminate|].
    apply readTestcaseFromTarGz_Err in Hr as [Hp _]. simpl. congruence. }
  split; [apply Hread|].
  unfold GetTestcaseBundleFromArchive.
  remember (hex.EncodeToString (sha256.Sum256 data)) as h eqn:Hh. clear Hh.
  destruct (Nat.eqb_spec (length data) 0); [discriminate|].
  destruct (strings.HasSuffix _ _); [discriminate|].
  destruct (_ || _); [|discriminate].
  destruct (gzip_NewReader P data) as [tr0|]; [|discriminate].
  specialize (Hread tr0).
  destruct (readTestcaseFromTarGz P tr0 tcGroups fs) as [[fs1 tc1] [out|e]];
    [discriminate|].
  simpl in *. intros [= ->]. apply Hread. reflexivity.
Qed.

(** ** A failed ingestion and the caller's groups *)

(** X2.  When [readTestcaseFromTarGz] fails with any error but the two of
    the final validation (incomplete pair, orders not consecutive), the
    caller's groups are as they were before the call: nothing is written
    to them before every entry of the archive has been decoded. *)
Theorem X2_groups_untouched_before_validation (P : Platform) (tr : TarReader)
    (tcGroups tcGroups' : list TestcaseGroup) (fs fs' : FS) (err : error) :
  readTestcaseFromTarGz P tr tcGroups fs = (fs', tcGroups', Err err) ->
  final_validation_error err = false ->
  tcGroups' = tcGroups /\ fs' = fs.
Proof.
  intros Hr Hfinal. split.
  - apply readTestcaseFromTarGz_Err in Hr as [_ Hsame]. auto.
  - pose proof (readTestcaseFromTarGz_frame P tr tcGroups fs) as Hfs.
    rewrite Hr in Hfs. exact Hfs.
Qed.

(** The groups declared with testcases stay as declared when the archive
    holds, after a complete testcase, a file of an unknown kind. *)
Lemma X2_groups_untouched_before_validation_witness :
  let P := platform_of (fun _ => None) no_fault in
  let groups := [group_with 0 "a" [5]; group 1 "b"] in
  let r := readTestcaseFromTarGz P
             (archive [file "0_0.in"; file "0_0.out"; file "0_0.txt"]) groups ∅ in
  r.2 = Err (ErrInvalidFilename (str "0_0.txt")) /\ r.1.2 = groups /\ r.1.1 = ∅.
Proof.
  intros P groups r. split; [vm_compute; reflexivity|].
  apply (X2_groups_untouched_before_validation P
           (archive [file "0_0.in"; file "0_0.out"; file "0_0.txt"]) groups
           r.1.2 ∅ r.1.1 (ErrInvalidFilename (str "0_0.txt")));
    vm_compute; reflexivity.
Defined.

(** ** What an accepted archive is made of *)

Lemma decode_entry_accepted (P : Platform) (d : gostring) (tcGroups : list TestcaseGroup)
    (header : TarEntry) (go go' : list Orders) (c c' : Z) (fs fs' : FS) :
  decode_entry P d tcGroups header go c fs = (fs', Ok (go', c')) ->
  accepted tcGroups header
  /\ (c' = c \/ (c' = c + 1 /\ Typeflag header = TypeReg)).
Proof.
  unfold decode_entry, accepted, resolves.
  destruct (Typeflag header); [intros [= _ _ <-]; auto| |discriminate].
  destruct (validateBundleFilename _); [discriminate|].
  destruct (parseTestcaseFilename _) as [[[g t] ext]|e]; [|discriminate].
  destruct (orb _ _) eqn:Hrange; [discriminate|].
  apply orb_false_iff in Hrange as [Hlo Hhi].
  apply Z.ltb_ge in Hlo. rewrite Z.geb_leb in Hhi. apply Z.leb_gt in Hhi.
  destruct (go !! Z.to_nat g); [|discriminate].
  destruct (mark _ _ _ _ _); [|discriminate].
  destruct (extract _ _ _ _ _ _) as [fs1 [e|]]; [discriminate|].
  intros [= _ _ <-]. split; [right; exists g, t, ext; split; [reflexivity | lia] | auto].
Qed.

Lemma decode_accepted (P : Platform) (d : gostring) (tcGroups : list TestcaseGroup)
    (entries : list TarEntry) (ending : TarEnd) :
  forall (go go' : list Orders) (c c' : Z) (fs fs' : FS),
  decode P d tcGroups entries ending go c fs = (fs', Ok (go', c')) ->
  ending = TarEOF /\ Forall (accepted tcGroups) entries
  /\ (c' <> c -> Exists (fun header => Typeflag header = TypeReg) entries).
Proof.
  induction entries as [|header entries IH]; intros go go' c c' fs fs'; simpl.
  - destruct ending; [|discriminate]. intros [= _ _ <-].
    split; [reflexivity|]. split; [constructor | congruence].
  - destruct (decode_entry P d tcGroups header go c fs) as [fs1 [[go1 c1]|e]] eqn:He;
      [|discriminate].
    intros Hd. apply IH in Hd as (Hend & Hall & Hex).
    apply decode_entry_accepted in He as [Hacc Hc].
    split; [exact Hend|]. split; [constructor; assumption|].
    intros Hne. destruct Hc as [-> | [-> Hreg]].
    + apply Exists_cons_tl. auto.
    + apply Exists_cons_hd. exact Hreg.
Qed.



(** ** Without declared groups *)

Lemma decode_no_groups (P : Platform) (d : gostring) (entries : list TarEntry)
    (ending : TarEnd) :
  forall (go go' : list Orders) (c c' : Z) (fs fs' : FS),
  decode P d [] entries ending go c fs = (fs', Ok (go', c')) -> c' = c.
Proof.
  intros go go' c c' fs fs' Hd.
  destruct (Z.eq_dec c' c) as [|Hne]; [assumption|].
  apply decode_accepted in Hd as (_ & Hall & Hex). specialize (Hex Hne).
  apply Exists_exists in Hex as (header & Hin & Hreg).
  rewrite Forall_forall in Hall.
  destruct (Hall header Hin) as [Hdir | (g & t & ext & _ & Hg)].
  - congruence.
  - simpl in Hg. lia.
Qed.

Lemma readTestcaseFromTarGz_no_groups (P : Platform) (tr : TarReader) (fs : FS) :
  exists err, readTestcaseFromTarGz P tr [] fs = (fs, [], Err err).
Proof.
  pose proof (readTestcaseFromTarGz_frame P tr [] fs) as Hfs.
  destruct (readTestcaseFromTarGz P tr [] fs) as [[fs1 tc1] [out|e]] eqn:Hr.
  - exfalso. revert Hr. unfold readTestcaseFromTarGz.
    destruct (os.MkdirTemp _ _ _ _) as [fs0 [d|]]; [|discriminate].
    unfold readTestcase_body.
    destruct (decode _ _ _ _ _ _ _ _) as [fs2 [[go c]|e]] eqn:Hd; [|discriminate].
    apply decode_no_groups in Hd. subst c. discriminate.
  - simpl in Hfs. subst fs1. exists e.
    destruct (final_validation_error e) eqn:Hfinal.
    + revert Hr. unfold readTestcaseFromTarGz.
      destruct (os.MkdirTemp _ _ _ _) as [fs0 [d|]]; [|intros [= _ _ <-]; discriminate].
      unfold readTestcase_body.
      destruct (decode _ _ _ _ _ _ _ _) as [fs2 [[go c]|e']] eqn:Hd.
      * apply decode_no_groups in Hd. subst c. intros [= _ _ <-]. discriminate.
      * intros [= _ <- _]. reflexivity.
    + apply readTestcaseFromTarGz_Err in Hr as [_ Hsame].
      rewrite (Hsame Hfinal). reflexivity.
Qed.

Lemma GetTestcaseBundleFromArchive_no_groups (P : Platform) (filename : gostring)
    (data : list byte) (fs : FS) :
  exists err, GetTestcaseBundleFromArchive P filename data [] fs = (fs, [], Err err).
Proof.
  unfold GetTestcaseBundleFromArchive.
  remember (hex.EncodeToString (sha256.Sum256 data)) as h eqn:Hh. clear Hh.
  destruct (Nat.eqb_spec (length data) 0); [eauto|].
  destruct (strings.HasSuffix _ _); [eauto|].
  destruct (_ || _); [|eauto].
  destruct (gzip_NewReader P data) as [tr0|]; [|eauto].
  destruct (readTestcaseFromTarGz_no_groups P tr0 fs) as [err ->]. eauto.
Qed.

(** X4.  Without declared groups nothing is accepted: whatever the file
    name, the bytes and the archive, [GetTestcaseBundleFromArchive] and
    [readTestcaseFromTarGz] called with no group return an error, and
    leave the filesystem as it was. *)
Theorem X4_no_declared_group (P : Platform) (filename : gostring) (data : list byte)
    (tr : TarReader) (fs : FS) :
  (exists err, readTestcaseFromTarGz P tr [] fs = (fs, [], Err err))
  /\ (exists err, GetTestcaseBundleFromArchive P filename data [] fs = (fs, [], Err err)).
Proof.
  split.
  - apply readTestcaseFromTarGz_no_groups.
  - apply GetTestcaseBundleFromArchive_no_groups.
Qed.

(** ** Directories *)

Lemma decode_without_directories (P : Platform) (d : gostring)
    (tcGroups : list TestcaseGroup) (entries : list TarEntry) (ending : TarEnd) :
  forall (go : list Orders) (c : Z) (fs : FS),
  decode P d tcGroups (List.filter (fun header => negb (is_dir header)) entries)
         ending go c fs
  = decode P d tcGroups entries ending go c fs.
Proof.
  induction entries as [|header entries IH]; intros go c fs; simpl; [reflexivity|].
  unfold is_dir. destruct (Typeflag header) eqn:Ht; simpl.
  - unfold decode_entry. rewrite Ht. apply IH.
  - destruct (decode_entry _ _ _ _ _ _ _) as [fs1 [[go1 c1]|e]]; [apply IH | reflexivity].
  - destruct (decode_entry _ _ _ _ _ _ _) as [fs1 [[go1 c1]|e]]; [apply IH | reflexivity].
Qed.

(** X5.  The directory entries of an archive count for nothing: the
    ingestion of an archive and the ingestion of the same archive without
    its directory entries end the same way, with the same groups and the
    same error if any. *)
Theorem X5_directories_skipped (P : Platform) (tr : TarReader)
    (tcGroups : list TestcaseGroup) (fs : FS) :
  readTestcaseFromTarGz P (without_directories tr) tcGroups fs
  = readTestcaseFromTarGz P tr tcGroups fs.
Proof.
  unfold readTestcaseFromTarGz, readTestcase_body, without_directories. simpl.
  destruct (os.MkdirTemp _ _ _ _) as [fs0 [d|]]; [|reflexivity].
  rewrite decode_without_directories. reflexivity.
Qed.

(** ** A file for a group that is not declared *)

(** X6.  When the decode pass reaches a regular file whose name resolves
    to a group number that is not below the number of declared groups,
    ingestion fails with "testcase group <number> does not exist", the
    number as parsed from the name; the filesystem and the caller's groups
    are as before the call. *)
Theorem X6_undeclared_group (P : Platform) (tr : TarReader)
    (tcGroups : list TestcaseGroup) (fs fs0 fs1 : FS) (d : gostring)
    (pre rest : list TarEntry) (header : TarEntry)
    (go1 : list Orders) (c1 : Z) (g t : Z) (ext : gostring) :
  os.MkdirTemp P (extractBase P) (str "testcase-bundle-") fs = (fs0, Some d) ->
  tr_entries tr = pre ++ header :: rest ->
  decode P d tcGroups pre TarEOF (no_orders tcGroups) 0 fs0 = (fs1, Ok (go1, c1)) ->
  resolves header = Some (g, t, ext) ->
  Z.of_nat (length tcGroups) <= g ->
  readTestcaseFromTarGz P tr tcGroups fs = (fs, tcGroups, Err (ErrGroupNotExist g))
  /\ Error (ErrGroupNotExist g)
     = str "testcase group " ++ strconv.Itoa g ++ str " does not exist".
Proof.
  intros Hmk Hentries Hpre Hres Hg.
  apply resolves_Some in Hres as (Hreg & Hval & Hparse).
  split.
  - eapply ingest_stops_at; [exact Hmk | exact Hentries | exact Hpre |].
    unfold decode_entry. rewrite Hreg, Hval, Hparse.
    replace (g >=? Z.of_nat (length tcGroups)) with true
      by (symmetry; rewrite Z.geb_leb; apply Z.leb_le; exact Hg).
    rewrite orb_true_r. reflexivity.
  - simpl. unfold fmt_d.
    replace (g <? 0) with false by (symmetry; apply Z.ltb_ge; lia). reflexivity.
Qed.

(** With two declared groups, a file of group 2 is refused. *)
Lemma X6_undeclared_group_witness :
  let P := platform_of (fun _ => None) no_fault in
  let groups := [group 0 "a"; group 1 "b"] in
  readTestcaseFromTarGz P (archive [file "0_0.in"; file "2_0.in"; file "0_0.out"])
                        groups ∅
  = (∅, groups, Err (ErrGroupNotExist 2))
  /\ Error (ErrGroupNotExist 2) = str "testcase group 2 does not exist".
Proof.
  intros P groups.
  set (D := decode P (str "./testcase-bundle-1") groups [file "0_0.in"] TarEOF
              (no_orders groups) 0 (<[str "./testcase-bundle-1" := ∅]> ∅)).
  refine (X6_undeclared_group P
            (archive [file "0_0.in"; file "2_0.in"; file "0_0.out"]) groups ∅
            (<[str "./testcase-bundle-1" := ∅]> ∅) D.1 (str "./testcase-bundle-1")
            [file "0_0.in"] [file "0_0.out"] (file "2_0.in")
            (decoded D).1 (decoded D).2 2 0 (str "in") _ _ _ _ _).
  - reflexivity.
  - reflexivity.
  - vm_compute. reflexivity.
  - vm_compute. reflexivity.
  - vm_compute. discriminate.
Defined.

(** ** The version a caller supplies *)

(** X7.  [UpdateTestcaseBundle] does not read the version of the bundle it
    is given: whatever version the caller has put in the bundle, the
    repository is left in the same state and the result is the same.  The
    version stored is always the one computed from the current bundle. *)
Theorem X7_supplied_version_ignored {R : Type} `{ProblemRepository R}
    (repo : R) (problemID : Z) (bundle : TestcaseBundle) (v : Z) :
  UpdateTestcaseBundle repo problemID (with_Version bundle v)
  = UpdateTestcaseBundle repo problemID bundle.
Proof.
  unfold UpdateTestcaseBundle, reconcile_version.
  destruct (GetLatestTestcaseBundle repo problemID) as [err|current].
  - destruct (negb (is_ErrNotFound err)); [reflexivity|].
    destruct (Get repo problemID); reflexivity.
  - reflexivity.
Qed.

(** ** The listing of the store *)

Lemma by_id_total : Total pgstore.by_id.
Proof. intros x y. unfold pgstore.by_id. lia. Qed.

Lemma by_id_trans : Transitive pgstore.by_id.
Proof. intros x y z. unfold pgstore.by_id. lia. Qed.

Lemma ordered_Permutation (db : DB) : pgstore.ordered db ≡ₚ map_to_list (problems db).
Proof. apply merge_sort_Permutation. Qed.

Lemma ordered_length (db : DB) : length (pgstore.ordered db) = size (problems db).
Proof. rewrite ordered_Permutation. apply length_map_to_list. Qed.

Lemma elem_of_ordered (db : DB) (id : Z) (p : Problem) :
  (id, p) ∈ pgstore.ordered db <-> problems db !! id = Some p.
Proof. rewrite ordered_Permutation. apply elem_of_map_to_list. Qed.

Lemma StronglySorted_le_lt (l : list Z) :
  StronglySorted Z.le l -> NoDup l -> StronglySorted Z.lt l.
Proof.
  induction 1 as [|x l Hs IH Hall]; intros Hnd; [constructor|].
  apply NoDup_cons in Hnd as [Hx Hnd].
  constructor; [auto|].
  rewrite Forall_forall in Hall |- *. intros y Hy.
  specialize (Hall y Hy). assert (x <> y) by (intros ->; contradiction). lia.
Qed.

(** The ids of the problems, in the order of the listing, increase. *)
Lemma ordered_ids (db : DB) : StronglySorted Z.lt (pgstore.ordered db).*1.
Proof.
  apply StronglySorted_le_lt.
  - apply (StronglySorted_fmap fst pgstore.by_id Z.le); [auto|].
    apply StronglySorted_merge_sort; [apply by_id_trans | apply by_id_total].
  - rewrite ordered_Permutation. apply NoDup_fst_map_to_list.
Qed.

Lemma scan_ID (db : DB) (row : Z * Problem) : p_ID (store.scan db row) = row.1.
Proof. unfold store.scan. destruct (store.latest_row _ _); reflexivity. Qed.

Lemma scan_ids (db : DB) (rows : list (Z * Problem)) :
  map p_ID (map (store.scan db) rows) = rows.*1.
Proof.
  induction rows as [|row rows IH]; simpl; [reflexivity|].
  rewrite scan_ID, IH. reflexivity.
Qed.

Lemma StronglySorted_take_drop {A : Type} (R : relation A) (l : list A) (i j : nat) :
  StronglySorted R l -> StronglySorted R (take j (drop i l)).
Proof.
  intros Hs.
  rewrite <- (take_drop i l) in Hs. apply StronglySorted_app_1_r in Hs.
  rewrite <- (take_drop j (drop i l)) in Hs. apply StronglySorted_app_1_l in Hs.
  exact Hs.
Qed.

Lemma scan_rows_sound (s : Session) (db : DB) (rows : list (Z * Problem)) :
  (forall n, scan_error s n = None) -> (forall n, rows_error s n = None) ->
  forall n problems,
    pgstore.scan_rows s db rows n problems
    = inr (problems ++ map (store.scan db) rows).
Proof.
  intros Hscan Hrows.
  induction rows as [|row rows IH]; intros n problems; simpl.
  - rewrite Hrows, app_nil_r. reflexivity.
  - rewrite Hrows, Hscan, IH, <- app_assoc. reflexivity.
Qed.

(** In a sound session [List] returns the rows of its query. *)
Lemma List_sound (s : Session) (db : DB) (offset limit : Z) :
  sound_session s (if limit <? 1 then 20 else limit) ->
  pgstore.List s db offset limit
  = Returned
      (inr (map (store.scan db)
              (take (Z.to_nat (if limit <? 1 then 20 else limit))
                 (drop (Z.to_nat (if offset <? 0 then 0 else offset))
                    (pgstore.ordered db))),
            Z.of_nat (size (problems db)))).
Proof.
  intros (Hcount & Hquery & Hscan & Hrows & Hmake).
  unfold pgstore.List. rewrite Hcount, Hquery.
  replace (make_max s <? _) with false by (symmetry; apply Z.ltb_ge; exact Hmake).
  rewrite scan_rows_sound by assumption. reflexivity.
Qed.

(** An error of the driver is returned as it is, and a limit beyond what
    [make] grants makes the call panic once the two queries have run. *)
Lemma List_unsound (s : Session) (db : DB) (offset limit : Z) :
  match count_error s, query_error s with
  | Some err, _ => pgstore.List s db offset limit = Returned (inl err)
  | None, Some err => pgstore.List s db offset limit = Returned (inl err)
  | None, None =>
      make_max s < (if limit <? 1 then 20 else limit) ->
      pgstore.List s db offset limit = Panicked
  end.
Proof.
  unfold pgstore.List.
  destruct (count_error s); [reflexivity|].
  destruct (query_error s); [reflexivity|].
  intros Hmake. apply Z.ltb_lt in Hmake. rewrite Hmake. reflexivity.
Qed.

(** X8.  A page of the listing.  In a session in which the driver reports
    no error and [make] grants the capacity asked for (the limit, or 20
    when the limit is below one), whatever the offset and the limit, the
    store returns as total the number of problems, at most [limit]
    problems (at most 20 when [limit] is below one), each of them a stored
    problem under its own id, by strictly increasing id. *)
Theorem X8_page_of_listing (s : Session) (db : DB) (offset limit : Z) :
  sound_session s (if limit <? 1 then 20 else limit) ->
  exists items,
    pgstore.List s db offset limit
    = Returned (inr (items, Z.of_nat (size (problems db))))
    /\ Z.of_nat (length items) <= (if limit <? 1 then 20 else limit)
    /\ StronglySorted Z.lt (map p_ID items)
    /\ forall item, item ∈ items -> is_Some (problems db !! p_ID item).
Proof.
  intros Hs. rewrite (List_sound s db offset limit Hs).
  set (o := Z.to_nat (if offset <? 0 then 0 else offset)).
  set (lim := if limit <? 1 then 20 else limit).
  exists (map (store.scan db) (take (Z.to_nat lim) (drop o (pgstore.ordered db)))).
  split; [reflexivity|]. split; [|split].
  - rewrite length_map, length_take.
    assert (1 <= lim) by (unfold lim; destruct (Z.ltb_spec limit 1); lia). lia.
  - rewrite scan_ids.
    change ((take (Z.to_nat lim) (drop o (pgstore.ordered db))).*1)
      with (fst <$> take (Z.to_nat lim) (drop o (pgstore.ordered db))).
    rewrite fmap_take, fmap_drop.
    apply StronglySorted_take_drop, ordered_ids.
  - intros item Hin.
    apply list_elem_of_fmap in Hin as ([id p] & -> & Hrow).
    rewrite scan_ID. simpl.
    eapply elem_of_sublist in Hrow; [|apply sublist_take].
    eapply elem_of_sublist in Hrow; [|apply sublist_drop].
    apply elem_of_ordered in Hrow. rewrite Hrow. eauto.
Qed.

(** The second page of two problems, out of three. *)
Lemma X8_page_of_listing_witness :
  let db := {| problems := <[3 := with_ID (problem_of empty_bundle) 3]>
                             (<[1 := with_ID (problem_of empty_bundle) 1]>
                                (<[2 := with_ID (problem_of empty_bundle) 2]> ∅));
               testcase_bundles := []; next_id := 4 |} in
  sound_session (quiet_session 100) 2
  /\ exists items,
       pgstore.List (quiet_session 100) db 2 2 = Returned (inr (items, 3))
       /\ Z.of_nat (length items) <= 2
       /\ StronglySorted Z.lt (map p_ID items)
       /\ forall item, item ∈ items -> is_Some (problems db !! p_ID item).
Proof.
  intros db.
  assert (sound_session (quiet_session 100) 2) as Hs
    by (repeat split; simpl; lia).
  split; [exact Hs|].
  exact (X8_page_of_listing (quiet_session 100) db 2 2 Hs).
Defined.

Lemma first_pages_take (s : Session) (db : DB) (limit : Z) (n : nat) :
  1 <= limit -> sound_session s limit ->
  first_pages s db limit n
  = map (store.scan db) (take (n * Z.to_nat limit) (pgstore.ordered db)).
Proof.
  intros Hlimit Hs. unfold first_pages.
  assert ((if limit <? 1 then 20 else limit) = limit) as Hlim
    by (destruct (Z.ltb_spec limit 1); lia).
  induction n as [|n IH]; [reflexivity|].
  rewrite seq_S, flat_map_app, IH. simpl. rewrite app_nil_r.
  rewrite List_sound by (rewrite Hlim; exact Hs). simpl.
  replace (Z.of_nat n * limit <? 0) with false by (symmetry; apply Z.ltb_ge; nia).
  rewrite Hlim.
  rewrite <- map_app. f_equal.
  replace (Z.to_nat (Z.of_nat n * limit)) with (n * Z.to_nat limit)%nat by nia.
  rewrite take_take_drop. f_equal. lia.
Qed.

(** X9.  Paging through the listing misses nothing and repeats nothing:
    with a limit of at least one, in a session in which the driver reports
    no error and [make] grants the limit as capacity, the pages of offsets
    [0], [limit], [2 * limit], ... put one after the other, once they cover
    the number of problems, are the whole listing: every stored problem
    exactly once, by strictly increasing id. *)
Theorem X9_pages_cover_listing (s : Session) (db : DB) (limit : Z) (n : nat) :
  1 <= limit ->
  sound_session s limit ->
  Z.of_nat (size (problems db)) <= Z.of_nat n * limit ->
  first_pages s db limit n = map (store.scan db) (pgstore.ordered db)
  /\ StronglySorted Z.lt (map p_ID (first_pages s db limit n))
  /\ forall id, id ∈ map p_ID (first_pages s db limit n) <-> is_Some (problems db !! id).
Proof.
  intros Hlimit Hs Hn.
  assert (first_pages s db limit n = map (store.scan db) (pgstore.ordered db)) as ->.
  { rewrite first_pages_take by assumption. f_equal.
    apply take_ge. rewrite ordered_length. nia. }
  split; [reflexivity|]. rewrite scan_ids. split; [apply ordered_ids|].
  intros id. rewrite list_elem_of_fmap. split.
  - intros ([id' p] & -> & Hrow). apply elem_of_ordered in Hrow.
    simpl. rewrite Hrow. eauto.
  - intros [p Hp]. exists (id, p). split; [reflexivity|].
    apply elem_of_ordered. exact Hp.
Qed.

(** Three problems, listed two by two. *)
Lemma X9_pages_cover_listing_witness :
  let s := quiet_session 100 in
  let db := {| problems := <[3 := with_ID (problem_of empty_bundle) 3]>
                             (<[1 := with_ID (problem_of empty_bundle) 1]>
                                (<[2 := with_ID (problem_of empty_bundle) 2]> ∅));
               testcase_bundles := []; next_id := 4 |} in
  first_pages s db 2 2 = map (store.scan db) (pgstore.ordered db)
  /\ StronglySorted Z.lt (map p_ID (first_pages s db 2 2))
  /\ forall id, id ∈ map p_ID (first_pages s db 2 2) <-> is_Some (problems db !! id).
Proof.
  intros s db. apply (X9_pages_cover_listing s db 2 2); [lia| |].
  - repeat split; simpl; lia.
  - vm_compute. discriminate.
Defined.

(** ** Pagination *)

Lemma wrap_int_small (z : Z) : min_int <= z <= max_int -> wrap_int z = z.
Proof.
  unfold wrap_int, min_int, max_int. intros Hz.
  rewrite Z.mod_small by lia. lia.
Qed.

Lemma Atoi_range (s : gostring) (n : Z) :
  strconv.Atoi s = Some n -> min_int <= n <= max_int.
Proof.
  unfold strconv.Atoi.
  match goal with
  | |- (let '(_, _) := ?x in _) = _ -> _ => destruct x as [neg digits]
  end.
  destruct digits as [|c digits]; [discriminate|].
  destruct (strconv.parse_digits 0 (c :: digits)) as [m|]; [|discriminate].
  destruct (andb _ _) eqn:E; [|discriminate].
  intros [= <-]. apply andb_true_iff in E as [Hlo Hhi].
  apply Z.leb_le in Hlo. apply Z.leb_le in Hhi. lia.
Qed.

Lemma positive_int_Some (raw : gostring) (n : Z) :
  positive_int raw = Some n <-> strconv.Atoi raw = Some n /\ 1 <= n.
Proof.
  unfold positive_int. destruct (strconv.Atoi raw) as [m|].
  - destruct (Z.ltb_spec m 1); split.
    + discriminate.
    + intros [[= ->] Hn]. lia.
    + intros [= ->]. auto.
    + intros [[= ->] _]. reflexivity.
  - split; [discriminate | intros [[=] _]].
Qed.

Lemma parsePagination_inr (P : Platform) (r : Request) (page limit offset : Z) :
  parsePagination P r = inr (page, limit, offset) ->
  1 <= page <= max_int /\ 1 <= limit <= 100
  /\ offset = wrap_int ((page - 1) * limit).
Proof.
  unfold parsePagination, defaultPage, defaultLimit, maxLimit.
  set (rawPage := strings_TrimSpace P (Query_Get r (str "page"))).
  set (rawLimit :=
         if gostring_eqb (strings_TrimSpace P (Query_Get r (str "limit"))) []
         then strings_TrimSpace P (Query_Get r (str "per_page"))
         else strings_TrimSpace P (Query_Get r (str "limit"))).
  intros Hp.
  assert (exists p, (if gostring_eqb rawPage [] then Some 1 else positive_int rawPage)
                    = Some p) as [p Hpage].
  { destruct (if gostring_eqb rawPage [] then Some 1 else positive_int rawPage);
      [eauto | discriminate]. }
  rewrite Hpage in Hp.
  assert (exists l, (if gostring_eqb rawLimit [] then Some 20 else positive_int rawLimit)
                    = Some l) as [l Hlimit].
  { destruct (if gostring_eqb rawLimit [] then Some 20 else positive_int rawLimit);
      [eauto | discriminate]. }
  rewrite Hlimit in Hp.
  assert (1 <= p <= max_int) as Hprange.
  { destruct (gostring_eqb rawPage []).
    - injection Hpage as <-. unfold max_int. lia.
    - apply positive_int_Some in Hpage as [Ha Hp1]. apply Atoi_range in Ha. lia. }
  assert (1 <= l) as Hlrange.
  { destruct (gostring_eqb rawLimit []).
    - injection Hlimit as <-. lia.
    - apply positive_int_Some in Hlimit as [_ Hl1]. exact Hl1. }
  destruct (Z.ltb_spec 100 l); injection Hp as <- <- <-; repeat split; lia.
Qed.

(** X10.  The pagination a request is given: the page is at least 1, the
    limit is between 1 and 100, and the offset is the 64-bit product
    [(page - 1) * limit]: as long as that product fits an [int] the offset
    is the product itself and is not negative. *)
Theorem X10_pagination_range (P : Platform) (r : Request) (page limit offset : Z) :
  parsePagination P r = inr (page, limit, offset) ->
  1 <= page <= max_int /\ 1 <= limit <= 100
  /\ offset = wrap_int ((page - 1) * limit)
  /\ ((page - 1) * limit <= max_int -> offset = (page - 1) * limit /\ 0 <= offset).
Proof.
  intros Hp. apply parsePagination_inr in Hp as (Hpage & Hlimit & ->).
  repeat split; try lia.
  - rewrite wrap_int_small; [reflexivity | unfold min_int; nia].
  - rewrite wrap_int_small; [nia | unfold min_int; nia].
Qed.

(** The third page of 50 problems starts at offset 100; a limit of 500 is
    cut to 100. *)
Lemma X10_pagination_range_witness :
  let P := platform_of (fun _ => None) no_fault in
  parsePagination P (query_request [field "page" " 3 "; field "per_page" "50"])
  = inr (3, 50, 100)
  /\ parsePagination P (query_request [field "limit" "500"]) = inr (1, 100, 0)
  /\ (1 <= 3 <= max_int /\ 1 <= 50 <= 100 /\ 100 = wrap_int ((3 - 1) * 50)
      /\ ((3 - 1) * 50 <= max_int -> 100 = (3 - 1) * 50 /\ 0 <= 100)).
Proof.
  intros P. split; [vm_compute; reflexivity|]. split; [vm_compute; reflexivity|].
  apply (X10_pagination_range P
           (query_request [field "page" " 3 "; field "per_page" "50"]) 3 50 100).
  vm_compute. reflexivity.
Defined.

(** X11.  Listing through the handler: the limit that [parsePagination]
    returns passes through [ProblemService.List] as it is (the default of
    10 and the cap of the service never apply), the repository is asked
    for that offset and that limit, and the response reports the page and
    the limit of the request with the problems and the total of the
    repository; a failure of the repository is answered with status 500. *)
Theorem X11_listing_through_handler {R : Type} `{ProblemCatalog R}
    (P : Platform) (r : Request) (repo : R) (page limit offset : Z) :
  parsePagination P r = inr (page, limit, offset) ->
  ProblemService_List repo offset limit = List repo offset limit
  /\ ListProblems P r repo
     = match List repo offset limit with
       | inl _ =>
           writeError http.StatusInternalServerError (str "failed to list problems")
       | inr (items, total) =>
           writeJSON http.StatusOK (ProblemListResponse items page limit total)
       end.
Proof.
  intros Hp.
  assert (ProblemService_List repo offset limit = List repo offset limit) as Hlist.
  { apply parsePagination_inr in Hp as (_ & Hlimit & _).
    unfold ProblemService_List.
    replace (limit <=? 0) with false by (symmetry; apply Z.leb_gt; lia).
    replace (100 <? limit) with false by (symmetry; apply Z.ltb_ge; lia).
    reflexivity. }
  split; [exact Hlist|].
  unfold ListProblems. rewrite Hp, Hlist. reflexivity.
Qed.

(** The second page of two problems, out of three. *)
Lemma X11_listing_through_handler_witness :
  let P := platform_of (fun _ => None) no_fault in
  let third := with_ID (problem_of empty_bundle) 3 in
  let repo := fun offset limit : Z =>
    if (offset =? 2) && (limit =? 2)
    then inr ([third], 3) else inl (ErrOther 0) in
  let r := query_request [field "page" "2"; field "limit" "2"] in
  ProblemService_List repo 2 2 = List repo 2 2
  /\ ListProblems P r repo
     = writeJSON http.StatusOK (ProblemListResponse [third] 2 2 3).
Proof.
  intros P third repo r.
  destruct (X11_listing_through_handler P r repo 2 2 2) as [H1 H2];
    [vm_compute; reflexivity|].
  split; [exact H1|]. rewrite H2. vm_compute. reflexivity.
Defined.

(** ** The problem id of a request *)

(** X12.  The id a handler reads from the URL is at least 1 and fits an
    [int]; and every such id, written in decimal as [strconv.Itoa] writes
    it, is read back as itself. *)
Theorem X12_problem_id (r : Request) (id : Z) :
  (parseProblemID r = inr id -> 1 <= id <= max_int)
  /\ (1 <= id <= max_int ->
      URLParam r (str "problemID") = strconv.Itoa id ->
      parseProblemID r = inr id).
Proof.
  unfold parseProblemID. split.
  - destruct (positive_int _) as [n|] eqn:Hn; [|discriminate].
    intros [= ->]. apply positive_int_Some in Hn as [Ha Hn]. apply Atoi_range in Ha. lia.
  - intros Hid ->.
    assert (positive_int (strconv.Itoa id) = Some id) as ->; [|reflexivity].
    apply positive_int_Some. split; [apply Atoi_Itoa; lia | lia].
Qed.

(** The problem 42. *)
Lemma X12_problem_id_witness :
  parseProblemID (form_request "42" [] []) = inr 42 /\ 1 <= 42 <= max_int.
Proof.
  pose proof (X12_problem_id (form_request "42" [] []) 42) as [Hrange Hread].
  assert (parseProblemID (form_request "42" [] []) = inr 42) as Hid.
  { apply Hread; [unfold max_int; lia | vm_compute; reflexivity]. }
  split; [exact Hid | exact (Hrange Hid)].
Defined.

(** ** Tags *)

Lemma Contains_false (s : gostring) (c : ascii) :
  strings.Contains s c = false <-> c ∉ s.
Proof.
  unfold strings.Contains. induction s as [|x s IH]; simpl.
  - split; [intros _; apply not_elem_of_nil | reflexivity].
  - rewrite orb_false_iff, IH, not_elem_of_cons.
    split; intros [Hx Hs]; (split; [|exact Hs]).
    + apply Ascii.eqb_neq in Hx. exact Hx.
    + apply Ascii.eqb_neq. exact Hx.
Qed.

(** The loop of [parseTags]: the trimmed parts that are not empty, in
    their order, after the tags found so far. *)
Lemma parseTags_loop (P : Platform) (parts : list gostring) :
  forall tags,
  fold_left
    (fun tags part =>
       let tag := strings_TrimSpace P part in
       if gostring_eqb tag [] then tags else tags ++ [tag])
    parts tags
  = tags ++ List.filter (fun tag => negb (gostring_eqb tag []))
                        (map (strings_TrimSpace P) parts).
Proof.
  induction parts as [|part parts IH]; intros tags; simpl.
  - rewrite app_nil_r. reflexivity.
  - rewrite IH. destruct (gostring_eqb (strings_TrimSpace P part) []); simpl.
    + reflexivity.
    + rewrite <- app_assoc. reflexivity.
Qed.

(** X13.  The tags of a form value: no tag is empty, each tag is a part of
    the trimmed value between two commas, trimmed, and there are at most
    as many tags as parts.  A blank value gives no tag. *)
Theorem X13_tags_are_trimmed_parts (P : Platform) (raw : gostring) :
  let parts := strings.Split (strings_TrimSpace P raw) ","%char in
  Forall (fun tag => tag <> [] /\ exists part, part ∈ parts
                                               /\ tag = strings_TrimSpace P part)
         (parseTags P raw)
  /\ (length (parseTags P raw) <= length parts)%nat
  /\ (strings_TrimSpace P raw = [] -> parseTags P raw = []).
Proof.
  intros parts. unfold parseTags. fold parts.
  destruct (gostring_eqb (strings_TrimSpace P raw) []) eqn:Hraw.
  - split; [constructor|]. split; [simpl; lia | reflexivity].
  - rewrite parseTags_loop. simpl. split; [|split].
    + apply Forall_forall. intros tag Hin.
      apply list_elem_of_In, filter_In in Hin as [Hin Hne].
      apply in_map_iff in Hin as (part & <- & Hpart).
      split.
      * apply negb_true_iff, gostring_eqb_neq in Hne. exact Hne.
      * exists part. split; [apply list_elem_of_In; exact Hpart | reflexivity].
    + etransitivity; [apply filter_length_le|]. rewrite length_map. reflexivity.
    + intros Hempty. rewrite Hempty in Hraw. discriminate.
Qed.

Lemma Split_comma_separated (tags : list gostring) :
  tags <> [] ->
  Forall (fun tag => strings.Contains tag ","%char = false) tags ->
  strings.Split (comma_separated tags) ","%char = tags.
Proof.
  induction tags as [|tag tags IH]; intros Hne Hall; [contradiction|].
  apply Forall_cons in Hall as [Htag Hall]. apply Contains_false in Htag.
  destruct tags as [|tag' tags].
  - simpl. apply Split_free. exact Htag.
  - change (comma_separated (tag :: tag' :: tags))
      with (tag ++ ","%char :: comma_separated (tag' :: tags)).
    rewrite Split_app by exact Htag. rewrite IH; [reflexivity | discriminate | exact Hall].
Qed.

(** X14.  Tags written one after the other with commas between them are
    read back as they are: when there is at least one tag, no tag is empty
    or contains a comma, and trimming changes neither a tag nor the whole
    value, [parseTags] of the value is the list of the tags. *)
Theorem X14_tags_round_trip (P : Platform) (tags : list gostring) :
  tags <> [] ->
  Forall (fun tag => tag <> [] /\ strings.Contains tag ","%char = false
                     /\ strings_TrimSpace P tag = tag) tags ->
  strings_TrimSpace P (comma_separated tags) = comma_separated tags ->
  parseTags P (comma_separated tags) = tags.
Proof.
  intros Hne Hall Htrim. unfold parseTags. rewrite Htrim.
  assert (comma_separated tags <> []) as Hvalue.
  { destruct tags as [|tag tags]; [contradiction|].
    apply Forall_cons in Hall as [[Htag _] _].
    destruct tags; simpl; [exact Htag|].
    destruct tag; [contradiction | discriminate]. }
  apply gostring_eqb_neq in Hvalue. rewrite Hvalue.
  rewrite parseTags_loop, Split_comma_separated; [|exact Hne|].
  - simpl. clear Hne Htrim Hvalue.
    induction tags as [|tag tags IH]; [reflexivity|].
    apply Forall_cons in Hall as [(Htag & _ & Htrim) Hall]. simpl.
    rewrite Htrim. apply gostring_eqb_neq in Htag. rewrite Htag. simpl.
    rewrite IH by exact Hall. reflexivity.
  - eapply Forall_impl; [exact Hall|]. intros tag (_ & Hc & _). exact Hc.
Qed.

(** Two tags. *)
Lemma X14_tags_round_trip_witness :
  let P := platform_of (fun _ => None) no_fault in
  parseTags P (str "dp,shortest paths") = [str "dp"; str "shortest paths"].
Proof.
  intros P.
  apply (X14_tags_round_trip P [str "dp"; str "shortest paths"]).
  - discriminate.
  - repeat constructor; discriminate.
  - reflexivity.
Defined.

(** ** Uploads *)

(** The value of [readFileLimited] for a limit that is not negative: the
    stream as a whole when it holds at most [limit] bytes and ends without
    error, and an error otherwise. *)
Lemma readFileLimited_cases (reader : Reader) (limit : Z) :
  0 <= limit < max_int ->
  readFileLimited reader limit
  = if Z.of_nat (length (r_bytes reader)) <=? limit then
      match r_end reader with
      | EOF => inr (r_bytes reader)
      | _ => inl (str "failed to read upload")
      end
    else
      match r_end reader with
      | ErrWithData =>
          if Z.of_nat (length (r_bytes reader)) =? limit + 1
          then inl (str "failed to read upload")
          else inl (str "uploaded file too large")
      | _ => inl (str "uploaded file too large")
      end.
Proof.
  intros Hlimit. unfold readFileLimited, io.LimitReader, io.ReadAll.
  rewrite wrap_int_small by (unfold min_int; lia).
  replace (limit + 1 <=? 0) with false by (symmetry; apply Z.leb_gt; lia).
  destruct (Z.leb_spec (Z.of_nat (length (r_bytes reader))) limit) as [Hle|Hgt].
  - replace (Z.of_nat (length (r_bytes reader)) <? limit + 1) with true
      by (symmetry; apply Z.ltb_lt; lia).
    replace (limit <? Z.of_nat (length (r_bytes reader))) with false
      by (symmetry; apply Z.ltb_ge; lia).
    destruct (r_end reader); reflexivity.
  - replace (Z.of_nat (length (r_bytes reader)) <? limit + 1) with false
      by (symmetry; apply Z.ltb_ge; lia).
    destruct (Z.eqb_spec (Z.of_nat (length (r_bytes reader))) (limit + 1)) as [Heq|Hne];
      simpl.
    + replace (limit <? Z.of_nat (length (r_bytes reader))) with true
        by (symmetry; apply Z.ltb_lt; lia).
      destruct (r_end reader); reflexivity.
    + rewrite length_take.
      replace (limit <? Z.of_nat (Z.to_nat (limit + 1) `min` length (r_bytes reader)))
        with true by (symmetry; apply Z.ltb_lt; lia).
      destruct (r_end reader); reflexivity.
Qed.

(** X15.  An upload is read whole or not at all: for a limit that is not
    negative (and below the greatest [int64]), [readFileLimited] returns
    data exactly when the stream ends without error and holds at most
    [limit] bytes, and the data is then every byte of the stream; a longer
    stream is never cut to the limit. *)
Theorem X15_upload_whole_or_refused (reader : Reader) (limit : Z) (data : list byte) :
  0 <= limit < max_int ->
  readFileLimited reader limit = inr data
  <-> r_end reader = EOF /\ data = r_bytes reader
      /\ Z.of_nat (length (r_bytes reader)) <= limit.
Proof.
  intros Hlimit. rewrite readFileLimited_cases by exact Hlimit.
  destruct (Z.leb_spec (Z.of_nat (length (r_bytes reader))) limit) as [Hle|Hgt].
  - destruct (r_end reader).
    + split.
      * intros [= <-]. auto.
      * intros (_ & -> & _). reflexivity.
    + split; [discriminate | intros ([=] & _)].
    + split; [discriminate | intros ([=] & _)].
  - split.
    + destruct (r_end reader); [discriminate | discriminate|].
      destruct (_ =? _); discriminate.
    + intros (_ & _ & Hle). lia.
Qed.

(** Eight bytes under a limit of eight, and under a limit of seven. *)
Lemma X15_upload_whole_or_refused_witness :
  readFileLimited {| r_bytes := gzip_bytes; r_end := EOF |} 8 = inr gzip_bytes
  /\ readFileLimited {| r_bytes := gzip_bytes; r_end := EOF |} 7
     = inl (str "uploaded file too large").
Proof.
  split; [|reflexivity].
  apply (X15_upload_whole_or_refused {| r_bytes := gzip_bytes; r_end := EOF |} 8
           gzip_bytes); [unfold max_int; lia|].
  split; [reflexivity|]. split; [reflexivity | simpl; lia].
Defined.

Lemma maxBundleBytes_range : 0 <= maxBundleBytes < max_int.
Proof. unfold max_int. vm_compute. split; [discriminate | reflexivity]. Qed.

Lemma parseBundleFile_inr (form : option Form) (bundle : BundleFile) :
  parseBundleFile form = inr bundle ->
  exists f fileHeader reader,
    form = Some f /\ File f formFieldBundle = [fileHeader]
    /\ fh_Open fileHeader = inr reader /\ r_end reader = EOF
    /\ Z.of_nat (length (r_bytes reader)) <= maxBundleBytes
    /\ bundle = {| bf_Filename := fh_Filename fileHeader;
                   bf_Data := Some (r_bytes reader) |}.
Proof.
  unfold parseBundleFile. destruct form as [f|]; [|discriminate].
  destruct (File f formFieldBundle) as [|fileHeader [|other rest]] eqn:Hfiles;
    [discriminate| |discriminate].
  destruct (fh_Open fileHeader) as [message|reader] eqn:Hopen; [discriminate|].
  destruct (readFileLimited reader maxBundleBytes) as [message|data] eqn:Hread;
    [discriminate|].
  intros [= <-].
  rewrite readFileLimited_cases in Hread by apply maxBundleBytes_range.
  destruct (Z.leb_spec (Z.of_nat (length (r_bytes reader))) maxBundleBytes) as [Hlen|Hlen].
  2:{ destruct (r_end reader); try discriminate. destruct (_ =? _); discriminate. }
  destruct (r_end reader) eqn:Hend; try discriminate. injection Hread as <-.
  exists f, fileHeader, reader. auto 10.
Qed.

(** ** The form of a problem *)

(** [parseProblemForm] leaves the filesystem that [r.ParseMultipartForm]
    leaves. *)
Lemma parseProblemForm_fs (P : Platform)
    (json_Unmarshal : gostring -> option (list TestcaseGroup))
    (r : Request) (fs : FS) :
  (parseProblemForm P json_Unmarshal r fs).1 = (ParseMultipartForm r fs).1.
Proof.
  unfold parseProblemForm. destruct (ParseMultipartForm r fs). reflexivity.
Qed.

Lemma parseProblemForm_inr (P : Platform)
    (json_Unmarshal : gostring -> option (list TestcaseGroup))
    (r : Request) (fs : FS) (req : ProblemUpsertRequest) :
  (parseProblemForm P json_Unmarshal r fs).2 = inr req ->
  req_Title req = strings_TrimSpace P (FormValue r formFieldTitle)
  /\ req_Title req <> []
  /\ req_Description req = strings_TrimSpace P (FormValue r formFieldDesc)
  /\ req_Description req <> []
  /\ req_Tags req = parseTags P (FormValue r formFieldTags)
  /\ (if gostring_eqb (strings_TrimSpace P (FormValue r formFieldGroups)) []
      then Some []
      else json_Unmarshal (strings_TrimSpace P (FormValue r formFieldGroups)))
     = Some (req_TestcaseGroups req)
  /\ parseBundleFile (MultipartForm r) = inr (req_Bundle req).
Proof.
  unfold parseProblemForm.
  destruct (ParseMultipartForm r fs) as [fs' [|]]; cbn [snd negb]; [|discriminate].
  destruct (gostring_eqb (strings_TrimSpace P (FormValue r formFieldTitle)) [])
    eqn:Htitle; [discriminate|].
  destruct (gostring_eqb (strings_TrimSpace P (FormValue r formFieldDesc)) [])
    eqn:Hdesc; [discriminate|].
  destruct (parseOptionalInt P _) as [difficulty|]; [|discriminate].
  destruct (parseOptionalInt64 P (FormValue r formFieldTimeLimit)) as [timeLimit|];
    [|discriminate].
  destruct (parseOptionalInt64 P (FormValue r formFieldMemLimit)) as [memoryLimit|];
    [|discriminate].
  destruct (if gostring_eqb (strings_TrimSpace P (FormValue r formFieldGroups)) []
            then Some []
            else json_Unmarshal (strings_TrimSpace P (FormValue r formFieldGroups)))
    as [tcGroups|]; [|discriminate].
  destruct (parseBundleFile (MultipartForm r)) as [message|bundle]; [discriminate|].
  intros [= <-]. cbn.
  apply gostring_eqb_neq in Htitle. apply gostring_eqb_neq in Hdesc.
  auto 10.
Qed.

(** X16.  A form that is accepted has a title and a description that are
    not blank, and exactly one file in its field [bundle]: that file
    opened and read to its end without error, it holds at most 256 MiB,
    and the request carries its name as uploaded and all of its bytes, in
    a slice that is not [nil] (also when the file is empty). *)
Theorem X16_accepted_form (P : Platform)
    (json_Unmarshal : gostring -> option (list TestcaseGroup))
    (r : Request) (fs : FS) (req : ProblemUpsertRequest) :
  (parseProblemForm P json_Unmarshal r fs).2 = inr req ->
  req_Title req <> [] /\ req_Description req <> []
  /\ exists form fileHeader reader,
       MultipartForm r = Some form
       /\ File form formFieldBundle = [fileHeader]
       /\ fh_Open fileHeader = inr reader /\ r_end reader = EOF
       /\ Z.of_nat (length (r_bytes reader)) <= 256 * 1024 * 1024
       /\ bf_Filename (req_Bundle req) = fh_Filename fileHeader
       /\ bf_Data (req_Bundle req) = Some (r_bytes reader).
Proof.
  intros Hp. apply parseProblemForm_inr in Hp as (_ & Ht & _ & Hd & _ & _ & Hb).
  split; [exact Ht|]. split; [exact Hd|].
  apply parseBundleFile_inr in Hb as (f & fh & rd & Hf & Hfiles & Hopen & Hend & Hlen & Hbundle).
  exists f, fh, rd. rewrite Hbundle. auto 10.
Qed.

(** A form with a title, a description and one archive. *)
Lemma X16_accepted_form_witness :
  let P := platform_of (fun _ => None) no_fault in
  let r := form_request "1" [field "title" " A+B "; field "description" "Add."]
             [upload "cases.tar.gz" gzip_bytes] in
  let req := parsed {| req_Title := []; req_Description := []; req_Difficulty := 0;
                       req_TimeLimit := 0; req_MemoryLimit := 0; req_Tags := [];
                       req_TestcaseGroups := [];
                       req_Bundle := {| bf_Filename := []; bf_Data := None |} |}
               (parseProblemForm P (fun _ => None) r ∅).2 in
  req_Title req = str "A+B" /\ req_Title req <> [] /\ req_Description req <> []
  /\ bf_Data (req_Bundle req) = Some gzip_bytes.
Proof.
  intros P r req.
  destruct (X16_accepted_form P (fun _ => None) r ∅ req) as (Ht & Hd & _);
    [vm_compute; reflexivity|].
  split; [vm_compute; reflexivity|]. split; [exact Ht|]. split; [exact Hd|].
  vm_compute. reflexivity.
Defined.

(** ** Creating and updating a problem through the handlers *)

Lemma ingest_request_frame (P : Platform) (req : ProblemUpsertRequest) (fs : FS) :
  (ingest_request P req fs).1.1 = fs.
Proof. apply GetTestcaseBundleFromArchive_frame. Qed.

(** The bundle of an accepted upload, as the handlers receive it. *)
Lemma ingest_request_Ok (P : Platform) (req : ProblemUpsertRequest) (fs fs' : FS)
    (groups' : list TestcaseGroup) (bundle : TestcaseBundle) (data : list byte) :
  bf_Data (req_Bundle req) = Some data ->
  ingest_request P req fs = (fs', groups', Ok bundle) ->
  bundle = {| ObjectKey := bf_Filename (req_Bundle req);
              SHA256 := hex.EncodeToString (sha256.Sum256 data);
              TestcaseGroups := TestcaseGroups bundle; Version := 0 |}.
Proof.
  unfold ingest_request. intros ->. cbn [default].
  intros Hi. apply GetTestcaseBundleFromArchive_Ok in Hi as (tr & _ & _ & _ & _ & Hb).
  exact Hb.
Qed.

Lemma accepted_form_Data (P : Platform)
    (json_Unmarshal : gostring -> option (list TestcaseGroup))
    (r : Request) (fs : FS) (req : ProblemUpsertRequest) :
  (parseProblemForm P json_Unmarshal r fs).2 = inr req ->
  exists data, bf_Data (req_Bundle req) = Some data.
Proof.
  intros Hp. apply parseProblemForm_inr in Hp as (_ & _ & _ & _ & _ & _ & Hb).
  apply parseBundleFile_inr in Hb as (f & fh & rd & _ & _ & _ & _ & _ & ->).
  eauto.
Qed.

Lemma ProblemService_Create_unversioned {R : Type} `{ProblemRepository R}
    (repo : R) (req : ProblemUpsertRequest) (bundle : TestcaseBundle) :
  Version bundle = 0 ->
  ProblemService_Create repo (problem_of_request 0 req bundle)
  = Create repo (problem_of_request 0 req (with_Version bundle 1)).
Proof.
  intros Hv. unfold ProblemService_Create.
  cbn [p_TestcaseBundle problem_of_request]. rewrite Hv. reflexivity.
Qed.

(** X17.  What [CreateProblem] does.  The filesystem is left as
    [r.ParseMultipartForm] leaves it: the handler adds nothing to it and
    removes nothing from it, so that the temporary files of the uploads
    are still there.
    Either the answer has status 400 and the repository is untouched, or
    the form was accepted, its archive was accepted, and the repository was
    asked once to create the problem of the form with a bundle that
    carries the name of the upload as its key, the SHA-256 of the uploaded
    bytes in hexadecimal, and version 1; the answer is then 201 with the
    problem the repository returned, or 500 if it failed. *)
Theorem X17_create_problem {R : Type} `{ProblemRepository R} (P : Platform)
    (json_Unmarshal : gostring -> option (list TestcaseGroup))
    (r : Request) (repo repo' : R) (fs fs' : FS) (resp : Response) :
  CreateProblem P json_Unmarshal r repo fs = (repo', fs', resp) ->
  fs' = (ParseMultipartForm r fs).1
  /\ (resp_Status resp = http.StatusBadRequest /\ repo' = repo
      \/ exists req data groups,
           (parseProblemForm P json_Unmarshal r fs).2 = inr req
           /\ bf_Data (req_Bundle req) = Some data
           /\ let bundle := {| ObjectKey := bf_Filename (req_Bundle req);
                               SHA256 := hex.EncodeToString (sha256.Sum256 data);
                               TestcaseGroups := groups; Version := 1 |} in
              match Create repo (problem_of_request 0 req bundle) with
              | (repo1, inl _) =>
                  repo' = repo1
                  /\ resp = writeError http.StatusInternalServerError
                              (str "failed to create problem")
              | (repo1, inr created) =>
                  repo' = repo1
                  /\ resp = writeJSON http.StatusCreated (ProblemJSON created)
              end).
Proof.
  unfold CreateProblem.
  pose proof (parseProblemForm_fs P json_Unmarshal r fs) as Hfs0.
  destruct (parseProblemForm P json_Unmarshal r fs) as [fs0 [message|req]] eqn:Hp;
    cbn [fst snd] in *; subst fs0.
  - intros [= <- <- <-]. split; [reflexivity|]. left. split; reflexivity.
  - set (fs0 := (ParseMultipartForm r fs).1) in *.
    pose proof (ingest_request_frame P req fs0) as Hfs.
    destruct (accepted_form_Data P json_Unmarshal r fs req) as [data Hdata];
      [rewrite Hp; reflexivity|].
    destruct (ingest_request P req fs0) as [[fs1 groups1] [bundle|err]] eqn:Hi;
      simpl in Hfs; subst fs1.
    + pose proof (ingest_request_Ok _ _ _ _ _ _ _ Hdata Hi) as Hb.
      remember (hex.EncodeToString (sha256.Sum256 data)) as h eqn:Hh.
      rewrite ProblemService_Create_unversioned by (rewrite Hb; reflexivity).
      rewrite Hb. unfold with_Version. cbn [ObjectKey SHA256 TestcaseGroups].
      intros Hc. split.
      * destruct (Create repo _) as [repo1 [e|created]]; injection Hc as _ <- _;
          reflexivity.
      * right. exists req, data, (TestcaseGroups bundle).
        split; [reflexivity|]. split; [exact Hdata|]. rewrite <- Hh. cbn zeta.
        destruct (Create repo _) as [repo1 [e|created]]; injection Hc as <- _ <-;
          split; reflexivity.
    + intros [= <- <- <-]. split; [reflexivity|]. left. split; reflexivity.
Qed.

(** A problem created on the empty database, from an upload that the
    multipart parser has written to a temporary file: its bundle has
    version 1, and the temporary file is still there. *)
Lemma X17_create_problem_witness :
  let P := platform_of (gzip_by_magic (archive [file "0_0.in"; file "0_0.out"]))
             no_fault in
  let json := fun _ : gostring => Some [group 0 "samples"] in
  let r := spilling_request "0"
             [field "title" "A+B"; field "description" "Add."; field "tags" "math";
              field "testcase_groups" "[...]"]
             [upload "cases.tar.gz" gzip_bytes] gzip_bytes in
  let fs : FS := {[ str "/tmp" := ∅ ]} in
  let out := CreateProblem P json r empty_db fs in
  resp_Status out.2 = http.StatusCreated
  /\ map row_version (testcase_bundles out.1.1) = [1]
  /\ (ParseMultipartForm r fs).1 !! str "/tmp"
     = Some {[ str "multipart-1" := gzip_bytes ]}
  /\ out.1.2 = (ParseMultipartForm r fs).1.
Proof.
  intros P json r fs out.
  split; [vm_compute; reflexivity|]. split; [vm_compute; reflexivity|].
  split; [vm_compute; reflexivity|].
  apply (X17_create_problem P json r empty_db out.1.1 fs out.1.2 out.2).
  vm_compute. reflexivity.
Defined.

(** X18.  A problem cannot be created without declared groups: when the
    form value [testcase_groups] is blank, or decodes to no group,
    [CreateProblem] answers with status 400, whatever archive is uploaded,
    and leaves the repository as it was and the filesystem as
    [r.ParseMultipartForm] leaves it. *)
Theorem X18_create_needs_groups {R : Type} `{ProblemRepository R} (P : Platform)
    (json_Unmarshal : gostring -> option (list TestcaseGroup))
    (r : Request) (repo : R) (fs : FS) :
  strings_TrimSpace P (FormValue r formFieldGroups) = []
  \/ json_Unmarshal (strings_TrimSpace P (FormValue r formFieldGroups)) = Some [] ->
  exists body,
    CreateProblem P json_Unmarshal r repo fs
    = (repo, (ParseMultipartForm r fs).1,
       {| resp_Status := http.StatusBadRequest; resp_Body := body |}).
Proof.
  intros Hgroups. unfold CreateProblem.
  pose proof (parseProblemForm_fs P json_Unmarshal r fs) as Hfs0.
  pose proof (parseProblemForm_inr P json_Unmarshal r fs) as Hinr.
  destruct (parseProblemForm P json_Unmarshal r fs) as [fs0 [message|req]];
    cbn [fst snd] in *; subst fs0.
  - eexists. reflexivity.
  - set (fs0 := (ParseMultipartForm r fs).1) in *.
    destruct (Hinr req eq_refl) as (_ & _ & _ & _ & _ & Hg & _).
    assert (req_TestcaseGroups req = []) as Hnone.
    { destruct Hgroups as [Hraw | Hjson].
      - rewrite Hraw in Hg. simpl in Hg. congruence.
      - rewrite Hjson in Hg. destruct (gostring_eqb _ _); congruence. }
    unfold ingest_request. rewrite Hnone.
    destruct (GetTestcaseBundleFromArchive_no_groups P (bf_Filename (req_Bundle req))
                (default [] (bf_Data (req_Bundle req))) fs0) as [err ->].
    eexists. reflexivity.
Qed.

(** The same form as above without the field [testcase_groups]. *)
Lemma X18_create_needs_groups_witness :
  let P := platform_of (gzip_by_magic (archive [file "0_0.in"; file "0_0.out"]))
             no_fault in
  let r := form_request "0" [field "title" "A+B"; field "description" "Add."]
             [upload "cases.tar.gz" gzip_bytes] in
  exists body,
    CreateProblem P (fun _ => None) r empty_db ∅
    = (empty_db, (ParseMultipartForm r ∅).1,
       {| resp_Status := http.StatusBadRequest; resp_Body := body |}).
Proof.
  intros P r. apply (X18_create_needs_groups P (fun _ => None) r empty_db ∅).
  left. reflexivity.
Defined.

(** X19.  Updating a problem that does not exist: when the repository has
    neither a bundle nor a problem for the id of the request,
    [UpdateProblem] answers with status 400 (a form or an archive that is
    refused) or with status 500 and "failed to update testcase bundle",
    never with 404; the repository is left as it was, and the filesystem
    as [r.ParseMultipartForm] leaves it. *)
Theorem X19_update_missing_problem {R : Type} `{ProblemRepository R}
    `{ProblemEditor R} (P : Platform)
    (json_Unmarshal : gostring -> option (list TestcaseGroup))
    (r : Request) (repo : R) (fs : FS) (id : Z) :
  parseProblemID r = inr id ->
  GetLatestTestcaseBundle repo id = inl ErrNotFound ->
  Get repo id = inl ErrNotFound ->
  exists resp,
    UpdateProblem P json_Unmarshal r repo fs
    = (repo, (ParseMultipartForm r fs).1, resp)
    /\ (resp_Status resp = http.StatusBadRequest
        \/ resp = writeError http.StatusInternalServerError
                    (str "failed to update testcase bundle")).
Proof.
  intros Hid Hlatest Hget. unfold UpdateProblem. rewrite Hid.
  pose proof (parseProblemForm_fs P json_Unmarshal r fs) as Hfs0.
  destruct (parseProblemForm P json_Unmarshal r fs) as [fs0 [message|req]] eqn:Hp;
    cbn [fst snd] in *; subst fs0.
  - eexists. split; [reflexivity | left; reflexivity].
  - set (fs0 := (ParseMultipartForm r fs).1) in *.
    destruct (accepted_form_Data P json_Unmarshal r fs req) as [data Hdata];
      [rewrite Hp; reflexivity|].
    unfold update_bundle. rewrite Hdata.
    pose proof (ingest_request_frame P req fs0) as Hfs.
    destruct (ingest_request P req fs0) as [[fs1 groups1] [bundle|err]];
      simpl in Hfs; subst fs1.
    + assert (UpdateTestcaseBundle repo id bundle = (repo, Some ErrNotFound)) as ->.
      { unfold UpdateTestcaseBundle. rewrite Hlatest. simpl. rewrite Hget. reflexivity. }
      eexists. split; [reflexivity | right; reflexivity].
    + eexists. split; [reflexivity | left; reflexivity].
Qed.

(** An update of problem 7 on the empty database, with a form and an
    archive that are accepted. *)
Lemma X19_update_missing_problem_witness :
  let P := platform_of (gzip_by_magic (archive [file "0_0.in"; file "0_0.out"]))
             no_fault in
  let json := fun _ : gostring => Some [group 0 "samples"] in
  let r := form_request "7"
             [field "title" "A+B"; field "description" "Add.";
              field "testcase_groups" "[...]"]
             [upload "cases.tar.gz" gzip_bytes] in
  exists resp,
    UpdateProblem P json r empty_db ∅ = (empty_db, (ParseMultipartForm r ∅).1, resp)
    /\ (resp_Status resp = http.StatusBadRequest
        \/ resp = writeError http.StatusInternalServerError
                    (str "failed to update testcase bundle")).
Proof.
  intros P json r.
  apply (X19_update_missing_problem P json r empty_db ∅ 7); reflexivity.
Defined.

(** X20.  What [UpdateProblem] does before it updates the fields of a
    problem.  The filesystem is left as it was when the problem id is
    refused, and otherwise as [r.ParseMultipartForm] leaves it (the
    handler adds nothing to it and removes nothing from it); an answer of
    status 400 leaves the repository untouched.  An answer of status 200 or 404 is
    given only after the form was accepted, its archive was accepted, and
    [UpdateTestcaseBundle] went through without error for the bundle of
    the uploaded bytes: the bundle step is never skipped, and the fields
    are then updated in the repository that step has left. *)
Theorem X20_update_problem {R : Type} `{ProblemRepository R} `{ProblemEditor R}
    (P : Platform) (json_Unmarshal : gostring -> option (list TestcaseGroup))
    (r : Request) (repo repo' : R) (fs fs' : FS) (resp : Response) :
  UpdateProblem P json_Unmarshal r repo fs = (repo', fs', resp) ->
  fs' = match parseProblemID r with
        | inl _ => fs
        | inr _ => (ParseMultipartForm r fs).1
        end
  /\ (resp_Status resp = http.StatusBadRequest -> repo' = repo)
  /\ (resp_Status resp = http.StatusOK \/ resp_Status resp = http.StatusNotFound ->
      exists id req data groups repo1,
        parseProblemID r = inr id
        /\ (parseProblemForm P json_Unmarshal r fs).2 = inr req
        /\ bf_Data (req_Bundle req) = Some data
        /\ UpdateTestcaseBundle repo id
             {| ObjectKey := bf_Filename (req_Bundle req);
                SHA256 := hex.EncodeToString (sha256.Sum256 data);
                TestcaseGroups := groups; Version := 0 |}
           = (repo1, None)
        /\ (Update repo1 (problem_of_request id req empty_bundle)).1 = repo').
Proof.
  unfold UpdateProblem.
  destruct (parseProblemID r) as [message|id] eqn:Hid.
  { intros [= <- <- <-]. split; [reflexivity|]. split; [reflexivity|].
    intros [Hs | Hs]; discriminate Hs. }
  pose proof (parseProblemForm_fs P json_Unmarshal r fs) as Hfs0.
  destruct (parseProblemForm P json_Unmarshal r fs) as [fs0 [message|req]] eqn:Hp;
    cbn [fst snd] in *; subst fs0.
  { intros [= <- <- <-]. split; [reflexivity|]. split; [reflexivity|].
    intros [Hs | Hs]; discriminate Hs. }
  set (fs0 := (ParseMultipartForm r fs).1) in *.
  destruct (accepted_form_Data P json_Unmarshal r fs req) as [data Hdata];
    [rewrite Hp; reflexivity|].
  unfold update_bundle. rewrite Hdata.
  pose proof (ingest_request_frame P req fs0) as Hfs.
  destruct (ingest_request P req fs0) as [[fs1 groups1] [bundle|err]] eqn:Hi;
    simpl in Hfs; subst fs1.
  - pose proof (ingest_request_Ok _ _ _ _ _ _ _ Hdata Hi) as Hb.
    remember (hex.EncodeToString (sha256.Sum256 data)) as h eqn:Hh.
    destruct (UpdateTestcaseBundle repo id bundle) as [repo1 [e|]] eqn:Hu.
    + intros [= <- <- <-]. split; [reflexivity|]. split; [discriminate|].
      intros [Hs | Hs]; discriminate Hs.
    + unfold ProblemService_Update.
      destruct (Update repo1 (problem_of_request id req empty_bundle))
        as [repo2 [e|updated]] eqn:Hupd.
      * intros [= <- <- <-]. split; [reflexivity|]. split.
        -- destruct (is_ErrNotFound e); discriminate.
        -- intros _. exists id, req, data, (TestcaseGroups bundle), repo1.
           rewrite <- Hh, <- Hb, Hupd. auto 10.
      * intros [= <- <- <-]. split; [reflexivity|]. split; [discriminate|].
        intros _. exists id, req, data, (TestcaseGroups bundle), repo1.
        rewrite <- Hh, <- Hb, Hupd. auto 10.
  - intros [= <- <- <-]. split; [reflexivity|]. split; [reflexivity|].
    intros [Hs | Hs]; discriminate Hs.
Qed.

(** The update of a problem stored with a bundle of version 1 in its
    column and no row in [testcase_bundles], from an upload that the
    multipart parser has written to a temporary file: the answer is 200,
    the bundle of the upload is stored as version 2, and the temporary
    file is still there. *)
Lemma X20_update_problem_witness :
  let P := platform_of (gzip_by_magic (archive [file "0_0.in"; file "0_0.out"]))
             no_fault in
  let json := fun _ : gostring => Some [group 0 "samples"] in
  let db := db_with 1 (problem_of (with_Version (bundle_of "00") 1)) in
  let r := spilling_request "1"
             [field "title" "A+B"; field "description" "Add two numbers.";
              field "testcase_groups" "[...]"]
             [upload "cases.tar.gz" gzip_bytes] gzip_bytes in
  let fs : FS := {[ str "/tmp" := ∅ ]} in
  let out := UpdateProblem P json r db fs in
  resp_Status out.2 = http.StatusOK
  /\ map row_version (testcase_bundles out.1.1) = [2]
  /\ (ParseMultipartForm r fs).1 !! str "/tmp"
     = Some {[ str "multipart-1" := gzip_bytes ]}
  /\ out.1.2 = (ParseMultipartForm r fs).1.
Proof.
  intros P json db r fs out.
  split; [vm_compute; reflexivity|]. split; [vm_compute; reflexivity|].
  split; [vm_compute; reflexivity|].
  apply (X20_update_problem P json r db out.1.1 fs out.1.2 out.2).
  vm_compute. reflexivity.
Defined.
